(** * Feishu channel adapter: inbound authorization pipeline and webhook forwarder

    A shallow embedding of
      - [extensions/feishu/src/channel.ts]: the monitor half ([normalizeUserId],
        [resolveSenderId], [extractMessageText], [extractMentionInfo],
        [resolveGroupConfig], [isSenderAllowed], [processMessageWithPipeline],
        [createEventDispatcher], [startFeishuMonitor] with its registry of
        clients), the plugin half ([normalizeFeishuTarget], [formatAllowFrom],
        [looksLikeId], [setAccountEnabled], [deleteAccount]) and the accounts
        ([listFeishuAccountIds], [resolveDefaultFeishuAccountId],
        [resolveFeishuAccount]),
      - [extensions/feishu/src/api.ts] ([resolveReceiveTarget], [sendFeishuText]),
      - the webchat forwarder ([forwardWebchatFinal]),
    followed by the properties the specification states about them, and by
    further properties of the code.

    Conventions of the model.
      - A JavaScript string is a [string] of ASCII code units.  [trim] removes
        the ASCII white space and line terminators (TAB, LF, VT, FF, CR, SP) and
        [toLowerCase] maps [A-Z] to [a-z]; code units above 127 are outside the
        model.
      - An optional field [f?: T] is an [option T]; [undefined] is [None].
      - A [Record<string, T>] is a [gmap string T] of its own properties;
        where the code indexes the group map with a chat id or a group name,
        the members inherited from [Object.prototype] are found as well
        ([getProperty]).
      - Collaborators reached through [core], [runtime], [fetch] and the lark
        client are fields of an environment record; the calls that leave the
        process are recorded, in order, in a trace.  The dispatcher, [fetch],
        the lark client and the read of the allow-list store can fail; the
        other collaborators answer. *)

From Stdlib Require Import Ascii String ZArith QArith.
From stdpp Require Import base option list strings gmap pretty.

Local Open Scope string_scope.
Local Open Scope Z_scope.

(** ** JavaScript strings *)

Module Js.

Definition isWhiteSpace (c : ascii) : bool :=
  let n := nat_of_ascii c in
  ((9 <=? n)%nat && (n <=? 13)%nat) || (n =? 32)%nat.

Definition lowerChar (c : ascii) : ascii :=
  let n := nat_of_ascii c in
  if ((65 <=? n)%nat && (n <=? 90)%nat) then ascii_of_nat (n + 32) else c.

(** [s.toLowerCase()] *)
Fixpoint toLowerCase (s : string) : string :=
  match s with
  | EmptyString => EmptyString
  | String c s' => String (lowerChar c) (toLowerCase s')
  end.

(** [s.trimStart()] *)
Fixpoint trimStart (s : string) : string :=
  match s with
  | EmptyString => EmptyString
  | String c s' => if isWhiteSpace c then trimStart s' else s
  end.

(** [s.trimEnd()] *)
Fixpoint trimEnd (s : string) : string :=
  match s with
  | EmptyString => EmptyString
  | String c s' =>
      match trimEnd s' with
      | EmptyString => if isWhiteSpace c then EmptyString else String c EmptyString
      | t => String c t
      end
  end.

(** [s.trim()] *)
Definition trim (s : string) : string := trimEnd (trimStart s).

(** [s.startsWith(p)] *)
Fixpoint startsWith (p s : string) : bool :=
  match p, s with
  | EmptyString, _ => true
  | String a p', String b s' => Ascii.eqb a b && startsWith p' s'
  | String _ _, EmptyString => false
  end.

(** [s.includes(needle)] *)
Fixpoint includes (needle s : string) : bool :=
  startsWith needle s ||
  match s with
  | EmptyString => false
  | String _ s' => includes needle s'
  end.

(** [s.slice(n)] for [0 <= n] *)
Fixpoint slice (n : nat) (s : string) : string :=
  match n, s with
  | O, _ => s
  | S n', String _ s' => slice n' s'
  | S _, EmptyString => EmptyString
  end.

(** Truthiness of a string: [Boolean(s)], [!s] is its negation. *)
Definition truthy (s : string) : bool :=
  match s with EmptyString => false | String _ _ => true end.

(** [a || b] on strings. *)
Definition or_else (a b : string) : string := if truthy a then a else b.

(** Matching one literal alternative of a [/^(...)/i] pattern: [p] is the
    lower-case literal, the subject is compared letter by letter ignoring
    case, and the rest of the subject is returned. *)
Fixpoint dropPrefixCI (p s : string) : option string :=
  match p, s with
  | EmptyString, _ => Some s
  | String a p', String b s' =>
      if Ascii.eqb a (lowerChar b) then dropPrefixCI p' s' else None
  | String _ _, EmptyString => None
  end.

(** [s.replace(/^(a1|a2|...)/i, "")]: the first alternative that matches at
    the start is removed; without a match the string is unchanged. *)
Fixpoint replacePrefixCI (alts : list string) (s : string) : string :=
  match alts with
  | [] => s
  | p :: alts' =>
      match dropPrefixCI p s with
      | Some rest => rest
      | None => replacePrefixCI alts' s
      end
  end.

(** The double quote and the line feed, for literals that contain one. *)
Definition dquote : string := String (ascii_of_nat 34) EmptyString.
Definition newline : string := String (ascii_of_nat 10) EmptyString.

End Js.

(** ** Configuration ([config-schema.ts]) *)

Inductive GroupPolicy := GroupAllowlist | GroupOpen | GroupDisabled.
Inductive DmPolicy := DmPairing | DmAllowlist | DmOpen | DmDisabled.

Global Instance GroupPolicy_eq_dec : EqDecision GroupPolicy.
Proof. solve_decision. Defined.
Global Instance DmPolicy_eq_dec : EqDecision DmPolicy.
Proof. solve_decision. Defined.

(** [allowFromEntry = z.union([z.string(), z.number()])]; a number is an
    integer in the safe range, which [String(v)] prints in decimal. *)
Inductive AllowFromEntry :=
  | AllowString (s : string)
  | AllowNumber (n : Z).

(** [String(v)] *)
Definition String_of (v : AllowFromEntry) : string :=
  match v with
  | AllowString s => s
  | AllowNumber n => pretty n
  end.

(** ** Sender allow-list matcher *)

(** The alternatives of [/^(feishu|lark|user|open_id):/i], and each with
    the colon that follows the group. *)
Definition allowEntryKinds : list string := ["feishu"; "lark"; "user"; "open_id"].

Definition allowEntryPrefixes : list string :=
  (fun kind => kind +:+ ":") <$> allowEntryKinds.

Definition normalizeUserId (raw : option string) : string :=
  let trimmed := default "" (Js.trim <$> raw) in
  if negb (Js.truthy trimmed) then "" else Js.toLowerCase trimmed.

Definition isSenderAllowed (senderId : string) (allowFrom : list string) : bool :=
  if bool_decide ("*" ∈ allowFrom) then true
  else
    let normalizedSenderId := normalizeUserId (Some senderId) in
    existsb
      (fun entry =>
         let normalized := Js.toLowerCase (Js.trim entry) in
         if negb (Js.truthy normalized) then false
         else if bool_decide (normalized = normalizedSenderId) then true
         else if bool_decide
                   (Js.replacePrefixCI allowEntryPrefixes normalized = normalizedSenderId)
              then true
         else false)
      allowFrom.

(** ** Account configuration *)

Module GroupEntry.
Record t := mk {
    enabled : option bool;
    allow : option bool;
    requireMention : option bool;
    users : option (list AllowFromEntry);
    systemPrompt : option string }.
End GroupEntry.

Module DmConfig.
Record t := mk {
    enabled : option bool;
    policy : option DmPolicy;
    allowFrom : option (list AllowFromEntry) }.
End DmConfig.

Module AccountConfig.
Record t := mk {
    botUserId : option string;
    botOpenId : option string;
    botName : option string;
    allowBots : option bool;
    requireMention : option bool;
    groupPolicy : option GroupPolicy;
    groups : option (gmap string GroupEntry.t);
    dm : option DmConfig.t;
    tenantKey : option string }.
End AccountConfig.

Record ResolvedFeishuAccount := {
  accountId : string;
  config : AccountConfig.t }.

(** The fields of the global [OpenClawConfig] that the pipeline reads itself:
    [channels?.defaults?.groupPolicy], [commands?.useAccessGroups] and
    [session?.store].  Whatever else the collaborators read from it is part
    of the functions of [FeishuCoreRuntime] below. *)
Module OpenClawConfig.
Record t := mk {
    defaultGroupPolicy : option GroupPolicy;
    useAccessGroups : option bool;
    sessionStore : option string }.
End OpenClawConfig.

(** ** Inbound events *)

Record FeishuEventSenderId := {
  open_id : option string;
  user_id : option string;
  union_id : option string }.

Record FeishuEventSender := {
  sender_type : option string;
  sender_id : option FeishuEventSenderId }.

(** [message.content : unknown]: a string, an object (with its [text]
    property when that is a string), or anything else. *)
Inductive MessageContent :=
  | ContentString (s : string)
  | ContentObject (text : option string)
  | ContentOther.

(** One element of [message.mentions : unknown[]]: [None] is an element
    that is falsy or not an object; a field is [None] when it is absent or
    not of the type the code tests for. *)
Record MentionId := {
  mention_open_id : option string;
  mention_user_id : option string }.

Record MentionRecord := {
  mention_name : option string;
  mention_id : option MentionId }.

Definition MentionEntry := option MentionRecord.

Inductive EventTime :=
  | EventTimeString (s : string)
  | EventTimeNumber (n : Z).

(** A time in milliseconds, or the [NaN] that [Date.parse] gives for a
    string it cannot read. *)
Inductive Timestamp :=
  | TimeNaN
  | TimeMs (ms : Z).

Record FeishuEventMessage := {
  message_id : option string;
  chat_id : option string;
  chat_type : option string;
  msg_type : option string;
  content : MessageContent;
  mentions : option (list MentionEntry);
  root_id : option string;
  parent_id : option string }.

Record FeishuMessageEvent := {
  message : option FeishuEventMessage;
  sender : option FeishuEventSender;
  event_time : option EventTime }.

(** ** Pure helpers of the monitor *)

Definition resolveSenderId (sender : option FeishuEventSender) : string :=
  let senderId :=
    default {| open_id := None; user_id := None; union_id := None |}
            (sender ≫= sender_id) in
  let field (f : option string) := default "" (Js.trim <$> f) in
  Js.or_else (field (open_id senderId))
    (Js.or_else (field (user_id senderId))
       (Js.or_else (field (union_id senderId)) "")).

(** [JSON.parse(s)] as far as [extractMessageText] looks at it: [None] when
    it throws, otherwise the [text] property of the result when that is a
    string. *)
Definition JsonTextParser := string → option (option string).

Definition extractMessageText (JSON_parse : JsonTextParser) (content : MessageContent)
  : string :=
  match content with
  | ContentString s =>
      let trimmed := Js.trim s in
      if negb (Js.truthy trimmed) then ""
      else
        let parsedText :=
          if Js.startsWith "{" trimmed || Js.startsWith "[" trimmed then
            match JSON_parse trimmed with
            | Some parsed => default "" (Js.trim <$> parsed)
            | None => ""
            end
          else "" in
        if Js.truthy parsedText then parsedText else trimmed
  | ContentObject text =>
      let text := default "" (Js.trim <$> text) in
      if Js.truthy text then text else ""
  | ContentOther => ""
  end.

Record MentionInfo := {
  hasAnyMention : bool;
  wasMentioned : bool;
  canDetectMention : bool }.

Definition extractMentionInfo (mentions : option (list MentionEntry))
    (rawContent : string) (botOpenId botUserId botName : option string) : MentionInfo :=
  let list := default [] mentions in
  let hasAnyMention := (0 <? length list)%nat || Js.includes "<at " rawContent in
  let targets : gset string :=
    list_to_set
      (List.filter Js.truthy
         (omap (fmap Js.trim) [botOpenId; botUserId; botName])) in
  let has (x : string) := bool_decide (x ∈ targets) in
  let wasMentioned :=
    existsb
      (fun entry : MentionEntry =>
         match entry with
         | None => false
         | Some record =>
             let name := default "" (Js.trim <$> mention_name record) in
             let idRecord := mention_id record in
             let openId := default "" (Js.trim <$> (idRecord ≫= mention_open_id)) in
             let userId := default "" (Js.trim <$> (idRecord ≫= mention_user_id)) in
             has name || has openId || has userId
         end)
      list in
  let wasMentioned :=
    if negb wasMentioned && Js.truthy (default "" botUserId) then
      let marker :=
        "user_id=\" +:+ Js.dquote +:+ default "" botUserId +:+ "\" +:+ Js.dquote in
      if Js.includes marker rawContent then true else wasMentioned
    else wasMentioned in
  let canDetectMention := (0 <? length list)%nat || Js.includes "<at " rawContent in
  {| hasAnyMention := hasAnyMention;
     wasMentioned := wasMentioned;
     canDetectMention := canDetectMention |}.

Record GroupConfigResolved := {
  entry : option GroupEntry.t;
  allowlistConfigured : bool;
  fallback : option GroupEntry.t }.

(** The names that a plain object inherits from [Object.prototype]. *)
Definition Object_prototype : list string :=
  ["constructor"; "__defineGetter__"; "__defineSetter__"; "hasOwnProperty";
   "__lookupGetter__"; "__lookupSetter__"; "isPrototypeOf";
   "propertyIsEnumerable"; "toString"; "valueOf"; "__proto__"; "toLocaleString"].

(** What [entries[key]] gives for an inherited name: a function, or for
    [__proto__] the prototype itself.  It is truthy, and it has none of the
    properties that are read from a group entry ([enabled], [allow],
    [requireMention], [users], [systemPrompt]): wherever an entry is read it
    reads as the entry with no property set, and that is what stands for it
    here. *)
Definition inheritedMember : GroupEntry.t :=
  {| GroupEntry.enabled := None; GroupEntry.allow := None;
     GroupEntry.requireMention := None; GroupEntry.users := None;
     GroupEntry.systemPrompt := None |}.

(** [entries[key]] on the group map, a plain object: its own property of
    that name, and otherwise the member of [Object.prototype] of that
    name, if there is one. *)
Definition getProperty (entries : gmap string GroupEntry.t) (key : string)
  : option GroupEntry.t :=
  match entries !! key with
  | Some e => Some e
  | None => if bool_decide (key ∈ Object_prototype) then Some inheritedMember else None
  end.

Definition resolveGroupConfig (groupId : string) (groupName : option string)
    (groups : option (gmap string GroupEntry.t)) : GroupConfigResolved :=
  let entries : gmap string GroupEntry.t := default ∅ groups in
  let keys := (map_to_list entries).*1 in
  if bool_decide (length keys = 0%nat) then
    {| entry := None; allowlistConfigured := false; fallback := None |}
  else
    let normalizedName := (fun n => Js.toLowerCase (Js.trim n)) <$> groupName in
    let candidates :=
      List.filter Js.truthy
        [groupId; default "" groupName; default "" normalizedName] in
    let entry := head (omap (fun candidate => getProperty entries candidate) candidates) in
    let entry :=
      match entry with
      | Some e => Some e
      | None =>
          if Js.truthy (default "" normalizedName)
          then getProperty entries (default "" normalizedName)
          else None
      end in
    let fallback := getProperty entries "*" in
    {| entry := match entry with Some e => Some e | None => fallback end;
       allowlistConfigured := true;
       fallback := fallback |}.

(** ** Effects

    The asynchronous functions run sequentially ([await] at every call), so
    a run is a state transformer.  A run ends in one of three ways: it
    falls through with a value, it executes a [return] statement, or it
    throws.  The source returns [undefined] everywhere; each [return]
    carries a tag naming the statement, so that properties can tell the
    gates apart. *)

Inductive JsError := Error (msg : string).

Inductive ReceiveIdType := ReceiveChatId | ReceiveOpenId | ReceiveUserId.

Record FeishuSendTarget := {
  receiveIdType : ReceiveIdType;
  receiveId : string }.

(** The canonical inbound context handed to the dispatcher. *)
Record InboundContext := {
  Body : string;
  RawBody : string;
  CommandBody : string;
  From : string;
  To : string;
  SessionKey : option string;
  AccountId : string;
  ChatType : string;
  ConversationLabel : string;
  SenderName : option string;
  SenderId : string;
  SenderUsername : option string;
  WasMentioned : option bool;
  CommandAuthorized : option bool;
  Provider : string;
  Surface : string;
  MessageSid : option string;
  MessageSidFull : option string;
  ReplyToId : option string;
  ReplyToIdFull : option string;
  GroupSpace : option string;
  GroupSystemPrompt : option string;
  OriginatingChannel : string;
  OriginatingTo : string }.

(** Calls that leave the process, as the trace records them. *)
Inductive Call :=
  | CallLog (msg : string)
  | CallReadAllowFromStore (channel : string)
  | CallUpsertPairingRequest (channel id : string)
  | CallMessageCreate (target : FeishuSendTarget) (text : string)
      (tenantKey : option string)
  | CallStatusSink (lastOutboundAt : Z)
  | CallRecordSessionMeta (storePath sessionKey : string) (ctx : InboundContext)
  | CallDispatch (ctx : InboundContext).

(** The [return] statements of [processMessageWithPipeline]. *)
Inductive Exit :=
  | ExitNoMessage
  | ExitNoChatId
  | ExitBotAuthored
  | ExitEmptyBody
  | ExitGroupPolicyDisabled
  | ExitNoAllowlist
  | ExitNotAllowlisted
  | ExitChatDisabled
  | ExitGroupSenderNotAllowed
  | ExitMentionRequired
  | ExitDmDisabled
  | ExitDmUnauthorized
  | ExitControlCommand.

(** What the run can change: the trace of calls (oldest first) and the
    pending pairing requests of the pairing store, keyed by
    [(channel, id)] and holding the code. *)
Record World := {
  calls : list Call;
  pairingRequests : gmap (string * string) string }.

Inductive Outcome (A : Type) :=
  | Next (a : A)
  | Return (x : Exit)
  | Throw (e : JsError).
Arguments Next {A} a.
Arguments Return {A} x.
Arguments Throw {A} e.

Definition Run (A : Type) : Type := World → Outcome A * World.

Global Instance Run_ret : MRet Run := fun A a w => (Next a, w).
Global Instance Run_bind : MBind Run := fun A B f m w =>
  match m w with
  | (Next a, w') => f a w'
  | (Return x, w') => (Return x, w')
  | (Throw e, w') => (Throw e, w')
  end.

Definition return_ {A} (x : Exit) : Run A := fun w => (Return x, w).
Definition throw {A} (e : JsError) : Run A := fun w => (Throw e, w).

(** [try { body } catch (err) { handler(err) }] *)
Definition try_catch {A} (body : Run A) (handler : JsError → Run A) : Run A :=
  fun w =>
    match body w with
    | (Throw e, w') => handler e w'
    | r => r
    end.

(** [if (c) { body }] *)
Definition when (c : bool) (body : Run unit) : Run unit :=
  if c then body else mret tt.

Definition call (c : Call) : Run unit :=
  fun w => (Next tt, {| calls := (calls w ++ [c])%list; pairingRequests := pairingRequests w |}).

(** [String(err)] of an [Error]. *)
Definition String_of_error (e : JsError) : string :=
  match e with Error msg => "Error: " +:+ msg end.

Inductive PeerKind := PeerGroup | PeerDm.

Record AgentRoute := {
  route_agentId : string;
  route_sessionKey : string;
  route_accountId : string }.

Record PairingUpsert := {
  code : string;
  created : bool }.

(** The collaborators the pipeline is given: [core] (the plugin runtime),
    [runtime] (the logger), the optional [statusSink], the lark client and
    the clock.  A collaborator that only computes is a function; one that
    may fail says so in its result. *)
Record FeishuCoreRuntime := {
  shouldLogVerbose : bool;
  runtime_log : bool;                (* [runtime.log] is defined *)
  statusSink : bool;                 (* [statusSink] is defined *)
  Date_now : Z;
  Date_parse : string → Timestamp;
  JSON_parse : JsonTextParser;
  shouldComputeCommandAuthorized : string → OpenClawConfig.t → bool;
  shouldHandleTextCommands : OpenClawConfig.t → string → bool;
  hasControlCommand : string → OpenClawConfig.t → bool;
  isControlCommandMessage : string → OpenClawConfig.t → bool;
  (** [None]: the promise rejects *)
  readAllowFromStore : string → option (list string);
  newPairingCode : string → string → string;
  buildPairingReply : string → string → string → string;
  resolveAgentRoute : OpenClawConfig.t → string → string → PeerKind → string → AgentRoute;
  resolveStorePath : option string → string → string;
  readSessionUpdatedAt : string → string → option Z;
  (** [formatAgentEnvelope] with the options of
      [resolveEnvelopeFormatOptions(config)] applied:
      channel, from, timestamp, previousTimestamp, body *)
  formatAgentEnvelope :
    OpenClawConfig.t → string → string → option Timestamp → option Z → string → string;
  finalizeInboundContext : InboundContext → InboundContext;
  (** [Some msg]: the promise rejects with [Error(msg)] *)
  dispatchReplyError : InboundContext → option string;
  lark_withTenantKey : bool;         (* the SDK exports [withTenantKey] *)
  messageCreateError : FeishuSendTarget → string → option string }.

Definition logVerbose (core : FeishuCoreRuntime) (msg : string) : Run unit :=
  when (shouldLogVerbose core)
    (when (runtime_log core) (call (CallLog ("[feishu] " +:+ msg)))).

(** ** [api.ts] *)

Definition resolveReceiveTarget (raw : string) : option FeishuSendTarget :=
  let trimmed := Js.trim raw in
  if negb (Js.truthy trimmed) then None
  else
    let lower := Js.toLowerCase trimmed in
    if Js.startsWith "chat:" lower then
      Some {| receiveIdType := ReceiveChatId; receiveId := Js.trim (Js.slice 5 trimmed) |}
    else if Js.startsWith "open_id:" lower then
      Some {| receiveIdType := ReceiveOpenId; receiveId := Js.trim (Js.slice 8 trimmed) |}
    else if Js.startsWith "open:" lower then
      Some {| receiveIdType := ReceiveOpenId; receiveId := Js.trim (Js.slice 5 trimmed) |}
    else if Js.startsWith "user:" lower then
      Some {| receiveIdType := ReceiveUserId; receiveId := Js.trim (Js.slice 5 trimmed) |}
    else Some {| receiveIdType := ReceiveChatId; receiveId := trimmed |}.

(** [client.im.message.create(...)] *)
Definition messageCreate (core : FeishuCoreRuntime) (target : FeishuSendTarget)
    (text : string) (tenantKey : option string) : Run unit :=
  call (CallMessageCreate target text tenantKey);;
  match messageCreateError core target text with
  | Some msg => throw (Error msg)
  | None => mret tt
  end.

Definition sendFeishuText (core : FeishuCoreRuntime) (account : ResolvedFeishuAccount)
    (to text : string) : Run unit :=
  match resolveReceiveTarget to with
  | None => throw (Error "Feishu target is empty")
  | Some target =>
      if negb (Js.truthy (receiveId target)) then
        throw (Error "Feishu target missing receive_id")
      else
        let tenantKey := default "" (Js.trim <$> AccountConfig.tenantKey (config account)) in
        if Js.truthy tenantKey && lark_withTenantKey core then
          messageCreate core target text (Some tenantKey)
        else messageCreate core target text None
  end.

(** ** Collaborators of the plugin SDK that are not part of these sources *)

Record CommandAuthorizer := {
  authorizer_configured : bool;
  authorizer_allowed : bool }.

(** Modelled from the spec: [resolveCommandAuthorizedFromAuthorizers] of
    the plugin SDK is not among the sources.  Section 4.5: the final boolean
    is true iff [useAccessGroups] is false or the sender matched the
    applicable allow-list; an authorizer has matched when its allow-list is
    configured and allows the sender. *)
Definition resolveCommandAuthorizedFromAuthorizers (useAccessGroups : bool)
    (authorizers : list CommandAuthorizer) : bool :=
  negb useAccessGroups ||
  existsb (fun a => authorizer_configured a && authorizer_allowed a) authorizers.

Record MentionGateParams := {
  gate_isGroup : bool;
  gate_requireMention : bool;
  gate_canDetectMention : bool;
  gate_wasMentioned : bool;
  gate_implicitMention : bool;
  gate_hasAnyMention : bool;
  gate_allowTextCommands : bool;
  gate_hasControlCommand : bool;
  gate_commandAuthorized : bool }.

Record MentionGate := {
  shouldSkip : bool;
  effectiveWasMentioned : bool }.

(** Modelled from the spec: [resolveMentionGatingWithBypass] of the plugin
    SDK is not among the sources.  Section 4.6 gives its decision table, the
    first matching row wins; the table does not use [implicitMention] (the
    pipeline passes [false]) nor [hasAnyMention]. *)
Definition resolveMentionGatingWithBypass (p : MentionGateParams) : MentionGate :=
  let bypass :=
    gate_hasControlCommand p && gate_commandAuthorized p && gate_allowTextCommands p in
  if negb (gate_requireMention p) then
    {| shouldSkip := false; effectiveWasMentioned := gate_wasMentioned p |}
  else if gate_wasMentioned p then
    {| shouldSkip := false; effectiveWasMentioned := true |}
  else if bypass then
    {| shouldSkip := false; effectiveWasMentioned := true |}
  else if negb (gate_canDetectMention p) then
    {| shouldSkip := false; effectiveWasMentioned := false |}
  else
    {| shouldSkip := true; effectiveWasMentioned := false |}.

(** Modelled from the spec: the pairing store is not among the sources.
    Section 6: [upsertPairingRequest(channel, senderId)] returns
    [{code, created}], and [created] is true only the first time an
    identifier requests pairing. *)
Definition pairingStoreUpsert (core : FeishuCoreRuntime) (channel id : string)
  : Run PairingUpsert :=
  fun w =>
    match pairingRequests w !! (channel, id) with
    | Some c => (Next {| code := c; created := false |}, w)
    | None =>
        let c := newPairingCode core channel id in
        (Next {| code := c; created := true |},
         {| calls := calls w;
            pairingRequests := <[(channel, id) := c]> (pairingRequests w) |})
    end.

(** [await core.channel.pairing.upsertPairingRequest({channel, id})]: the
    call is recorded and answered by the store above. *)
Definition upsertPairingRequest (core : FeishuCoreRuntime) (channel id : string)
  : Run PairingUpsert :=
  call (CallUpsertPairingRequest channel id);;
  pairingStoreUpsert core channel id.

(** [await core.channel.pairing.readAllowFromStore(channel).catch(() => [])] *)
Definition readAllowFromStore_or_empty (core : FeishuCoreRuntime) (channel : string)
  : Run (list string) :=
  call (CallReadAllowFromStore channel);;
  mret (default [] (readAllowFromStore core channel)).

(** ** [processMessageWithPipeline]

    The function is one body in the source; it is cut here at its blank
    lines into consecutive blocks, each a definition, composed again in
    [processMessageWithPipeline]. *)

Definition DmPolicy_to_string (p : DmPolicy) : string :=
  match p with
  | DmPairing => "pairing"
  | DmAllowlist => "allowlist"
  | DmOpen => "open"
  | DmDisabled => "disabled"
  end.

(** The constants of lines 388-415. *)
Record Inbound := {
  in_message : FeishuEventMessage;
  chatId : string;
  isGroup : bool;
  senderId : string;
  rawContent : string;
  rawBody : string }.

(** Lines 393-394: every chat type but [p2p] is a group conversation. *)
Definition isGroupChat (chat_type : option string) : bool :=
  let chatType := default "" ((fun s => Js.trim (Js.toLowerCase s)) <$> chat_type) in
  negb (bool_decide (chatType = "p2p")).

(** Lines 388-415: the message, the chat, the sender, the bot filter and
    the body. *)
Definition readEvent (core : FeishuCoreRuntime) (event : FeishuMessageEvent)
    (account : ResolvedFeishuAccount) : Run Inbound :=
  match message event with
  | None => return_ ExitNoMessage
  | Some message =>
      let chatId := default "" (Js.trim <$> chat_id message) in
      if negb (Js.truthy chatId) then return_ ExitNoChatId
      else
        let isGroup := isGroupChat (chat_type message) in
        let sender := sender event in
        let senderId := resolveSenderId sender in
        let senderType :=
          (fun s => Js.trim (Js.toLowerCase s)) <$> (sender ≫= sender_type) in
        let allowBots :=
          bool_decide (AccountConfig.allowBots (config account) = Some true) in
        when (negb allowBots)
          (when (bool_decide (senderType = Some "bot"))
             (logVerbose core
                ("skip bot-authored message (" +:+ Js.or_else senderId "unknown" +:+ ")");;
              return_ ExitBotAuthored);;
           when (Js.truthy senderId &&
                 bool_decide
                   (Some senderId = Js.trim <$> AccountConfig.botOpenId (config account)))
             (logVerbose core "skip bot-authored message (bot open_id)";;
              return_ ExitBotAuthored));;
        let rawContent :=
          match content message with ContentString s => s | _ => "" end in
        let messageText := extractMessageText (JSON_parse core) (content message) in
        let rawBody := Js.trim messageText in
        if negb (Js.truthy rawBody) then return_ ExitEmptyBody
        else
          mret {| in_message := message; chatId := chatId; isGroup := isGroup;
                  senderId := senderId; rawContent := rawContent; rawBody := rawBody |}
  end.

(** Line 418: [account.config.groupPolicy ?? defaultGroupPolicy ?? "allowlist"] *)
Definition groupPolicyOf (account : ResolvedFeishuAccount)
    (cfg : OpenClawConfig.t) : GroupPolicy :=
  let defaultGroupPolicy := OpenClawConfig.defaultGroupPolicy cfg in
  default (default GroupAllowlist defaultGroupPolicy)
          (AccountConfig.groupPolicy (config account)).

(** Line 425: [groupEntry?.users ?? []] *)
Definition groupUsersOf (groupEntry : option GroupEntry.t) : list AllowFromEntry :=
  default [] (groupEntry ≫= GroupEntry.users).

(** Lines 428-461, the body of the first [if (isGroup)]. *)
Definition groupGate (core : FeishuCoreRuntime) (account : ResolvedFeishuAccount)
    (chatId senderId : string) (groupPolicy : GroupPolicy)
    (groupConfigResolved : GroupConfigResolved) : Run unit :=
  let groupEntry := entry groupConfigResolved in
  let groupUsers := groupUsersOf groupEntry in
  when (bool_decide (groupPolicy = GroupDisabled))
    (logVerbose core
       ("drop group message (groupPolicy=disabled, chat=" +:+ chatId +:+ ")");;
     return_ ExitGroupPolicyDisabled);;
  let groupAllowlistConfigured := allowlistConfigured groupConfigResolved in
  let groupAllowed :=
    bool_decide (is_Some groupEntry) ||
    bool_decide
      (is_Some (default ∅ (AccountConfig.groups (config account)) !! "*")) in
  when (bool_decide (groupPolicy = GroupAllowlist))
    (when (negb groupAllowlistConfigured)
       (logVerbose core
          ("drop group message (groupPolicy=allowlist, no allowlist, chat="
             +:+ chatId +:+ ")");;
        return_ ExitNoAllowlist);;
     when (negb groupAllowed)
       (logVerbose core
          ("drop group message (not allowlisted, chat=" +:+ chatId +:+ ")");;
        return_ ExitNotAllowlisted));;
  when (bool_decide (groupEntry ≫= GroupEntry.enabled = Some false) ||
        bool_decide (groupEntry ≫= GroupEntry.allow = Some false))
    (logVerbose core ("drop group message (chat disabled, chat=" +:+ chatId +:+ ")");;
     return_ ExitChatDisabled);;
  when (0 <? length groupUsers)%nat
    (let ok := isSenderAllowed senderId (String_of <$> groupUsers) in
     when (negb ok)
       (logVerbose core
          ("drop group message (sender not allowed, " +:+ senderId +:+ ")");;
        return_ ExitGroupSenderNotAllowed)).

(** The constants of lines 463-481 that later blocks read. *)
Record CommandAuth := {
  dmPolicy : DmPolicy;
  senderAllowedForCommands : bool;
  commandAuthorized : option bool }.

(** Line 463: [account.config.dm?.policy ?? "pairing"] *)
Definition dmPolicyOf (account : ResolvedFeishuAccount) : DmPolicy :=
  default DmPairing (AccountConfig.dm (config account) ≫= DmConfig.policy).

(** Lines 463-481: the allow-lists and the command authorization. *)
Definition resolveCommandAuth (core : FeishuCoreRuntime)
    (account : ResolvedFeishuAccount) (cfg : OpenClawConfig.t)
    (isGroup : bool) (senderId rawBody : string)
    (groupUsers : list AllowFromEntry) : Run CommandAuth :=
  let dmPolicy := dmPolicyOf account in
  let configAllowFrom : list string :=
    String_of <$> default [] (AccountConfig.dm (config account) ≫= DmConfig.allowFrom) in
  let shouldComputeAuth := shouldComputeCommandAuthorized core rawBody cfg in
  storeAllowFrom ←
    (if negb isGroup && (negb (bool_decide (dmPolicy = DmOpen)) || shouldComputeAuth)
     then readAllowFromStore_or_empty core "feishu"
     else mret [] : Run (list string));
  let effectiveAllowFrom : list string := (configAllowFrom ++ storeAllowFrom)%list in
  let commandAllowFrom : list string :=
    if isGroup then String_of <$> groupUsers else effectiveAllowFrom in
  let useAccessGroups :=
    negb (bool_decide (OpenClawConfig.useAccessGroups cfg = Some false)) in
  let senderAllowedForCommands := isSenderAllowed senderId commandAllowFrom in
  let commandAuthorized :=
    if shouldComputeAuth then
      Some (resolveCommandAuthorizedFromAuthorizers useAccessGroups
              [ {| authorizer_configured := (0 <? length commandAllowFrom)%nat;
                   authorizer_allowed := senderAllowedForCommands |} ])
    else None in
  mret {| dmPolicy := dmPolicy;
          senderAllowedForCommands := senderAllowedForCommands;
          commandAuthorized := commandAuthorized |}.

(** Line 484:
    [groupEntry?.requireMention ?? account.config.requireMention ?? true] *)
Definition requireMentionOf (groupEntry : option GroupEntry.t)
    (account : ResolvedFeishuAccount) : bool :=
  default (default true (AccountConfig.requireMention (config account)))
          (groupEntry ≫= GroupEntry.requireMention).

(** Lines 484-506: the arguments handed to [resolveMentionGatingWithBypass]. *)
Definition mentionGateParams (core : FeishuCoreRuntime)
    (account : ResolvedFeishuAccount) (cfg : OpenClawConfig.t) (i : Inbound)
    (groupEntry : option GroupEntry.t) (commandAuthorized : option bool)
  : MentionGateParams :=
  let requireMention := requireMentionOf groupEntry account in
  let mentionInfo :=
    extractMentionInfo (mentions (in_message i)) (rawContent i)
      (AccountConfig.botOpenId (config account))
      (AccountConfig.botUserId (config account))
      (AccountConfig.botName (config account)) in
  let allowTextCommands := shouldHandleTextCommands core cfg "feishu" in
  {| gate_isGroup := true;
     gate_requireMention := requireMention;
     gate_canDetectMention := canDetectMention mentionInfo;
     gate_wasMentioned := wasMentioned mentionInfo;
     gate_implicitMention := false;
     gate_hasAnyMention := hasAnyMention mentionInfo;
     gate_allowTextCommands := allowTextCommands;
     gate_hasControlCommand := hasControlCommand core (rawBody i) cfg;
     gate_commandAuthorized := bool_decide (commandAuthorized = Some true) |}.

(** Lines 483-512, the body of the second [if (isGroup)]; the value is the
    new [effectiveWasMentioned]. *)
Definition mentionGateBlock (core : FeishuCoreRuntime)
    (account : ResolvedFeishuAccount) (cfg : OpenClawConfig.t) (i : Inbound)
    (groupEntry : option GroupEntry.t) (commandAuthorized : option bool)
  : Run (option bool) :=
  let mentionGate :=
    resolveMentionGatingWithBypass
      (mentionGateParams core account cfg i groupEntry commandAuthorized) in
  when (shouldSkip mentionGate)
    (logVerbose core
       ("drop group message (mention required, chat=" +:+ chatId i +:+ ")");;
     return_ ExitMentionRequired);;
  mret (Some (effectiveWasMentioned mentionGate)).

(** Lines 514-555, the body of [if (!isGroup)]. *)
Definition dmGate (core : FeishuCoreRuntime) (account : ResolvedFeishuAccount)
    (senderId : string) (auth : CommandAuth) : Run unit :=
  let dmPolicy := dmPolicy auth in
  when (bool_decide (dmPolicy = DmDisabled) ||
        bool_decide (AccountConfig.dm (config account) ≫= DmConfig.enabled = Some false))
    (logVerbose core ("Blocked Feishu DM from " +:+ senderId +:+ " (dmPolicy=disabled)");;
     return_ ExitDmDisabled);;
  when (negb (bool_decide (dmPolicy = DmOpen)))
    (let allowed := senderAllowedForCommands auth in
     when (negb allowed)
       ((if bool_decide (dmPolicy = DmPairing) then
           r ← upsertPairingRequest core "feishu" senderId;
           when (created r)
             (logVerbose core ("feishu pairing request sender=" +:+ senderId);;
              try_catch
                (sendFeishuText core account ("open_id:" +:+ senderId)
                   (buildPairingReply core "feishu"
                      ("Your Feishu user id: " +:+ senderId) (code r));;
                 when (statusSink core) (call (CallStatusSink (Date_now core))))
                (fun err =>
                   logVerbose core
                     ("pairing reply failed for " +:+ senderId +:+ ": "
                        +:+ String_of_error err)))
         else
           logVerbose core
             ("Blocked unauthorized Feishu sender " +:+ senderId +:+ " (dmPolicy="
                +:+ DmPolicy_to_string dmPolicy +:+ ")"));;
        return_ ExitDmUnauthorized)).

(** Lines 557-564. *)
Definition controlCommandGate (core : FeishuCoreRuntime) (cfg : OpenClawConfig.t)
    (i : Inbound) (commandAuthorized : option bool) : Run unit :=
  when (isGroup i && isControlCommandMessage core (rawBody i) cfg &&
        negb (bool_decide (commandAuthorized = Some true)))
    (logVerbose core ("feishu: drop control command from " +:+ senderId i);;
     return_ ExitControlCommand).

(** Lines 566-627: the route, the envelope and the inbound context. *)
Definition buildContext (core : FeishuCoreRuntime) (event : FeishuMessageEvent)
    (account : ResolvedFeishuAccount) (cfg : OpenClawConfig.t) (i : Inbound)
    (groupEntry : option GroupEntry.t) (effectiveWasMentioned : option bool)
    (commandAuthorized : option bool) : AgentRoute * string * InboundContext :=
  let message := in_message i in
  let route :=
    resolveAgentRoute core cfg "feishu" (accountId account)
      (if isGroup i then PeerGroup else PeerDm) (chatId i) in
  let fromLabel :=
    if isGroup i then "chat:" +:+ chatId i else Js.or_else (senderId i) "user:unknown" in
  let storePath :=
    resolveStorePath core (OpenClawConfig.sessionStore cfg) (route_agentId route) in
  let previousTimestamp := readSessionUpdatedAt core storePath (route_sessionKey route) in
  let eventTimestamp :=
    match event_time event with
    | Some (EventTimeString s) => Some (Date_parse core s)
    | Some (EventTimeNumber n) => Some (TimeMs n)
    | None => None
    end in
  let body :=
    formatAgentEnvelope core cfg "Feishu" fromLabel eventTimestamp previousTimestamp
      (rawBody i) in
  let groupSystemPrompt :=
    match Js.trim <$> (groupEntry ≫= GroupEntry.systemPrompt) with
    | Some p => if Js.truthy p then Some p else None
    | None => None
    end in
  let senderOrUndefined :=
    if Js.truthy (senderId i) then Some (senderId i) else None in
  let replyTo :=
    match root_id message with Some r => Some r | None => parent_id message end in
  let ctxPayload :=
    finalizeInboundContext core
      {| Body := body;
         RawBody := rawBody i;
         CommandBody := rawBody i;
         From := "feishu:" +:+ senderId i;
         To := "feishu:" +:+ chatId i;
         SessionKey := Some (route_sessionKey route);
         AccountId := route_accountId route;
         ChatType := if isGroup i then "channel" else "direct";
         ConversationLabel := fromLabel;
         SenderName := senderOrUndefined;
         SenderId := senderId i;
         SenderUsername := senderOrUndefined;
         WasMentioned := if isGroup i then effectiveWasMentioned else None;
         CommandAuthorized := commandAuthorized;
         Provider := "feishu";
         Surface := "feishu";
         MessageSid := message_id message;
         MessageSidFull := message_id message;
         ReplyToId := replyTo;
         ReplyToIdFull := replyTo;
         GroupSpace := if isGroup i then Some (chatId i) else None;
         GroupSystemPrompt := if isGroup i then groupSystemPrompt else None;
         OriginatingChannel := "feishu";
         OriginatingTo := "feishu:" +:+ chatId i |} in
  (route, storePath, ctxPayload).

(** Lines 643-651, the [deliver] callback given to the dispatcher. *)
Definition deliver (core : FeishuCoreRuntime) (account : ResolvedFeishuAccount)
    (chatId : string) (payloadText : option string) : Run unit :=
  if negb (Js.truthy (default "" (Js.trim <$> payloadText))) then mret tt
  else
    sendFeishuText core account ("chat:" +:+ chatId) (default "" payloadText);;
    when (statusSink core) (call (CallStatusSink (Date_now core))).

(** Lines 629-656.  The recording of the session metadata is started and
    not awaited; the dispatcher is awaited, and what it does with [deliver]
    is its own business: the trace records that it was called with the
    context. *)
Definition dispatch (core : FeishuCoreRuntime) (route : AgentRoute)
    (storePath : string) (ctxPayload : InboundContext) : Run unit :=
  call (CallRecordSessionMeta storePath
          (default (route_sessionKey route) (SessionKey ctxPayload)) ctxPayload);;
  call (CallDispatch ctxPayload);;
  match dispatchReplyError core ctxPayload with
  | Some msg => throw (Error msg)
  | None => mret tt
  end.

Definition processMessageWithPipeline (core : FeishuCoreRuntime)
    (event : FeishuMessageEvent) (account : ResolvedFeishuAccount)
    (cfg : OpenClawConfig.t) : Run unit :=
  i ← readEvent core event account;
  let groupPolicy := groupPolicyOf account cfg in
  let groupConfigResolved :=
    resolveGroupConfig (chatId i) None (AccountConfig.groups (config account)) in
  let groupEntry := entry groupConfigResolved in
  let groupUsers := groupUsersOf groupEntry in
  when (isGroup i)
    (groupGate core account (chatId i) (senderId i) groupPolicy groupConfigResolved);;
  auth ← resolveCommandAuth core account cfg (isGroup i) (senderId i) (rawBody i)
            groupUsers;
  effectiveWasMentioned ←
    (if isGroup i
     then mentionGateBlock core account cfg i groupEntry (commandAuthorized auth)
     else mret None);
  when (negb (isGroup i)) (dmGate core account (senderId i) auth);;
  controlCommandGate core cfg i (commandAuthorized auth);;
  let '(route, storePath, ctxPayload) :=
    buildContext core event account cfg i groupEntry effectiveWasMentioned
      (commandAuthorized auth) in
  dispatch core route storePath ctxPayload.

(** ** The webchat forwarder ([forwardWebchatFinal]) *)

Module Webchat.

Record FeishuWebhookConfig := {
  enabled : option bool;
  webhook : option string;
  secret : option string;
  keyword : option string }.

Record WebchatNotifyConfig := {
  notify_enabled : option bool;
  feishu : option FeishuWebhookConfig }.

(** The body of the request, before [JSON.stringify]. *)
Record Payload := {
  msg_type : string;
  content_text : string;
  timestamp : option string;
  sign : option string }.

(** A JavaScript value as far as [json?.code && json.code !== 0] looks at
    it. *)
Inductive JsValue :=
  | JsUndefined
  | JsNull
  | JsBool (b : bool)
  | JsNumber (q : Q)
  | JsString (s : string)
  | JsObject.

(** The parsed response body: an object with its [code] and the rendering
    of its [msg] ([None] when [msg] is null or undefined), or a value
    without properties of its own (null, a number, a string, an array). *)
Inductive JsonBody :=
  | BodyObject (code : JsValue) (msg : option string)
  | BodyOther.

Record Response := {
  status : Z;
  (** [None]: [res.json()] rejects *)
  json : option JsonBody }.

(** [res.ok]: the status is in the range 200-299. *)
Definition ok (res : Response) : bool := (200 <=? status res) && (status res <=? 299).

(** [Boolean(v)] *)
Definition truthy (v : JsValue) : bool :=
  match v with
  | JsUndefined | JsNull => false
  | JsBool b => b
  | JsNumber q => negb (Qnum q =? 0)
  | JsString s => Js.truthy s
  | JsObject => true
  end.

(** [v !== 0] *)
Definition not_zero (v : JsValue) : bool :=
  match v with
  | JsNumber q => negb (Qnum q =? 0)
  | _ => true
  end.

(** What the forwarder is given besides its parameters. *)
Record Platform := {
  Date_now : Z;
  normalizeMessageChannel : option string → option string;
  (** [crypto.createHmac("sha256", key).update(data).digest("base64")] *)
  hmacSha256Base64 : string → string → string;
  (** [fetch(url, {method: "POST", ...})]; [inl msg]: the promise rejects *)
  fetch : string → Payload → string + Response }.

Inductive ForwardOutcome :=
  (** returned before the request, with the warning given to [log.warn] *)
  | NotForwarded (warning : option string)
  (** the request was made and the function returned *)
  | Forwarded (url : string) (payload : Payload)
  (** the request was made and the function threw *)
  | ForwardFailed (url : string) (payload : Payload) (e : JsError).

Definition isWebchatChannel (pf : Platform) (channel : option string) : bool :=
  bool_decide (normalizeMessageChannel pf channel = Some "webchat").

Definition forwardWebchatFinal (pf : Platform) (notify : option WebchatNotifyConfig)
    (text : string) (sessionKey : option string) (sessionChannel : option string)
    (log : bool) : ForwardOutcome :=
  if negb (bool_decide (notify ≫= notify_enabled = Some true)) then NotForwarded None
  else if negb (isWebchatChannel pf sessionChannel) then NotForwarded None
  else
    match notify ≫= feishu with
    | None => NotForwarded None
    | Some feishu =>
        if bool_decide (enabled feishu = Some false) then NotForwarded None
        else
          let webhook := default "" (Js.trim <$> webhook feishu) in
          if negb (Js.truthy webhook) then
            NotForwarded
              (if log then
                 Some ("webchat forward skipped: missing Feishu webhook (session "
                         +:+ default "n/a" sessionKey +:+ ")")
               else None)
          else
            let baseText := Js.trim text in
            if negb (Js.truthy baseText) then NotForwarded None
            else
              let text :=
                if Js.truthy (default "" (keyword feishu))
                then default "" (keyword feishu) +:+ " " +:+ baseText
                else baseText in
              let secret := default "" (Js.trim <$> secret feishu) in
              let payload :=
                if Js.truthy secret then
                  let timestamp := pretty (Date_now pf / 1000) in
                  let stringToSign := timestamp +:+ Js.newline +:+ secret in
                  let sign := hmacSha256Base64 pf stringToSign "" in
                  {| msg_type := "text"; content_text := text;
                     timestamp := Some timestamp; sign := Some sign |}
                else
                  {| msg_type := "text"; content_text := text;
                     timestamp := None; sign := None |} in
              match fetch pf webhook payload with
              | inl msg => ForwardFailed webhook payload (Error msg)
              | inr res =>
                  let json := default (BodyObject JsUndefined None) (json res) in
                  if negb (ok res) then
                    ForwardFailed webhook payload
                      (Error ("Feishu webhook HTTP " +:+ pretty (status res)))
                  else
                    match json with
                    | BodyObject code msg =>
                        if truthy code && not_zero code then
                          ForwardFailed webhook payload
                            (Error ("Feishu webhook error: " +:+ default "unknown" msg))
                        else Forwarded webhook payload
                    | BodyOther => Forwarded webhook payload
                    end
              end
    end.

(** The request a run made, and whether the run threw. *)
Definition requestOf (out : ForwardOutcome) : option (string * Payload) :=
  match out with
  | NotForwarded _ => None
  | Forwarded url payload | ForwardFailed url payload _ => Some (url, payload)
  end.

Definition threw (out : ForwardOutcome) : bool :=
  match out with ForwardFailed _ _ _ => true | _ => false end.

Definition samplePlatform (res : Response) : Platform :=
  {| Date_now := 1700000000999;
     normalizeMessageChannel := fun channel => channel;
     hmacSha256Base64 := fun key data => "hmac(" +:+ key +:+ "," +:+ data +:+ ")";
     fetch := fun _ _ => inr res |}.

Definition sampleNotify : option WebchatNotifyConfig :=
  Some {| notify_enabled := Some true;
          feishu :=
            Some {| enabled := None;
                    webhook := Some "https://open.feishu.cn/hook/1";
                    secret := Some " s3cret ";
                    keyword := None |} |}.

End Webchat.

(** ** Record updates and sample inputs used in the statements below *)

Definition with_groupPolicy (p : option GroupPolicy) (a : ResolvedFeishuAccount)
  : ResolvedFeishuAccount :=
  let c := config a in
  {| accountId := accountId a;
     config :=
       {| AccountConfig.botUserId := AccountConfig.botUserId c;
          AccountConfig.botOpenId := AccountConfig.botOpenId c;
          AccountConfig.botName := AccountConfig.botName c;
          AccountConfig.allowBots := AccountConfig.allowBots c;
          AccountConfig.requireMention := AccountConfig.requireMention c;
          AccountConfig.groupPolicy := p;
          AccountConfig.groups := AccountConfig.groups c;
          AccountConfig.dm := AccountConfig.dm c;
          AccountConfig.tenantKey := AccountConfig.tenantKey c |} |}.

Definition with_groups (g : option (gmap string GroupEntry.t))
    (a : ResolvedFeishuAccount) : ResolvedFeishuAccount :=
  let c := config a in
  {| accountId := accountId a;
     config :=
       {| AccountConfig.botUserId := AccountConfig.botUserId c;
          AccountConfig.botOpenId := AccountConfig.botOpenId c;
          AccountConfig.botName := AccountConfig.botName c;
          AccountConfig.allowBots := AccountConfig.allowBots c;
          AccountConfig.requireMention := AccountConfig.requireMention c;
          AccountConfig.groupPolicy := AccountConfig.groupPolicy c;
          AccountConfig.groups := g;
          AccountConfig.dm := AccountConfig.dm c;
          AccountConfig.tenantKey := AccountConfig.tenantKey c |} |}.

Definition with_dm (d : option DmConfig.t) (a : ResolvedFeishuAccount)
  : ResolvedFeishuAccount :=
  let c := config a in
  {| accountId := accountId a;
     config :=
       {| AccountConfig.botUserId := AccountConfig.botUserId c;
          AccountConfig.botOpenId := AccountConfig.botOpenId c;
          AccountConfig.botName := AccountConfig.botName c;
          AccountConfig.allowBots := AccountConfig.allowBots c;
          AccountConfig.requireMention := AccountConfig.requireMention c;
          AccountConfig.groupPolicy := AccountConfig.groupPolicy c;
          AccountConfig.groups := AccountConfig.groups c;
          AccountConfig.dm := d;
          AccountConfig.tenantKey := AccountConfig.tenantKey c |} |}.

Definition with_requireMention (r : option bool) (a : ResolvedFeishuAccount)
  : ResolvedFeishuAccount :=
  let c := config a in
  {| accountId := accountId a;
     config :=
       {| AccountConfig.botUserId := AccountConfig.botUserId c;
          AccountConfig.botOpenId := AccountConfig.botOpenId c;
          AccountConfig.botName := AccountConfig.botName c;
          AccountConfig.allowBots := AccountConfig.allowBots c;
          AccountConfig.requireMention := r;
          AccountConfig.groupPolicy := AccountConfig.groupPolicy c;
          AccountConfig.groups := AccountConfig.groups c;
          AccountConfig.dm := AccountConfig.dm c;
          AccountConfig.tenantKey := AccountConfig.tenantKey c |} |}.

(** The [dm] block with its policy written out. *)
Definition dm_with_policy (p : DmPolicy) (d : option DmConfig.t) : DmConfig.t :=
  {| DmConfig.enabled := d ≫= DmConfig.enabled;
     DmConfig.policy := Some p;
     DmConfig.allowFrom := d ≫= DmConfig.allowFrom |}.

Definition sampleCore : FeishuCoreRuntime :=
  {| shouldLogVerbose := true;
     runtime_log := true;
     statusSink := true;
     Date_now := 1700000000000;
     Date_parse := fun _ => TimeNaN;
     JSON_parse := fun _ => None;
     shouldComputeCommandAuthorized := fun _ _ => true;
     shouldHandleTextCommands := fun _ _ => true;
     hasControlCommand := fun _ _ => false;
     isControlCommandMessage := fun _ _ => false;
     readAllowFromStore := fun _ => Some [];
     newPairingCode := fun _ _ => "K7Q2";
     buildPairingReply := fun _ idLine code => idLine +:+ " / code " +:+ code;
     resolveAgentRoute := fun _ channel accountId _ id =>
       {| route_agentId := "main";
          route_sessionKey := channel +:+ ":" +:+ id;
          route_accountId := accountId |};
     resolveStorePath := fun _ agentId => "sessions/" +:+ agentId;
     readSessionUpdatedAt := fun _ _ => None;
     formatAgentEnvelope := fun _ _ from _ _ body => from +:+ ": " +:+ body;
     finalizeInboundContext := fun ctx => ctx;
     dispatchReplyError := fun _ => None;
     lark_withTenantKey := true;
     messageCreateError := fun _ _ => None |}.

(** The same collaborators with verbose logging off and a lark client that
    refuses every message. *)
Definition quietFailingCore : FeishuCoreRuntime :=
  {| shouldLogVerbose := false;
     runtime_log := true;
     statusSink := true;
     Date_now := Date_now sampleCore;
     Date_parse := Date_parse sampleCore;
     JSON_parse := JSON_parse sampleCore;
     shouldComputeCommandAuthorized := shouldComputeCommandAuthorized sampleCore;
     shouldHandleTextCommands := shouldHandleTextCommands sampleCore;
     hasControlCommand := hasControlCommand sampleCore;
     isControlCommandMessage := isControlCommandMessage sampleCore;
     readAllowFromStore := readAllowFromStore sampleCore;
     newPairingCode := newPairingCode sampleCore;
     buildPairingReply := buildPairingReply sampleCore;
     resolveAgentRoute := resolveAgentRoute sampleCore;
     resolveStorePath := resolveStorePath sampleCore;
     readSessionUpdatedAt := readSessionUpdatedAt sampleCore;
     formatAgentEnvelope := formatAgentEnvelope sampleCore;
     finalizeInboundContext := finalizeInboundContext sampleCore;
     dispatchReplyError := dispatchReplyError sampleCore;
     lark_withTenantKey := true;
     messageCreateError := fun _ _ => Some "request failed" |}.


Definition sampleConfig : OpenClawConfig.t :=
  {| OpenClawConfig.defaultGroupPolicy := None;
     OpenClawConfig.useAccessGroups := None;
     OpenClawConfig.sessionStore := None |}.

(** An account with nothing set. *)
Definition sampleAccount : ResolvedFeishuAccount :=
  {| accountId := "default";
     config :=
       {| AccountConfig.botUserId := None;
          AccountConfig.botOpenId := None;
          AccountConfig.botName := None;
          AccountConfig.allowBots := None;
          AccountConfig.requireMention := None;
          AccountConfig.groupPolicy := None;
          AccountConfig.groups := None;
          AccountConfig.dm := None;
          AccountConfig.tenantKey := None |} |}.

Definition sampleMessage (chatType chatId text : string) : FeishuEventMessage :=
  {| message_id := Some "om_1";
     chat_id := Some chatId;
     chat_type := Some chatType;
     msg_type := Some "text";
     content := ContentObject (Some text);
     mentions := None;
     root_id := None;
     parent_id := None |}.

Definition sampleEvent (chatType chatId senderOpenId text : string)
  : FeishuMessageEvent :=
  {| message := Some (sampleMessage chatType chatId text);
     sender :=
       Some {| sender_type := Some "user";
               sender_id :=
                 Some {| open_id := Some senderOpenId;
                         user_id := None; union_id := None |} |};
     event_time := None |}.

(** A group message that mentions somebody else, past the first block. *)
Definition sampleInbound : Inbound :=
  {| in_message :=
       {| message_id := Some "om_2";
          chat_id := Some "oc_team";
          chat_type := Some "group";
          msg_type := Some "text";
          content := ContentObject (Some "hello");
          mentions :=
            Some [Some {| mention_name := Some "Bo";
                          mention_id :=
                            Some {| mention_open_id := Some "ou_bo";
                                    mention_user_id := None |} |}];
          root_id := None;
          parent_id := None |};
     chatId := "oc_team";
     isGroup := true;
     senderId := "ou_u1";
     rawContent := "";
     rawBody := "hello" |}.

(** A direct message with the text [status], past the first block. *)
Definition sampleDirectInbound : Inbound :=
  {| in_message := sampleMessage "p2p" "oc_dm" "status";
     chatId := "oc_dm";
     isGroup := false;
     senderId := "ou_u1";
     rawContent := "";
     rawBody := "status" |}.

Definition emptyWorld : World := {| calls := []; pairingRequests := ∅ |}.

(** The calls of a trace by kind. *)
Definition upserts (l : list Call) : list (string * string) :=
  omap (fun c => match c with
                 | CallUpsertPairingRequest channel id => Some (channel, id)
                 | _ => None end) l.

Definition messagesCreated (l : list Call) : list (FeishuSendTarget * string) :=
  omap (fun c => match c with
                 | CallMessageCreate target text _ => Some (target, text)
                 | _ => None end) l.

Definition dispatched (l : list Call) : list InboundContext :=
  omap (fun c => match c with CallDispatch ctx => Some ctx | _ => None end) l.

Definition logged (l : list Call) : list string :=
  omap (fun c => match c with CallLog msg => Some msg | _ => None end) l.

(** The world with more calls on its trace. *)
Definition addCalls (w : World) (new : list Call) : World :=
  {| calls := (calls w ++ new)%list; pairingRequests := pairingRequests w |}.

(** The run [m] ends in [r] after making the calls [new], whatever the
    world it starts in, and leaves the pairing store alone. *)
Definition runs {A} (m : Run A) (r : Outcome A) (new : list Call) : Prop :=
  ∀ w, m w = (r, addCalls w new).

(** Only log lines were added on the way from [w] to [w']. *)
Definition onlyLogsAdded (w w' : World) : Prop :=
  pairingRequests w' = pairingRequests w ∧
  ∃ msgs, calls w' = (calls w ++ (CallLog <$> msgs))%list.

(** ** The plugin half of [channel.ts] *)

(** Lines 30-34. *)
Definition normalizeFeishuTarget (raw : string) : string :=
  let trimmed := Js.trim raw in
  if negb (Js.truthy trimmed) then ""
  else Js.replacePrefixCI ["feishu:"; "lark:"] trimmed.

(** Lines 101-105, [config.formatAllowFrom]. *)
Definition formatAllowFrom (allowFrom : list AllowFromEntry) : list string :=
  Js.toLowerCase <$>
    List.filter Js.truthy ((fun entry => Js.trim (String_of entry)) <$> allowFrom).

(** [/^[a-z0-9_\-]+$/i] on one character. *)
Definition isIdChar (c : ascii) : bool :=
  let n := nat_of_ascii c in
  ((97 <=? n)%nat && (n <=? 122)%nat) || ((65 <=? n)%nat && (n <=? 90)%nat) ||
  ((48 <=? n)%nat && (n <=? 57)%nat) || (n =? 95)%nat || (n =? 45)%nat.

Fixpoint allIdChars (s : string) : bool :=
  match s with
  | EmptyString => true
  | String c s' => isIdChar c && allIdChars s'
  end.

(** The alternatives of [/^(chat|user|open_id|open):/i]. *)
Definition targetKinds : list string := ["chat"; "user"; "open_id"; "open"].

(** [/^(a1|a2|...):/i.test(s)] *)
Definition testPrefixCI (kinds : list string) (s : string) : bool :=
  existsb (fun kind => bool_decide (is_Some (Js.dropPrefixCI (kind +:+ ":") s))) kinds.

(** Lines 130-135, [messaging.targetResolver.looksLikeId]. *)
Definition looksLikeId (input : string) : bool :=
  let trimmed := Js.trim input in
  if negb (Js.truthy trimmed) then false
  else if testPrefixCI targetKinds trimmed then true
  else Js.truthy trimmed && allIdChars trimmed.

(** The labels that [resolveReceiveTarget] knows, with the kind of id each
    one selects. *)
Definition receiveTargetLabels : list (string * ReceiveIdType) :=
  [("chat:", ReceiveChatId); ("open_id:", ReceiveOpenId);
   ("open:", ReceiveOpenId); ("user:", ReceiveUserId)].

(** ** Vocabulary for the properties of whole runs *)

Definition storeReads (l : list Call) : list string :=
  omap (fun c => match c with CallReadAllowFromStore channel => Some channel
                 | _ => None end) l.

(** Calls that neither touch the pairing store, nor send a message, nor
    reach the dispatcher. *)
Definition harmless (new : list Call) : Prop :=
  upserts new = [] ∧ messagesCreated new = [] ∧ dispatched new = [].

Definition onlyLogs (new : list Call) : Prop := ∃ msgs, new = CallLog <$> msgs.

(** A run that ends the same way in every world, writes nothing but log
    lines and does not throw. *)
Definition quiet {A} (m : Run A) : Prop :=
  ∃ r new, runs m r new ∧ onlyLogs new ∧ ∀ e, r ≠ Throw e.


(** Every call that the run [m] adds to the trace satisfies [P]. *)
Definition footprint {A} (P : Call → Prop) (m : Run A) : Prop :=
  ∀ w, ∃ new, calls (m w).2 = (calls w ++ new)%list ∧ Forall P new.


Definition notStoreRead (c : Call) : Prop :=
  match c with CallReadAllowFromStore _ => False | _ => True end.

(** A gate: the run goes on, silently, when [c] holds, and ends in a
    [return] statement otherwise; it writes nothing but log lines. *)
Definition decides (m : Run unit) (c : bool) : Prop :=
  ∀ w, ∃ r msgs,
    m w = (r, addCalls w (CallLog <$> msgs)) ∧
    if c then r = Next tt ∧ msgs = [] else ∃ x, r = Return x.

(** [a ?? b] *)
Definition orElse {A} (a b : option A) : option A :=
  match a with Some x => Some x | None => b end.

(** A gate with its [return] statement: the run ends in [return] at [x]
    when [o] is [Some x] and goes on, silently, when [o] is [None]; it
    writes nothing but log lines. *)
Definition exits (m : Run unit) (o : option Exit) : Prop :=
  ∀ w, ∃ msgs,
    m w = (match o with Some x => Return x | None => Next tt end,
           addCalls w (CallLog <$> msgs)) ∧
    (o = None → msgs = []).

(** The [return] statements of the group gate (lines 428-461). *)
Definition groupGateExits : list Exit :=
  [ExitGroupPolicyDisabled; ExitNoAllowlist; ExitNotAllowlisted; ExitChatDisabled;
   ExitGroupSenderNotAllowed].

(** ** [createEventDispatcher] *)



(** ** Accounts ([accounts.ts]) and the configuration adapter of the plugin *)

Module Accounts.

(** A property value, as far as these functions look at one: they compare
    [enabled] with [false] and trim the strings [appId], [appSecret], [name]
    and [defaultAccount]; anything else (a number, an array, a nested
    object such as [dm] or [groups]) is only copied, and stands here under
    a name.  A configuration is parsed from JSON: a key that is there has a
    value, and [undefined] is a missing key. *)
Inductive Value :=
  | VBool (b : bool)
  | VString (s : string)
  | VOther (n : nat).

Global Instance Value_eq_dec : EqDecision Value.
Proof. solve_decision. Defined.

Abbreviation Object := (gmap string Value).

(** [channels.feishu]: its [accounts], and its other properties. *)
Record FeishuConfig := {
  accounts : option (gmap string Object);
  properties : Object }.

(** [cfg.channels]: the Feishu block and the other channels. *)
Record Channels := {
  feishu : option FeishuConfig;
  otherChannels : Object }.

(** [cfg]: its [channels] and its other settings. *)
Record Config := {
  channels : option Channels;
  otherSettings : Object }.

(** What comes from outside: the two names of the plugin SDK, the order in
    which [Object.keys] enumerates, and the order of [localeCompare]. *)
Record Sdk := {
  DEFAULT_ACCOUNT_ID : string;
  normalizeAccountId : option string → string;
  Object_keys : gmap string Object → list string;
  (** [ids.sort((a, b) => a.localeCompare(b))] *)
  sortByLocale : list string → list string }.

Record ResolvedFeishuAccount := {
  accountId : string;
  name : option string;
  enabled : bool;
  config : Object;
  configured : bool }.

(** [obj.key?.trim()], for a property that the schema types as a string *)
Definition trimmed (obj : Object) (key : string) : option string :=
  match obj !! key with
  | Some (VString s) => Some (Js.trim s)
  | _ => None
  end.

(** [obj?.key !== false] *)
Definition notFalse (obj : option Object) (key : string) : bool :=
  negb (bool_decide (obj ≫= (fun o => o !! key) = Some (VBool false))).

(** [cfg.channels?.["feishu"]] *)
Definition feishuOf (cfg : Config) : option FeishuConfig := channels cfg ≫= feishu.

Definition listConfiguredAccountIds (sdk : Sdk) (cfg : Config) : list string :=
  match feishuOf cfg ≫= accounts with
  | None => []
  | Some accounts => List.filter Js.truthy (Object_keys sdk accounts)
  end.

Definition listFeishuAccountIds (sdk : Sdk) (cfg : Config) : list string :=
  let ids := listConfiguredAccountIds sdk cfg in
  if bool_decide (length ids = 0%nat) then [DEFAULT_ACCOUNT_ID sdk]
  else sortByLocale sdk ids.

Definition resolveDefaultFeishuAccountId (sdk : Sdk) (cfg : Config) : string :=
  let channel := feishuOf cfg in
  let defaultAccount :=
    default "" (channel ≫= fun c => trimmed (properties c) "defaultAccount") in
  if Js.truthy defaultAccount then defaultAccount
  else
    let ids := listFeishuAccountIds sdk cfg in
    if bool_decide (DEFAULT_ACCOUNT_ID sdk ∈ ids) then DEFAULT_ACCOUNT_ID sdk
    else default (DEFAULT_ACCOUNT_ID sdk) (head ids).

Definition resolveAccountConfig (cfg : Config) (accountId : string) : option Object :=
  match feishuOf cfg ≫= accounts with
  | Some accounts => accounts !! accountId
  | None => None
  end.

(** [{ ...base, ...account }], where [base] is the Feishu block without
    [accounts] and [defaultAccount]. *)
Definition mergeFeishuAccountConfig (cfg : Config) (accountId : string) : Object :=
  let raw := default ∅ (properties <$> feishuOf cfg) in
  let base := delete "accounts" (delete "defaultAccount" raw) in
  let account := default ∅ (resolveAccountConfig cfg accountId) in
  account ∪ base.

Definition resolveFeishuAccount (sdk : Sdk) (cfg : Config) (accountId : option string)
  : ResolvedFeishuAccount :=
  let accountId := normalizeAccountId sdk accountId in
  let baseEnabled := notFalse (properties <$> feishuOf cfg) "enabled" in
  let merged := mergeFeishuAccountConfig cfg accountId in
  let accountEnabled := notFalse (Some merged) "enabled" in
  let enabled := baseEnabled && accountEnabled in
  let configured :=
    Js.truthy (default "" (trimmed merged "appId")) &&
    Js.truthy (default "" (trimmed merged "appSecret")) in
  {| accountId := accountId;
     name := match trimmed merged "name" with
             | Some n => if Js.truthy n then Some n else None
             | None => None
             end;
     enabled := enabled;
     config := merged;
     configured := configured |}.

Definition listEnabledFeishuAccounts (sdk : Sdk) (cfg : Config)
  : list ResolvedFeishuAccount :=
  List.filter enabled
    ((fun accountId => resolveFeishuAccount sdk cfg (Some accountId))
       <$> listFeishuAccountIds sdk cfg).

(** [config.setAccountEnabled] of the plugin ([channel.ts], lines 54-71):
    nested copies, with [enabled] written into the account. *)
Definition setAccountEnabled (cfg : Config) (accountId : string) (enabled : bool)
  : Config :=
  let accounts := default ∅ (feishuOf cfg ≫= accounts) in
  {| otherSettings := otherSettings cfg;
     channels :=
       Some {| otherChannels := default ∅ (otherChannels <$> channels cfg);
               feishu :=
                 Some {| properties := default ∅ (properties <$> feishuOf cfg);
                         accounts :=
                           Some (<[accountId :=
                                     <["enabled" := VBool enabled]>
                                       (default ∅ (accounts !! accountId))]>
                                   accounts) |} |} |}.

(** [config.deleteAccount] of the plugin ([channel.ts], lines 72-90).  The
    copies [next] and [nextChannels] are shallow: [nextChannels.feishu] is
    the very object [cfg.channels.feishu] when there is one, and
    [feishu.accounts = accounts] writes into it.  The function is therefore
    given its effect: the first component is the configuration returned,
    the second is [cfg] as the call leaves it. *)
Definition deleteAccount (cfg : Config) (accountId : string) : Config * Config :=
  let otherChannels := default ∅ (otherChannels <$> channels cfg) in
  let feishu := default {| accounts := None; properties := ∅ |} (feishuOf cfg) in
  let accounts := delete accountId (default ∅ (accounts feishu)) in
  if (0 <? size accounts)%nat then
    let feishu := {| accounts := Some accounts; properties := properties feishu |} in
    let nextChannels := {| feishu := Some feishu; otherChannels := otherChannels |} in
    ({| channels := Some nextChannels; otherSettings := otherSettings cfg |},
     match feishuOf cfg with
     | Some _ => {| channels := Some nextChannels; otherSettings := otherSettings cfg |}
     | None => cfg
     end)
  else
    ((if (0 <? size otherChannels)%nat
      then {| channels := Some {| feishu := None; otherChannels := otherChannels |};
              otherSettings := otherSettings cfg |}
      else {| channels := None; otherSettings := otherSettings cfg |}),
     cfg).

Definition sampleSdk : Sdk :=
  {| DEFAULT_ACCOUNT_ID := "default";
     normalizeAccountId := fun accountId =>
       Js.or_else (Js.toLowerCase (Js.trim (default "" accountId))) "default";
     Object_keys := fun accounts => (map_to_list accounts).*1;
     sortByLocale := fun ids => ids |}.

(** A channel with its credentials at the top and two accounts. *)
Definition sampleConfig : Config :=
  {| otherSettings := ∅;
     channels :=
       Some {| otherChannels := ∅;
               feishu :=
                 Some {| properties :=
                           {[ "appId" := VString "cli_1";
                              "appSecret" := VString "s3cret" ]};
                         accounts :=
                           Some {[ "main" := ∅;
                                   "ops" := {[ "enabled" := VBool false ]} ]} |} |} |}.

End Accounts.

(** ** The monitor ([startFeishuMonitor]) and its registry of clients *)

Module Monitor.
Import Accounts.

Inductive AppType := ISV | SelfBuild.

(** What the lark SDK exports, as far as the monitor asks: the two
    application types, and whether a client has a [stop] method. *)
Record Lark := {
  AppType_ISV : bool;
  AppType_SelfBuild : bool;
  WSClient_stop : bool }.

Record WsClientConfig := {
  appId : string;
  appSecret : string;
  domain : option string;
  appType : option AppType }.

Definition resolveWsClientConfig (lark : Lark) (account : ResolvedFeishuAccount)
  : WsClientConfig :=
  let appId := default "" (trimmed (config account) "appId") in
  let appSecret := default "" (trimmed (config account) "appSecret") in
  let domain :=
    match trimmed (config account) "domain" with
    | Some d => if Js.truthy d then Some d else None
    | None => None
    end in
  let appType := Js.toLowerCase <$> trimmed (config account) "appType" in
  let resolvedType :=
    if bool_decide (appType = Some "isv") then
      if AppType_ISV lark then Some ISV else None
    else if bool_decide (appType = Some "self_build") then
      if AppType_SelfBuild lark then Some SelfBuild else None
    else None in
  {| appId := appId; appSecret := appSecret; domain := domain;
     appType := resolvedType |}.

(** The module-level map [activeClients], the clients constructed so far,
    oldest first, each named by its position and started as soon as it is
    constructed, and the clients whose [stop] was called, in order. *)
Record State := {
  activeClients : gmap string nat;
  clients : list WsClientConfig;
  stopped : list nat }.

Definition initial : State := {| activeClients := ∅; clients := []; stopped := [] |}.

(** [stopClient], the closure that [startFeishuMonitor] creates: it holds
    the account id, not the client. *)
Definition stopClient (lark : Lark) (accountId : string) (s : State) : State :=
  match activeClients s !! accountId with
  | Some existing =>
      {| activeClients := delete accountId (activeClients s);
         clients := clients s;
         stopped := if WSClient_stop lark then (stopped s ++ [existing])%list
                    else stopped s |}
  | None => s
  end.

(** [startFeishuMonitor] up to the registration of the abort listener; the
    first component is the error thrown, if any. *)
Definition startFeishuMonitor (lark : Lark) (account : ResolvedFeishuAccount)
    (s : State) : option JsError * State :=
  let clientConfig := resolveWsClientConfig lark account in
  if negb (Js.truthy (appId clientConfig)) || negb (Js.truthy (appSecret clientConfig))
  then (Some (Error "Feishu appId/appSecret are required for long connection mode"), s)
  else
    let wsClient := length (clients s) in
    (None,
     {| activeClients := <[accountId account := wsClient]> (activeClients s);
        clients := (clients s ++ [clientConfig])%list;
        stopped := stopped s |}).

(** What can happen to the registry: a monitor is started for an account,
    or a [stopClient] runs for an account id, called by the abort signal or
    through the function that [startFeishuMonitor] returned. *)
Inductive Op :=
  | Start (account : ResolvedFeishuAccount)
  | Stop (accountId : string).

Definition step (lark : Lark) (s : State) (op : Op) : State :=
  match op with
  | Start account => (startFeishuMonitor lark account s).2
  | Stop accountId => stopClient lark accountId s
  end.

Definition run (lark : Lark) (s : State) (ops : list Op) : State :=
  foldl (step lark) s ops.

(** Every registered client has been constructed, is registered under one
    account id only and has not been stopped; and only constructed clients
    are stopped, none of them twice. *)
Definition registryInv (s : State) : Prop :=
  (∀ a c, activeClients s !! a = Some c →
          (c < length (clients s))%nat ∧ (c ∉ stopped s) ∧
          ∀ b, activeClients s !! b = Some c → b = a) ∧
  (∀ c, c ∈ stopped s → (c < length (clients s))%nat) ∧
  NoDup (stopped s).

(** The client [c] is running, but no longer in the registry. *)
Definition abandoned (c : nat) (s : State) : Prop :=
  (c < length (clients s))%nat ∧ (c ∉ stopped s) ∧
  ∀ a, activeClients s !! a ≠ Some c.

Definition sampleLark : Lark :=
  {| AppType_ISV := true; AppType_SelfBuild := true; WSClient_stop := true |}.

Definition sampleAccount : ResolvedFeishuAccount :=
  resolveFeishuAccount sampleSdk sampleConfig (Some "main").

End Monitor.

(** * Properties *)

(** ** The definitions on concrete inputs *)

Example trim_both_ends : Js.trim (" " +:+ Js.newline +:+ "a b  ") = "a b".
Proof. reflexivity. Qed.

Example toLowerCase_id : Js.toLowerCase "Ou_AbC9" = "ou_abc9".
Proof. reflexivity. Qed.

Example includes_marker : Js.includes "<at " "hi <at user_id=1>bot</at>" = true.
Proof. reflexivity. Qed.

Example String_of_number : String_of (AllowNumber 1234567) = "1234567".
Proof. reflexivity. Qed.

Example isSenderAllowed_plain : isSenderAllowed "ou_A1" ["ou_a1 "] = true.
Proof. reflexivity. Qed.

Example isSenderAllowed_kind : isSenderAllowed "ou_a1" ["Open_ID:OU_A1"] = true.
Proof. reflexivity. Qed.

Example isSenderAllowed_other : isSenderAllowed "ou_a1" ["ou_b2"; "id:ou_a1"] = false.
Proof. reflexivity. Qed.

Example isSenderAllowed_padded_wildcard : isSenderAllowed "ou_a1" [" * "] = false.
Proof. reflexivity. Qed.

Example resolveSenderId_order :
  resolveSenderId
    (Some {| sender_type := None;
             sender_id := Some {| open_id := Some "  "; user_id := Some " u7 ";
                                  union_id := Some "on_9" |} |}) = "u7".
Proof. reflexivity. Qed.

Example resolveReceiveTarget_open_id :
  resolveReceiveTarget " Open_ID: ou_1 "
  = Some {| receiveIdType := ReceiveOpenId; receiveId := "ou_1" |}.
Proof. reflexivity. Qed.

Example resolveGroupConfig_wildcard :
  let quiet := {| GroupEntry.enabled := None; GroupEntry.allow := None;
                  GroupEntry.requireMention := Some false;
                  GroupEntry.users := None; GroupEntry.systemPrompt := None |} in
  resolveGroupConfig "oc_other" None (Some {[ "*" := quiet ]})
  = {| entry := Some quiet; allowlistConfigured := true; fallback := Some quiet |}.
Proof. vm_compute. reflexivity. Qed.

Example extractMentionInfo_inline_marker :
  extractMentionInfo None
    ("<at user_id=\" +:+ Js.dquote +:+ "u_bot\" +:+ Js.dquote +:+ ">bot</at> hi")
    None (Some "u_bot") None
  = {| hasAnyMention := true; wasMentioned := true; canDetectMention := true |}.
Proof. vm_compute. reflexivity. Qed.

Example extractMentionInfo_plain_text :
  extractMentionInfo None "hello" (Some "ou_bot") (Some "u_bot") (Some "bot")
  = {| hasAnyMention := false; wasMentioned := false; canDetectMention := false |}.
Proof. vm_compute. reflexivity. Qed.

(** ** JavaScript strings *)

Lemma isWhiteSpace_lowerChar c : Js.isWhiteSpace c = true → Js.lowerChar c = c.
Proof. destruct c as [[] [] [] [] [] [] [] []]; (reflexivity || discriminate). Qed.

Lemma lowerChar_not_space c : Js.isWhiteSpace (Js.lowerChar c) = false →
  Js.isWhiteSpace c = false.
Proof.
  intros H. destruct (Js.isWhiteSpace c) eqn:E; [|done].
  rewrite (isWhiteSpace_lowerChar c E) in H. congruence.
Qed.

Lemma toLowerCase_app a b :
  Js.toLowerCase (a +:+ b) = Js.toLowerCase a +:+ Js.toLowerCase b.
Proof. induction a as [|c a IH]; simpl; [done|]. by rewrite IH. Qed.

Lemma toLowerCase_empty s : Js.toLowerCase s = "" → s = "".
Proof. by destruct s. Qed.

Lemma trimEnd_app_char a c b :
  Js.isWhiteSpace c = false →
  Js.trimEnd (a +:+ String c b) = a +:+ String c (Js.trimEnd b).
Proof.
  intros Hc. induction a as [|x a IH]; simpl.
  - rewrite Hc. by destruct (Js.trimEnd b).
  - rewrite IH. by destruct a.
Qed.

Lemma trimStart_char c s :
  Js.isWhiteSpace c = false → Js.trimStart (String c s) = String c s.
Proof. intros Hc. simpl. by rewrite Hc. Qed.

Lemma startsWith_spec p s :
  Js.startsWith p s = true ↔ ∃ post, s = p +:+ post.
Proof.
  revert s. induction p as [|a p IH]; intros s; simpl.
  - split; [eauto | done].
  - destruct s as [|b s].
    + split; [done | by intros [? ?]].
    + rewrite andb_true_iff, IH. split.
      * intros [Hab [post ->]]. apply Ascii.eqb_eq in Hab as ->. eauto.
      * intros [post [= -> ->]]. split; [apply Ascii.eqb_refl | eauto].
Qed.

(** [includes] finds exactly the substrings. *)
Lemma includes_spec needle s :
  Js.includes needle s = true ↔ ∃ pre post, s = pre +:+ needle +:+ post.
Proof.
  induction s as [|c s IH].
  - simpl. rewrite orb_false_r, startsWith_spec. split.
    + intros [post ->]. by exists "", post.
    + intros [pre [post H]]. destruct pre; [by exists post | done].
  - cbn [Js.includes]. rewrite orb_true_iff, IH, startsWith_spec. split.
    + intros [[post ->] | [pre [post ->]]].
      * by exists "", post.
      * by exists (String c pre), post.
    + intros [pre [post H]]. destruct pre as [|x pre].
      * left. by exists post.
      * right. injection H as -> ->. by exists pre, post.
Qed.

Lemma normalizeUserId_Some s :
  normalizeUserId (Some s) = Js.toLowerCase (Js.trim s).
Proof. unfold normalizeUserId. simpl. by destruct (Js.trim s). Qed.

(** ** Sender allow-list matcher *)

Lemma isSenderAllowed_nil senderId : isSenderAllowed senderId [] = false.
Proof. reflexivity. Qed.

Lemma isSenderAllowed_true_nonempty senderId allowFrom :
  isSenderAllowed senderId allowFrom = true → (0 <? length allowFrom)%nat = true.
Proof. destruct allowFrom; [by rewrite isSenderAllowed_nil | done]. Qed.

(** C6. An allow-list that contains the wildcard token ["*"] allows every
    sender, the empty string included, and the empty allow-list allows
    nobody. *)
Theorem isSenderAllowed_wildcard_and_empty (senderId : string) (allowFrom : list string) :
  ("*" ∈ allowFrom → isSenderAllowed senderId allowFrom = true) ∧
  isSenderAllowed senderId [] = false.
Proof.
  split; [|reflexivity].
  intros Hin. unfold isSenderAllowed. by rewrite bool_decide_eq_true_2.
Qed.

Lemma isSenderAllowed_wildcard_and_empty_witness :
  "*" ∈ ["ou_1"; "*"] ∧ isSenderAllowed "" ["ou_1"; "*"] = true.
Proof.
  split.
  - apply list_elem_of_further, list_elem_of_here.
  - apply (proj1 (isSenderAllowed_wildcard_and_empty "" ["ou_1"; "*"])).
    apply list_elem_of_further, list_elem_of_here.
Defined.

Lemma replacePrefixCI_kind kind rest :
  kind ∈ allowEntryKinds →
  Js.replacePrefixCI allowEntryPrefixes (kind +:+ ":" +:+ rest) = rest.
Proof.
  unfold allowEntryKinds. rewrite !elem_of_cons, elem_of_nil.
  intros [-> | [-> | [-> | [-> | []]]]]; reflexivity.
Qed.

Lemma kind_starts_with_letter prefix :
  Js.toLowerCase prefix ∈ allowEntryKinds →
  ∃ c rest, prefix = String c rest ∧ Js.isWhiteSpace c = false.
Proof.
  unfold allowEntryKinds. rewrite !elem_of_cons, elem_of_nil.
  destruct prefix as [|c rest]; simpl.
  - intros [H | [H | [H | [H | []]]]]; discriminate.
  - intros H. exists c, rest. split; [done|].
    apply lowerChar_not_space.
    destruct H as [H | [H | [H | [H | []]]]]; injection H as -> _; reflexivity.
Qed.

(** C7 fails for a sender id that starts with white space: the entry is
    trimmed before its prefix is removed, not after. *)
Lemma isSenderAllowed_prefixed_leading_space :
  isSenderAllowed " u1" ["user" +:+ ":" +:+ " u1"] = false.
Proof. reflexivity. Qed.

(** C7, amended. For every sender id that does not start with white space
    and every recognized prefix (feishu, lark, user, open_id, in any letter
    case), the allow-list that holds the id with the prefix and a colon
    prepended allows the sender. *)
Theorem isSenderAllowed_prefixed (senderId prefix : string) :
  Js.toLowerCase prefix ∈ allowEntryKinds →
  Js.trimStart senderId = senderId →
  isSenderAllowed senderId [prefix +:+ ":" +:+ senderId] = true.
Proof.
  intros Hkind Hid.
  destruct (kind_starts_with_letter prefix Hkind) as (c & rest & -> & Hc).
  unfold isSenderAllowed. case_bool_decide; [done|].
  cbn [existsb]. rewrite orb_false_r, normalizeUserId_Some.
  assert (Js.trim (String c rest +:+ ":" +:+ senderId)
          = String c rest +:+ ":" +:+ Js.trimEnd senderId) as ->.
  { unfold Js.trim. change (String c rest +:+ ":" +:+ senderId)
      with (String c (rest +:+ ":" +:+ senderId)).
    rewrite trimStart_char by done.
    change (String c (rest +:+ ":" +:+ senderId))
      with (String c rest +:+ String ":" senderId).
    by rewrite trimEnd_app_char. }
  rewrite !toLowerCase_app.
  change (Js.toLowerCase ":") with ":".
  unfold Js.trim. rewrite Hid.
  rewrite (replacePrefixCI_kind _ _ Hkind).
  rewrite (bool_decide_eq_true_2 (Js.toLowerCase (Js.trimEnd senderId) = _)) by done.
  simpl. by repeat case_match.
Qed.

Lemma isSenderAllowed_prefixed_witness :
  Js.toLowerCase "Open_ID" ∈ allowEntryKinds ∧ Js.trimStart "OU_a1 " = "OU_a1 " ∧
  isSenderAllowed "OU_a1 " ["Open_ID" +:+ ":" +:+ "OU_a1 "] = true.
Proof.
  assert (Js.toLowerCase "Open_ID" ∈ allowEntryKinds) as Hkind.
  { do 3 apply list_elem_of_further. apply list_elem_of_here. }
  split; [exact Hkind|]. split; [reflexivity|].
  exact (isSenderAllowed_prefixed "OU_a1 " "Open_ID" Hkind eq_refl).
Defined.

(** ** Mention extractor *)

(** C9. [extractMentionInfo] returns [hasAnyMention] equal to
    [canDetectMention] on every input, and both are true exactly when the
    structured mention list is non-empty or the raw content contains the
    inline marker ["<at "]. *)
Theorem extractMentionInfo_hasAny_eq_canDetect (mentions : option (list MentionEntry))
    (rawContent : string) (botOpenId botUserId botName : option string) :
  let info := extractMentionInfo mentions rawContent botOpenId botUserId botName in
  hasAnyMention info = canDetectMention info ∧
  (canDetectMention info = true ↔
     default [] mentions ≠ [] ∨ ∃ pre post, rawContent = pre +:+ "<at " +:+ post).
Proof.
  simpl. split; [reflexivity|].
  rewrite orb_true_iff, includes_spec.
  destruct (default [] mentions) as [|m l]; simpl; split;
    intros [H|H]; try done; eauto.
Qed.

(** ** Running the pipeline *)

(** Membership in a list that is written out. *)
Ltac in_list := repeat first [apply list_elem_of_here | apply list_elem_of_further].

Ltac run_unfold :=
  unfold mbind, Run_bind, mret, Run_ret, when, return_, throw, call, try_catch,
         logVerbose in *.

Lemma bind_Next {A B} (m : Run A) (f : A → Run B) w a w' :
  m w = (Next a, w') → (m ≫= f) w = f a w'.
Proof. intros H. unfold mbind, Run_bind. by rewrite H. Qed.

Lemma bind_Return {A B} (m : Run A) (f : A → Run B) w x w' :
  m w = (Return x, w') → (m ≫= f) w = (Return x, w').
Proof. intros H. unfold mbind, Run_bind. by rewrite H. Qed.

Lemma bind_Throw {A B} (m : Run A) (f : A → Run B) w e w' :
  m w = (Throw e, w') → (m ≫= f) w = (Throw e, w').
Proof. intros H. unfold mbind, Run_bind. by rewrite H. Qed.

Example pipeline_dm_open :
  logged (calls (processMessageWithPipeline sampleCore
     (sampleEvent "p2p" "oc_dm" "ou_u1" "status")
     (with_dm (Some (dm_with_policy DmOpen None)) sampleAccount) sampleConfig
     emptyWorld).2) = [] ∧
  Body <$> dispatched (calls (processMessageWithPipeline sampleCore
     (sampleEvent "p2p" "oc_dm" "ou_u1" "status")
     (with_dm (Some (dm_with_policy DmOpen None)) sampleAccount) sampleConfig
     emptyWorld).2) = ["ou_u1: status"].
Proof. vm_compute. done. Qed.

Example pipeline_group_open_plain_text :
  (processMessageWithPipeline sampleCore (sampleEvent "group" "oc_team" "ou_u1" "hello")
     (with_groupPolicy (Some GroupOpen) sampleAccount) sampleConfig emptyWorld).1
  = Next tt.
Proof. vm_compute. reflexivity. Qed.

(** ** Mention gate *)

Lemma mentionGateBlock_skip core account cfg i groupEntry commandAuthorized w :
  (mentionGateBlock core account cfg i groupEntry commandAuthorized w).1
    = Return ExitMentionRequired
  ↔ shouldSkip (resolveMentionGatingWithBypass
       (mentionGateParams core account cfg i groupEntry commandAuthorized)) = true.
Proof.
  unfold mentionGateBlock. run_unfold.
  destruct (shouldSkip _); simpl; [|done].
  by destruct (shouldLogVerbose core), (runtime_log core).
Qed.

(** C2. In a group conversation with [requireMention = true],
    [wasMentioned = false] and no authorized control-command bypass, the
    mention gate skips the message if and only if [canDetectMention = true]:
    it never skips an undetectable payload, and it skips a detectable one. *)
Theorem mention_gate_skips_iff_detectable (core : FeishuCoreRuntime)
    (account : ResolvedFeishuAccount) (cfg : OpenClawConfig.t) (i : Inbound)
    (groupEntry : option GroupEntry.t) (commandAuthorized : option bool) (w : World) :
  let p := mentionGateParams core account cfg i groupEntry commandAuthorized in
  gate_requireMention p = true →
  gate_wasMentioned p = false →
  gate_hasControlCommand p && gate_commandAuthorized p && gate_allowTextCommands p
    = false →
  shouldSkip (resolveMentionGatingWithBypass p) = gate_canDetectMention p ∧
  ((mentionGateBlock core account cfg i groupEntry commandAuthorized w).1
     = Return ExitMentionRequired ↔ gate_canDetectMention p = true).
Proof.
  intros p Hreq Hwas Hbypass.
  assert (shouldSkip (resolveMentionGatingWithBypass p) = gate_canDetectMention p) as Hskip.
  { unfold resolveMentionGatingWithBypass. rewrite Hreq, Hwas, Hbypass.
    by destruct (gate_canDetectMention p). }
  split; [exact Hskip|]. by rewrite mentionGateBlock_skip, <- Hskip.
Qed.

Lemma mention_gate_skips_iff_detectable_witness :
  let p := mentionGateParams sampleCore sampleAccount sampleConfig sampleInbound None
             (Some false) in
  gate_requireMention p = true ∧ gate_wasMentioned p = false ∧
  gate_hasControlCommand p && gate_commandAuthorized p && gate_allowTextCommands p
    = false ∧
  shouldSkip (resolveMentionGatingWithBypass p) = true.
Proof.
  intros p. split; [reflexivity|]. split; [reflexivity|]. split; [reflexivity|].
  exact (eq_trans
           (proj1 (mention_gate_skips_iff_detectable sampleCore sampleAccount
                     sampleConfig sampleInbound None (Some false) emptyWorld
                     eq_refl eq_refl eq_refl))
           eq_refl).
Defined.

(** ** Command authorization *)

Lemma resolveCommandAuthorized_single useAccessGroups senderId allowFrom :
  resolveCommandAuthorizedFromAuthorizers useAccessGroups
    [ {| authorizer_configured := (0 <? length allowFrom)%nat;
         authorizer_allowed := isSenderAllowed senderId allowFrom |} ]
  = negb useAccessGroups || isSenderAllowed senderId allowFrom.
Proof.
  unfold resolveCommandAuthorizedFromAuthorizers. simpl. rewrite orb_false_r.
  destruct (isSenderAllowed senderId allowFrom) eqn:E; [|by rewrite andb_false_r].
  by rewrite (isSenderAllowed_true_nonempty _ _ E).
Qed.

(** C5. The command authorization is [undefined] exactly when the
    should-compute predicate over the raw body and the global config is
    false; otherwise it is the boolean that is true iff [useAccessGroups] is
    false or the sender matched the applicable allow-list: the member list of
    the group in a group conversation, the configured [allowFrom] followed
    by the entries of the pairing store in a direct one. *)
Theorem commandAuthorized_spec (core : FeishuCoreRuntime)
    (account : ResolvedFeishuAccount) (cfg : OpenClawConfig.t) (isGroup : bool)
    (senderId rawBody : string) (groupUsers : list AllowFromEntry) (w : World) :
  let useAccessGroups :=
    negb (bool_decide (OpenClawConfig.useAccessGroups cfg = Some false)) in
  let configAllowFrom :=
    String_of <$> default [] (AccountConfig.dm (config account) ≫= DmConfig.allowFrom) in
  let storeAllowFrom := default [] (readAllowFromStore core "feishu") in
  let applicable : list string :=
    if isGroup then String_of <$> groupUsers
    else (configAllowFrom ++ storeAllowFrom)%list in
  ∃ auth w',
    resolveCommandAuth core account cfg isGroup senderId rawBody groupUsers w
      = (Next auth, w') ∧
    (commandAuthorized auth = None ↔
       shouldComputeCommandAuthorized core rawBody cfg = false) ∧
    (shouldComputeCommandAuthorized core rawBody cfg = true →
       commandAuthorized auth
         = Some (negb useAccessGroups || isSenderAllowed senderId applicable)).
Proof.
  intros uag configAllowFrom storeAllowFrom applicable.
  unfold resolveCommandAuth, readAllowFromStore_or_empty. run_unfold.
  destruct (shouldComputeCommandAuthorized core rawBody cfg) eqn:Hsc.
  - rewrite orb_true_r.
    destruct isGroup; simpl; eexists _, _; (split; [reflexivity|]); simpl;
      (split; [done|]); intros _; f_equal; apply resolveCommandAuthorized_single.
  - rewrite orb_false_r.
    destruct (negb isGroup && _); simpl; eexists _, _; (split; [reflexivity|]);
      simpl; done.
Qed.

Lemma commandAuthorized_spec_witness :
  shouldComputeCommandAuthorized sampleCore "status" sampleConfig = true ∧
  ∃ auth w',
    resolveCommandAuth sampleCore sampleAccount sampleConfig false "ou_u1" "status" []
      emptyWorld = (Next auth, w') ∧
    commandAuthorized auth = Some false.
Proof.
  split; [reflexivity|].
  destruct (commandAuthorized_spec sampleCore sampleAccount sampleConfig false
              "ou_u1" "status" [] emptyWorld) as (auth & w' & Hrun & _ & Hsome).
  exists auth, w'. split; [exact Hrun|]. exact (Hsome eq_refl).
Defined.

(** ** Defaults *)

Lemma with_groupPolicy_same core event account cfg :
  processMessageWithPipeline core event
    (with_groupPolicy (Some (groupPolicyOf account cfg)) account) cfg
  = processMessageWithPipeline core event account cfg.
Proof. by destruct account as [aid []]. Qed.

Lemma with_dm_policy_same core event account cfg :
  processMessageWithPipeline core event
    (with_dm (Some (dm_with_policy (dmPolicyOf account)
                      (AccountConfig.dm (config account)))) account) cfg
  = processMessageWithPipeline core event account cfg.
Proof. by destruct account as [aid [? ? ? ? ? ? ? [[]|] ?]]. Qed.

Lemma with_requireMention_same core event account cfg :
  processMessageWithPipeline core event
    (with_requireMention
       (Some (default true (AccountConfig.requireMention (config account)))) account) cfg
  = processMessageWithPipeline core event account cfg.
Proof. by destruct account as [aid [? ? ? ? [] ? ? ? ?]]. Qed.

(** ** The first block and the group gate *)

Lemma onlyLogsAdded_refl w : onlyLogsAdded w w.
Proof. split; [done|]. exists []. simpl. by rewrite app_nil_r. Qed.

Lemma logVerbose_next core msg w :
  ∃ w', logVerbose core msg w = (Next tt, w') ∧ onlyLogsAdded w w'.
Proof.
  unfold logVerbose. run_unfold.
  destruct (shouldLogVerbose core), (runtime_log core); eexists; (split; [reflexivity|]);
    try apply onlyLogsAdded_refl.
  split; [done|]. by exists [("[feishu] " +:+ msg)].
Qed.

(** A block that logs one line and returns. *)
Lemma log_and_return {A} core msg x w :
  ∃ w', (logVerbose core msg;; @return_ A x) w = (Return x, w') ∧ onlyLogsAdded w w'.
Proof.
  destruct (logVerbose_next core msg w) as (w' & Hlog & Hw').
  exists w'. split; [|done].
  unfold mbind, Run_bind at 1. by rewrite Hlog.
Qed.

(** The first block never throws and makes no call on the way through. *)
Lemma readEvent_cases core event account w :
  (∃ i m, readEvent core event account w = (Next i, w) ∧
          message event = Some m ∧ in_message i = m ∧
          isGroup i = isGroupChat (chat_type m)) ∨
  (∃ x w', readEvent core event account w = (Return x, w') ∧
           x ∈ [ExitNoMessage; ExitNoChatId; ExitBotAuthored; ExitEmptyBody] ∧
           onlyLogsAdded w w').
Proof.
  unfold readEvent. destruct (message event) as [m|]; cycle 1.
  { right. exists ExitNoMessage, w. repeat split; [in_list | apply onlyLogsAdded_refl]. }
  destruct (negb (Js.truthy (default "" (Js.trim <$> chat_id m)))).
  { right. exists ExitNoChatId, w. repeat split; [in_list | apply onlyLogsAdded_refl]. }
  set (botType := bool_decide (_ = Some "bot")).
  set (botId := Js.truthy _ && bool_decide (Some _ = _)).
  set (emptyBody := negb (Js.truthy (Js.trim _))).
  destruct (negb (bool_decide (AccountConfig.allowBots (config account) = Some true)));
    [destruct botType; [|destruct botId]|].
  - right.
    destruct (log_and_return (A:=unit) core
                ("skip bot-authored message ("
                   +:+ Js.or_else (resolveSenderId (sender event)) "unknown" +:+ ")")
                ExitBotAuthored w) as (w' & Hrun & Hw').
    exists ExitBotAuthored, w'. split; [|split; [in_list|done]].
    unfold when at 1. unfold when at 1. unfold when at 1.
    unfold mbind at 1 2, Run_bind at 1 2. by rewrite Hrun.
  - right.
    destruct (log_and_return (A:=unit) core "skip bot-authored message (bot open_id)"
                ExitBotAuthored w) as (w' & Hrun & Hw').
    exists ExitBotAuthored, w'. split; [|split; [in_list|done]].
    unfold when at 1. unfold when at 1. unfold when at 1.
    unfold mbind at 1 2, Run_bind at 1 2. unfold mret at 1, Run_ret at 1.
    by rewrite Hrun.
  - destruct emptyBody.
    + right. exists ExitEmptyBody, w.
      repeat split; [in_list | apply onlyLogsAdded_refl].
    + left. eexists _, m. repeat split.
  - destruct emptyBody.
    + right. exists ExitEmptyBody, w.
      repeat split; [in_list | apply onlyLogsAdded_refl].
    + left. eexists _, m. repeat split.
Qed.

Lemma resolveGroupConfig_unconfigured groupId groupName groups :
  allowlistConfigured (resolveGroupConfig groupId groupName groups) = false
  ↔ default ∅ groups = ∅.
Proof.
  unfold resolveGroupConfig. rewrite length_fmap.
  case_bool_decide as Hlen; simpl.
  - split; [intros _|done].
    by apply map_to_list_empty_iff, nil_length_inv.
  - split; [done|]. intros Hempty. destruct Hlen.
    by rewrite Hempty, map_to_list_empty.
Qed.

(** An empty group map resolves exactly as an absent one. *)
Lemma resolveGroupConfig_empty_map groupId groupName :
  resolveGroupConfig groupId groupName (Some ∅) = resolveGroupConfig groupId groupName None.
Proof. reflexivity. Qed.

Lemma groupGate_no_allowlist core account chatId senderId cfgResolved w :
  allowlistConfigured cfgResolved = false →
  ∃ w', groupGate core account chatId senderId GroupAllowlist cfgResolved w
          = (Return ExitNoAllowlist, w') ∧ onlyLogsAdded w w'.
Proof.
  intros Hnone. unfold groupGate. rewrite Hnone.
  destruct (log_and_return (A:=unit) core
              ("drop group message (groupPolicy=allowlist, no allowlist, chat="
                 +:+ chatId +:+ ")") ExitNoAllowlist w) as (w' & Hrun & Hw').
  exists w'. split; [|done].
  change (bool_decide (GroupAllowlist = GroupDisabled)) with false.
  change (bool_decide (GroupAllowlist = GroupAllowlist)) with true.
  rewrite (bind_Next _ _ w tt w) by reflexivity.
  apply bind_Return. unfold when at 1. apply bind_Return. exact Hrun.
Qed.

(** C1 fails as stated: a group map that is configured but empty is not
    told apart from no group map; both count as "no allow-list configured"
    and are rejected with the same log line. *)
Lemma empty_group_map_counts_as_unconfigured :
  let event := sampleEvent "group" "oc_team" "ou_u1" "hello" in
  let rejected :=
    (Return ExitNoAllowlist,
     {| calls :=
          [CallLog
             "[feishu] drop group message (groupPolicy=allowlist, no allowlist, chat=oc_team)"];
        pairingRequests := ∅ |}) in
  allowlistConfigured (resolveGroupConfig "oc_team" None (Some ∅)) = false ∧
  processMessageWithPipeline sampleCore event (with_groups (Some ∅) sampleAccount)
    sampleConfig emptyWorld = rejected ∧
  processMessageWithPipeline sampleCore event (with_groups None sampleAccount)
    sampleConfig emptyWorld = rejected.
Proof. vm_compute. done. Qed.

(** C1, amended. For every group-conversation event processed under
    [groupPolicy = allowlist], if the group map of the account is absent or
    has no entries, the event is rejected, at the latest by the allow-list
    check and with nothing but log lines written; an absent and an empty
    group map both count as "no group allow-list configured", and only a
    map with at least one entry counts as configured. *)
Theorem group_allowlist_without_group_map (core : FeishuCoreRuntime)
    (event : FeishuMessageEvent) (account : ResolvedFeishuAccount)
    (cfg : OpenClawConfig.t) (w : World) :
  (∀ groupId groupName,
     allowlistConfigured
       (resolveGroupConfig groupId groupName (AccountConfig.groups (config account)))
       = false
     ↔ AccountConfig.groups (config account) = None ∨
       AccountConfig.groups (config account) = Some ∅) ∧
  (groupPolicyOf account cfg = GroupAllowlist →
   AccountConfig.groups (config account) = None ∨
   AccountConfig.groups (config account) = Some ∅ →
   (∀ m, message event = Some m → isGroupChat (chat_type m) = true) →
   ∃ x w',
     processMessageWithPipeline core event account cfg w = (Return x, w') ∧
     x ∈ [ExitNoMessage; ExitNoChatId; ExitBotAuthored; ExitEmptyBody; ExitNoAllowlist] ∧
     onlyLogsAdded w w').
Proof.
  assert (∀ g : option (gmap string GroupEntry.t),
            default ∅ g = ∅ ↔ g = None ∨ g = Some ∅) as Hdefault.
  { intros [g|]; simpl; split.
    - intros ->. by right.
    - by intros [|[= ->]].
    - by left.
    - done. }
  split.
  { intros groupId groupName. by rewrite resolveGroupConfig_unconfigured, Hdefault. }
  intros Hpolicy Hgroups Hgroup.
  unfold processMessageWithPipeline.
  destruct (readEvent_cases core event account w)
    as [(i & m & Hread & Hm & _ & Hi) | (x & w' & Hread & Hx & Hw')].
  - rewrite (Hgroup m Hm) in Hi.
    destruct (groupGate_no_allowlist core account (chatId i) (senderId i)
                (resolveGroupConfig (chatId i) None (AccountConfig.groups (config account)))
                w) as (w' & Hgate & Hw').
    { by apply resolveGroupConfig_unconfigured, Hdefault. }
    exists ExitNoAllowlist, w'. split; [|split; [in_list|done]].
    rewrite (bind_Next _ _ _ _ _ Hread). cbv zeta. rewrite Hpolicy, Hi.
    apply bind_Return. exact Hgate.
  - exists x, w'. split; [by apply bind_Return|]. split; [|done].
    revert Hx. rewrite !elem_of_cons, !elem_of_nil. tauto.
Qed.

Lemma group_allowlist_without_group_map_witness :
  let event := sampleEvent "group" "oc_team" "ou_u1" "hello" in
  groupPolicyOf sampleAccount sampleConfig = GroupAllowlist ∧
  AccountConfig.groups (config sampleAccount) = None ∧
  (∀ m, message event = Some m → isGroupChat (chat_type m) = true) ∧
  ∃ x w',
    processMessageWithPipeline sampleCore event sampleAccount sampleConfig emptyWorld
      = (Return x, w') ∧
    x ∈ [ExitNoMessage; ExitNoChatId; ExitBotAuthored; ExitEmptyBody; ExitNoAllowlist] ∧
    onlyLogsAdded emptyWorld w'.
Proof.
  intros event.
  assert (∀ m, message event = Some m → isGroupChat (chat_type m) = true) as Hgroup.
  { intros m [= <-]. reflexivity. }
  split; [reflexivity|]. split; [reflexivity|]. split; [exact Hgroup|].
  exact (proj2 (group_allowlist_without_group_map sampleCore event sampleAccount
                  sampleConfig emptyWorld) eq_refl (or_introl eq_refl) Hgroup).
Defined.

(** ** Runs that do not depend on the world *)

Lemma addCalls_nil w : addCalls w [] = w.
Proof. destruct w. unfold addCalls. simpl. by rewrite app_nil_r. Qed.

Lemma addCalls_app w l1 l2 : addCalls (addCalls w l1) l2 = addCalls w (l1 ++ l2).
Proof. unfold addCalls. simpl. by rewrite app_assoc. Qed.

Lemma runs_ret {A} (a : A) : runs (mret a) (Next a) [].
Proof. intros w. by rewrite addCalls_nil. Qed.

Lemma runs_throw {A} e : runs (@throw A e) (Throw e) [].
Proof. intros w. by rewrite addCalls_nil. Qed.

Lemma runs_return {A} x : runs (@return_ A x) (Return x) [].
Proof. intros w. by rewrite addCalls_nil. Qed.

Lemma runs_call c : runs (call c) (Next tt) [c].
Proof. by intros w. Qed.

Lemma runs_bind {A B} (m : Run A) (f : A → Run B) a l1 r l2 :
  runs m (Next a) l1 → runs (f a) r l2 → runs (m ≫= f) r (l1 ++ l2).
Proof.
  intros Hm Hf w. rewrite (bind_Next _ _ _ _ _ (Hm w)), Hf. by rewrite addCalls_app.
Qed.

Lemma runs_bind_throw {A B} (m : Run A) (f : A → Run B) e l :
  runs m (Throw e) l → runs (m ≫= f) (Throw e) l.
Proof. intros Hm w. by rewrite (bind_Throw _ _ _ _ _ (Hm w)). Qed.

Lemma runs_try_next {A} (body : Run A) handler a l :
  runs body (Next a) l → runs (try_catch body handler) (Next a) l.
Proof. intros Hb w. unfold try_catch. by rewrite Hb. Qed.

Lemma runs_try_throw {A} (body : Run A) handler e l1 r l2 :
  runs body (Throw e) l1 → runs (handler e) r l2 →
  runs (try_catch body handler) r (l1 ++ l2).
Proof.
  intros Hb Hh w. unfold try_catch. rewrite Hb, Hh. by rewrite addCalls_app.
Qed.

(** The line that [logVerbose] writes, if it writes. *)
Lemma runs_logVerbose core msg :
  runs (logVerbose core msg) (Next tt)
       (if shouldLogVerbose core && runtime_log core
        then [CallLog ("[feishu] " +:+ msg)] else []).
Proof.
  unfold logVerbose.
  destruct (shouldLogVerbose core), (runtime_log core); simpl;
    first [apply runs_call | apply (runs_ret tt)].
Qed.

Lemma runs_statusSink core :
  runs (when (statusSink core) (call (CallStatusSink (Date_now core)))) (Next tt)
       (if statusSink core then [CallStatusSink (Date_now core)] else []).
Proof. destruct (statusSink core); simpl; [apply runs_call | apply (runs_ret tt)]. Qed.

(** [sendFeishuText] either throws before the request, or makes the one
    request and ends as the request does. *)
Lemma runs_sendFeishuText core account to text :
  ∃ r new,
    runs (sendFeishuText core account to text) r new ∧
    (r = Next tt ∨ ∃ e, r = Throw e) ∧
    (new = [] ∨ ∃ target tenantKey, new = [CallMessageCreate target text tenantKey]).
Proof.
  unfold sendFeishuText.
  destruct (resolveReceiveTarget to) as [target|];
    [|eexists _, _; split; [apply runs_throw | eauto]].
  destruct (negb (Js.truthy (receiveId target)));
    [eexists _, _; split; [apply runs_throw | eauto]|].
  assert (∀ tenantKey, ∃ r,
            runs (messageCreate core target text tenantKey) r
                 [CallMessageCreate target text tenantKey] ∧
            (r = Next tt ∨ ∃ e, r = Throw e)) as Hcreate.
  { intros tenantKey. unfold messageCreate.
    destruct (messageCreateError core target text) as [msg|].
    - exists (Throw (Error msg)). split; [|eauto].
      apply (runs_bind _ _ tt [_] _ [] (runs_call _) (runs_throw _)).
    - exists (Next tt). split; [|eauto].
      apply (runs_bind _ _ tt [_] _ [] (runs_call _) (runs_ret tt)). }
  destruct (Js.truthy _ && lark_withTenantKey core);
    edestruct Hcreate as (r & Hr & Hcases); exists r; eexists; eauto 6.
Qed.

(** ** DM gate *)

(** Lines 529-543: the log line, the pairing reply and its [catch]. *)
Lemma runs_pairing_reply core account sid code :
  let reply :=
    buildPairingReply core "feishu" ("Your Feishu user id: " +:+ sid) code in
  ∃ new,
    runs (logVerbose core ("feishu pairing request sender=" +:+ sid);;
          try_catch
            (sendFeishuText core account ("open_id:" +:+ sid) reply;;
             when (statusSink core) (call (CallStatusSink (Date_now core))))
            (fun err =>
               logVerbose core
                 ("pairing reply failed for " +:+ sid +:+ ": " +:+ String_of_error err)))
         (Next tt) new ∧
    upserts new = [] ∧ dispatched new = [] ∧
    (length (messagesCreated new) ≤ 1)%nat ∧
    (∀ e w0,
       (sendFeishuText core account ("open_id:" +:+ sid) reply w0).1 = Throw e →
       shouldLogVerbose core = true → runtime_log core = true →
       "[feishu] " +:+ "pairing reply failed for " +:+ sid +:+ ": " +:+ String_of_error e
         ∈ logged new).
Proof.
  intros reply.
  destruct (runs_sendFeishuText core account ("open_id:" +:+ sid) reply)
    as (r & ns & Hsend & [-> | [e ->]] & Hns).
  - eexists. split; [|split; [|split; [|split]]].
    + eapply runs_bind; [apply runs_logVerbose|].
      apply runs_try_next. eapply runs_bind; [exact Hsend | apply runs_statusSink].
    + unfold upserts. rewrite !omap_app.
      destruct (_ && _), (statusSink core), Hns as [-> | (? & ? & ->)]; reflexivity.
    + unfold dispatched. rewrite !omap_app.
      destruct (_ && _), (statusSink core), Hns as [-> | (? & ? & ->)]; reflexivity.
    + unfold messagesCreated. rewrite !omap_app.
      destruct (_ && _), (statusSink core), Hns as [-> | (? & ? & ->)]; simpl; lia.
    + intros e w0 Hthrow. by rewrite (Hsend w0) in Hthrow.
  - eexists. split; [|split; [|split; [|split]]].
    + eapply runs_bind; [apply runs_logVerbose|].
      eapply runs_try_throw; [apply runs_bind_throw; exact Hsend|].
      apply runs_logVerbose.
    + unfold upserts. rewrite !omap_app.
      destruct (_ && _), Hns as [-> | (? & ? & ->)]; reflexivity.
    + unfold dispatched. rewrite !omap_app.
      destruct (_ && _), Hns as [-> | (? & ? & ->)]; reflexivity.
    + unfold messagesCreated. rewrite !omap_app.
      destruct (_ && _), Hns as [-> | (? & ? & ->)]; simpl; lia.
    + intros e' w0 Hthrow Hverbose Hlog. rewrite (Hsend w0) in Hthrow.
      injection Hthrow as <-. rewrite Hverbose, Hlog.
      unfold logged. rewrite !omap_app, !elem_of_app. right. right. in_list.
Qed.

Lemma dmGate_open core account sid auth w :
  dmPolicy auth = DmOpen →
  AccountConfig.dm (config account) ≫= DmConfig.enabled ≠ Some false →
  dmGate core account sid auth w = (Next tt, w).
Proof.
  intros Hpolicy Henabled. unfold dmGate. rewrite Hpolicy.
  change (bool_decide (DmOpen = DmDisabled)) with false.
  change (bool_decide (DmOpen = DmOpen)) with true.
  by rewrite (bool_decide_eq_false_2 _ Henabled).
Qed.

Lemma dmGate_pairing core account sid auth w :
  dmPolicy auth = DmPairing →
  AccountConfig.dm (config account) ≫= DmConfig.enabled ≠ Some false →
  senderAllowedForCommands auth = false →
  let key := ("feishu", sid) in
  let code := newPairingCode core "feishu" sid in
  let reply :=
    buildPairingReply core "feishu" ("Your Feishu user id: " +:+ sid) code in
  ∃ new requests,
    dmGate core account sid auth w
      = (Return ExitDmUnauthorized,
         {| calls := (calls w ++ new)%list; pairingRequests := requests |}) ∧
    upserts new = [key] ∧ dispatched new = [] ∧
    (length (messagesCreated new) ≤ 1)%nat ∧
    (is_Some (pairingRequests w !! key) →
       messagesCreated new = [] ∧ requests = pairingRequests w) ∧
    (pairingRequests w !! key = None → requests = <[key := code]> (pairingRequests w)) ∧
    (∀ e w0,
       pairingRequests w !! key = None →
       (sendFeishuText core account ("open_id:" +:+ sid) reply w0).1 = Throw e →
       shouldLogVerbose core = true → runtime_log core = true →
       "[feishu] " +:+ "pairing reply failed for " +:+ sid +:+ ": " +:+ String_of_error e
         ∈ logged new).
Proof.
  intros Hpolicy Henabled Hallowed key code reply.
  unfold dmGate. rewrite Hpolicy, Hallowed.
  change (bool_decide (DmPairing = DmDisabled)) with false.
  change (bool_decide (DmPairing = DmOpen)) with false.
  change (bool_decide (DmPairing = DmPairing)) with true.
  rewrite (bool_decide_eq_false_2 _ Henabled).
  rewrite (bind_Next _ _ w tt w) by reflexivity.
  unfold when at 1. unfold when at 1. change (negb false) with true. cbv iota.
  destruct (pairingRequests w !! key) as [c|] eqn:Hlookup.
  - exists [CallUpsertPairingRequest "feishu" sid], (pairingRequests w).
    split; [|repeat split; try done; simpl; lia].
    rewrite (bind_Next _ _ w tt (addCalls w [CallUpsertPairingRequest "feishu" sid]));
      [done|].
    rewrite (bind_Next _ _ w {| code := c; created := false |}
               (addCalls w [CallUpsertPairingRequest "feishu" sid])); [done|].
    unfold upsertPairingRequest.
    rewrite (bind_Next _ _ w tt (addCalls w [CallUpsertPairingRequest "feishu" sid]))
      by reflexivity.
    unfold pairingStoreUpsert. simpl. fold key. by rewrite Hlookup.
  - destruct (runs_pairing_reply core account sid code)
      as (nb & Hruns & Hups & Hdisp & Hmsgs & Hfail).
    set (w1 := {| calls := (calls w ++ [CallUpsertPairingRequest "feishu" sid])%list;
                  pairingRequests := <[key := code]> (pairingRequests w) |}).
    exists (CallUpsertPairingRequest "feishu" sid :: nb),
           (<[key := code]> (pairingRequests w)).
    split; [|split; [|split; [|split; [|split; [|split]]]]].
    + rewrite (bind_Next _ _ w tt (addCalls w1 nb)).
      { unfold return_, addCalls, w1. simpl. by rewrite <- app_assoc. }
      rewrite (bind_Next _ _ w {| code := code; created := true |} w1).
      { apply Hruns. }
      unfold upsertPairingRequest.
      rewrite (bind_Next _ _ w tt (addCalls w [CallUpsertPairingRequest "feishu" sid]))
        by reflexivity.
      unfold pairingStoreUpsert. simpl. fold key. by rewrite Hlookup.
    + change (upserts (CallUpsertPairingRequest "feishu" sid :: nb))
        with (key :: upserts nb). by rewrite Hups.
    + exact Hdisp.
    + exact Hmsgs.
    + by intros [? ?].
    + done.
    + intros e w0 _ Hthrow Hverbose Hlog.
      change (logged (CallUpsertPairingRequest "feishu" sid :: nb)) with (logged nb).
      by apply Hfail with w0.
Qed.

Ltac when_reduce :=
  repeat match goal with
         | |- context [when true ?b] => change (when true b) with b
         | |- context [when false ?b] => change (when false b) with (mret tt : Run unit)
         end.

Lemma runs_bind_return {A B} (m : Run A) (f : A → Run B) x l :
  runs m (Return x) l → runs (m ≫= f) (Return x) l.
Proof. intros Hm w. by rewrite (bind_Return _ _ _ _ _ (Hm w)). Qed.

Lemma runs_log_and_return {A} core msg x :
  runs (logVerbose core msg;; @return_ A x) (Return x)
       (if shouldLogVerbose core && runtime_log core
        then [CallLog ("[feishu] " +:+ msg)] else []).
Proof.
  intros w. by rewrite (bind_Next _ _ _ _ _ (runs_logVerbose core msg w)).
Qed.

(** The first block ends the same way in every world. *)
Lemma readEvent_runs core event account :
  (∃ i, runs (readEvent core event account) (Next i) []) ∨
  (∃ x new, runs (readEvent core event account) (Return x) new).
Proof.
  unfold readEvent. destruct (message event) as [m|];
    [|right; eexists _, _; apply runs_return].
  destruct (negb (Js.truthy (default "" (Js.trim <$> chat_id m))));
    [right; eexists _, _; apply runs_return|].
  set (botType := bool_decide (_ = Some "bot")).
  set (botId := Js.truthy _ && bool_decide (Some _ = _)).
  set (emptyBody := negb (Js.truthy (Js.trim _))).
  destruct (negb (bool_decide (AccountConfig.allowBots (config account) = Some true)));
    [destruct botType; [|destruct botId]|].
  - right. eexists _, _. when_reduce.
    do 2 apply runs_bind_return. apply runs_log_and_return.
  - right. eexists _, _. when_reduce.
    apply runs_bind_return.
    eapply (runs_bind _ _ tt []); [apply (runs_ret tt) | apply runs_log_and_return].
  - destruct emptyBody; when_reduce.
    + right. eexists _, _.
      eapply (runs_bind _ _ tt [] _ []); [|apply runs_return].
      eapply (runs_bind _ _ tt [] _ []); apply (runs_ret tt).
    + left. eexists.
      eapply (runs_bind _ _ tt [] _ []); [|apply runs_ret].
      eapply (runs_bind _ _ tt [] _ []); apply (runs_ret tt).
  - destruct emptyBody; when_reduce.
    + right. eexists _, _.
      eapply (runs_bind _ _ tt [] _ []); [apply (runs_ret tt) | apply runs_return].
    + left. eexists.
      eapply (runs_bind _ _ tt [] _ []); [apply (runs_ret tt) | apply runs_ret].
Qed.

Lemma readEvent_Next core event account w i :
  (readEvent core event account w).1 = Next i →
  ∀ w', readEvent core event account w' = (Next i, w').
Proof.
  intros Hnext w'.
  destruct (readEvent_runs core event account) as [(i' & Hruns) | (x & new & Hruns)];
    rewrite (Hruns w) in Hnext; [|done].
  injection Hnext as <-. by rewrite (Hruns w'), addCalls_nil.
Qed.

Lemma pipeline_direct core event account cfg w i :
  readEvent core event account w = (Next i, w) →
  isGroup i = false →
  processMessageWithPipeline core event account cfg w
  = (auth ← resolveCommandAuth core account cfg false (senderId i) (rawBody i)
              (groupUsersOf (entry (resolveGroupConfig (chatId i) None
                                      (AccountConfig.groups (config account)))));
     dmGate core account (senderId i) auth;;
     let '(route, storePath, ctxPayload) :=
       buildContext core event account cfg i
         (entry (resolveGroupConfig (chatId i) None
                   (AccountConfig.groups (config account))))
         None (commandAuthorized auth) in
     dispatch core route storePath ctxPayload) w.
Proof.
  intros Hread Hi. unfold processMessageWithPipeline.
  rewrite (bind_Next _ _ _ _ _ Hread). cbv zeta.
  destruct i as [m chat g sid rc rb]. simpl in Hi. subst g.
  reflexivity.
Qed.

Lemma resolveCommandAuth_direct core account cfg sid body groupUsers :
  ∃ auth new,
    runs (resolveCommandAuth core account cfg false sid body groupUsers)
         (Next auth) new ∧
    dmPolicy auth = dmPolicyOf account ∧
    upserts new = [] ∧ dispatched new = [] ∧ messagesCreated new = [] ∧
    (dmPolicyOf account ≠ DmOpen →
     senderAllowedForCommands auth
       = isSenderAllowed sid
           ((String_of <$> default [] (AccountConfig.dm (config account)
                                         ≫= DmConfig.allowFrom))
              ++ default [] (readAllowFromStore core "feishu"))%list).
Proof.
  unfold resolveCommandAuth, readAllowFromStore_or_empty.
  destruct (decide (dmPolicyOf account = DmOpen)) as [Hopen|Hopen].
  - rewrite Hopen. change (bool_decide (DmOpen = DmOpen)) with true.
    destruct (shouldComputeCommandAuthorized core body cfg); simpl; eexists _, _.
    + split.
      { eapply (runs_bind _ _ _ _ _ []); [|apply runs_ret].
        eapply (runs_bind _ _ tt _ _ []); [apply runs_call | apply runs_ret]. }
      by repeat split.
    + split.
      { eapply (runs_bind _ _ _ [] _ []); apply runs_ret. }
      by repeat split.
  - rewrite (bool_decide_eq_false_2 _ Hopen). simpl.
    eexists _, _. split.
    { eapply (runs_bind _ _ _ _ _ []); [|apply runs_ret].
      eapply (runs_bind _ _ tt _ _ []); [apply runs_call | apply runs_ret]. }
    by repeat split.
Qed.

Lemma dispatch_runs core route storePath ctx :
  ∃ r recorded,
    runs (dispatch core route storePath ctx) r [recorded; CallDispatch ctx] ∧
    (∀ x, r ≠ Return x) ∧
    upserts [recorded] = [] ∧ messagesCreated [recorded] = [] ∧ dispatched [recorded] = [].
Proof.
  unfold dispatch. destruct (dispatchReplyError core ctx) as [msg|].
  - exists (Throw (Error msg)). eexists. split.
    { eapply (runs_bind _ _ tt [_]); [apply runs_call|].
      eapply (runs_bind _ _ tt [_] _ []); [apply runs_call | apply runs_throw]. }
    by repeat split.
  - exists (Next tt). eexists. split.
    { eapply (runs_bind _ _ tt [_]); [apply runs_call|].
      eapply (runs_bind _ _ tt [_] _ []); [apply runs_call | apply (runs_ret tt)]. }
    by repeat split.
Qed.

(** C3 fails as stated: with [dm.enabled = false] a direct message is
    blocked although [dm.policy] is [open]. *)
Lemma dm_open_but_disabled_is_blocked :
  processMessageWithPipeline sampleCore (sampleEvent "p2p" "oc_dm" "ou_u1" "status")
    (with_dm (Some {| DmConfig.enabled := Some false;
                      DmConfig.policy := Some DmOpen;
                      DmConfig.allowFrom := None |}) sampleAccount)
    sampleConfig emptyWorld
  = (Return ExitDmDisabled,
     {| calls := [CallReadAllowFromStore "feishu";
                  CallLog "[feishu] Blocked Feishu DM from ou_u1 (dmPolicy=disabled)"];
        pairingRequests := ∅ |}).
Proof. vm_compute. reflexivity. Qed.

(** C3, amended. Every direct event that gets past the first block with
    [dmPolicy = open] and [dm.enabled] not [false] passes the DM gate and is
    handed to the dispatcher with its context, whatever the allow-lists
    hold; no pairing request and no reply is made on the way. *)
Theorem dm_open_reaches_dispatch (core : FeishuCoreRuntime)
    (event : FeishuMessageEvent) (account : ResolvedFeishuAccount)
    (cfg : OpenClawConfig.t) (w : World) (i : Inbound) :
  (readEvent core event account w).1 = Next i →
  isGroup i = false →
  dmPolicyOf account = DmOpen →
  AccountConfig.dm (config account) ≫= DmConfig.enabled ≠ Some false →
  let r := processMessageWithPipeline core event account cfg w in
  let groupEntry :=
    entry (resolveGroupConfig (chatId i) None (AccountConfig.groups (config account))) in
  (∀ x, r.1 ≠ Return x) ∧
  pairingRequests r.2 = pairingRequests w ∧
  ∃ new commandAuthorized,
    calls r.2 = (calls w ++ new)%list ∧
    upserts new = [] ∧ messagesCreated new = [] ∧
    dispatched new
      = [(buildContext core event account cfg i groupEntry None commandAuthorized).2].
Proof.
  intros Hnext Hi Hpolicy Henabled r groupEntry. subst r.
  rewrite (pipeline_direct _ _ _ _ _ i (readEvent_Next _ _ _ _ _ Hnext w) Hi).
  destruct (resolveCommandAuth_direct core account cfg (senderId i) (rawBody i)
              (groupUsersOf groupEntry))
    as (auth & n1 & Hauth & Hdm & Hups & Hdisp & Hmsgs & _).
  rewrite (bind_Next _ _ _ _ _ (Hauth w)).
  rewrite (bind_Next _ _ _ tt (addCalls w n1)); cycle 1.
  { apply dmGate_open; [by rewrite Hdm | done]. }
  fold groupEntry.
  destruct (buildContext core event account cfg i groupEntry None (commandAuthorized auth))
    as [[route storePath] ctx] eqn:Hctx.
  destruct (dispatch_runs core route storePath ctx)
    as (r & recorded & Hrun & Hr & Hups' & Hmsgs' & Hdisp').
  rewrite (Hrun (addCalls w n1)). cbn [fst snd addCalls calls pairingRequests].
  split; [exact Hr|]. split; [done|].
  exists (n1 ++ [recorded; CallDispatch ctx])%list, (commandAuthorized auth).
  rewrite Hctx. cbn [snd]. split; [by rewrite app_assoc|].
  unfold upserts, messagesCreated, dispatched in *.
  rewrite !omap_app, Hups, Hmsgs, Hdisp.
  change [recorded; CallDispatch ctx] with ([recorded] ++ [CallDispatch ctx])%list.
  by rewrite !omap_app, Hups', Hmsgs', Hdisp'.
Qed.

Lemma dm_open_reaches_dispatch_witness :
  let event := sampleEvent "p2p" "oc_dm" "ou_u1" "status" in
  let account := with_dm (Some (dm_with_policy DmOpen None)) sampleAccount in
  let r := processMessageWithPipeline sampleCore event account sampleConfig emptyWorld in
  (readEvent sampleCore event account emptyWorld).1 = Next sampleDirectInbound ∧
  isGroup sampleDirectInbound = false ∧
  dmPolicyOf account = DmOpen ∧
  AccountConfig.dm (config account) ≫= DmConfig.enabled ≠ Some false ∧
  ∀ x, r.1 ≠ Return x.
Proof.
  intros event account r.
  assert (AccountConfig.dm (config account) ≫= DmConfig.enabled ≠ Some false)
    as Henabled by discriminate.
  split; [reflexivity|]. split; [reflexivity|]. split; [reflexivity|].
  split; [exact Henabled|].
  exact (proj1 (dm_open_reaches_dispatch sampleCore event account sampleConfig
                  emptyWorld sampleDirectInbound eq_refl eq_refl eq_refl Henabled)).
Defined.

(** C4 fails as stated, twice.  With [dm.enabled = false] the message is
    blocked before any pairing request is made; and with verbose logging
    off a failed pairing reply leaves no log line. *)
Lemma dm_pairing_without_request_or_log :
  let event := sampleEvent "p2p" "oc_dm" "ou_u1" "status" in
  processMessageWithPipeline sampleCore event
    (with_dm (Some {| DmConfig.enabled := Some false;
                      DmConfig.policy := Some DmPairing;
                      DmConfig.allowFrom := None |}) sampleAccount)
    sampleConfig emptyWorld
  = (Return ExitDmDisabled,
     {| calls := [CallReadAllowFromStore "feishu";
                  CallLog "[feishu] Blocked Feishu DM from ou_u1 (dmPolicy=disabled)"];
        pairingRequests := ∅ |}) ∧
  processMessageWithPipeline quietFailingCore event sampleAccount sampleConfig emptyWorld
  = (Return ExitDmUnauthorized,
     {| calls := [CallReadAllowFromStore "feishu";
                  CallUpsertPairingRequest "feishu" "ou_u1";
                  CallMessageCreate
                    {| receiveIdType := ReceiveOpenId; receiveId := "ou_u1" |}
                    "Your Feishu user id: ou_u1 / code K7Q2" None];
        pairingRequests := {[ ("feishu", "ou_u1") := "K7Q2" ]} |}).
Proof. vm_compute. done. Qed.

(** The whole run of a direct message of an unknown sender under the
    pairing policy. *)
Lemma dm_pairing_run (core : FeishuCoreRuntime)
    (event : FeishuMessageEvent) (account : ResolvedFeishuAccount)
    (cfg : OpenClawConfig.t) (w : World) (i : Inbound) :
  (readEvent core event account w).1 = Next i →
  isGroup i = false →
  dmPolicyOf account = DmPairing →
  AccountConfig.dm (config account) ≫= DmConfig.enabled ≠ Some false →
  isSenderAllowed (senderId i)
    ((String_of <$> default [] (AccountConfig.dm (config account) ≫= DmConfig.allowFrom))
       ++ default [] (readAllowFromStore core "feishu"))%list = false →
  let r := processMessageWithPipeline core event account cfg w in
  let key := ("feishu", senderId i) in
  let code := newPairingCode core "feishu" (senderId i) in
  let reply :=
    buildPairingReply core "feishu" ("Your Feishu user id: " +:+ senderId i) code in
  r.1 = Return ExitDmUnauthorized ∧
  is_Some (pairingRequests r.2 !! key) ∧
  (is_Some (pairingRequests w !! key) → pairingRequests r.2 = pairingRequests w) ∧
  ∃ new,
    calls r.2 = (calls w ++ new)%list ∧
    upserts new = [key] ∧
    dispatched new = [] ∧
    (length (messagesCreated new) ≤ 1)%nat ∧
    (is_Some (pairingRequests w !! key) → messagesCreated new = []) ∧
    (∀ e w0,
       pairingRequests w !! key = None →
       (sendFeishuText core account ("open_id:" +:+ senderId i) reply w0).1 = Throw e →
       shouldLogVerbose core = true → runtime_log core = true →
       "[feishu] " +:+ "pairing reply failed for " +:+ senderId i +:+ ": "
         +:+ String_of_error e ∈ logged new).
Proof.
  intros Hnext Hi Hpolicy Henabled Hunknown r key code reply. subst r.
  rewrite (pipeline_direct _ _ _ _ _ i (readEvent_Next _ _ _ _ _ Hnext w) Hi).
  destruct (resolveCommandAuth_direct core account cfg (senderId i) (rawBody i)
              (groupUsersOf
                 (entry (resolveGroupConfig (chatId i) None
                           (AccountConfig.groups (config account))))))
    as (auth & n1 & Hauth & Hdm & Hups & Hdisp & Hmsgs & Hallowed).
  rewrite (bind_Next _ _ _ _ _ (Hauth w)).
  rewrite <- Hallowed in Hunknown by (by rewrite Hpolicy).
  destruct (dmGate_pairing core account (senderId i) auth (addCalls w n1))
    as (n2 & requests & Hgate & Hups2 & Hdisp2 & Hlen & Hold & Hnew & Hfail);
    [by rewrite Hdm | done | done |].
  cbn [addCalls calls pairingRequests] in Hgate, Hold, Hnew, Hfail.
  rewrite (bind_Return _ _ _ _ _ Hgate). cbn [fst snd calls pairingRequests].
  split; [done|]. split; [|split].
  - destruct (pairingRequests w !! ("feishu", senderId i)) as [c|] eqn:Hlookup.
    + destruct (Hold (mk_is_Some _ _ eq_refl)) as [_ ->]. unfold key.
      by rewrite Hlookup.
    + rewrite (Hnew eq_refl). unfold key. rewrite lookup_insert_eq. by eexists.
  - intros Hsome. by destruct (Hold Hsome).
  - exists (n1 ++ n2)%list. split; [by rewrite app_assoc|].
    unfold upserts, dispatched, messagesCreated, logged in *.
    rewrite !omap_app, Hups, Hdisp, Hmsgs. cbn [app].
    split; [done|]. split; [done|]. split; [done|]. split.
    + intros Hsome. by destruct (Hold Hsome).
    + intros e w0 Hnone Hthrow Hverbose Hlog. rewrite elem_of_app. right.
      by apply Hfail with w0.
Qed.

(** The whole run of a direct message when [dm.enabled] is [false]: the
    gate returns before the policy is looked at. *)
Lemma dm_disabled_run (core : FeishuCoreRuntime)
    (event : FeishuMessageEvent) (account : ResolvedFeishuAccount)
    (cfg : OpenClawConfig.t) (w : World) (i : Inbound) :
  (readEvent core event account w).1 = Next i →
  isGroup i = false →
  AccountConfig.dm (config account) ≫= DmConfig.enabled = Some false →
  let r := processMessageWithPipeline core event account cfg w in
  r.1 = Return ExitDmDisabled ∧
  pairingRequests r.2 = pairingRequests w ∧
  ∃ new,
    calls r.2 = (calls w ++ new)%list ∧
    upserts new = [] ∧ messagesCreated new = [] ∧ dispatched new = [].
Proof.
  intros Hnext Hi Hoff r. subst r.
  rewrite (pipeline_direct _ _ _ _ _ i (readEvent_Next _ _ _ _ _ Hnext w) Hi).
  destruct (resolveCommandAuth_direct core account cfg (senderId i) (rawBody i)
              (groupUsersOf
                 (entry (resolveGroupConfig (chatId i) None
                           (AccountConfig.groups (config account))))))
    as (auth & n1 & Hauth & _ & Hups & Hdisp & Hmsgs & _).
  rewrite (bind_Next _ _ _ _ _ (Hauth w)).
  assert (dmGate core account (senderId i) auth (addCalls w n1)
          = (Return ExitDmDisabled,
             addCalls (addCalls w n1)
               (if shouldLogVerbose core && runtime_log core
                then [CallLog ("[feishu] " +:+ "Blocked Feishu DM from " +:+ senderId i
                                 +:+ " (dmPolicy=disabled)")]
                else [])))
    as Hgate.
  { unfold dmGate. rewrite (bool_decide_eq_true_2 _ Hoff), orb_true_r. when_reduce.
    by rewrite (bind_Return _ _ _ _ _ (runs_log_and_return core _ ExitDmDisabled _)). }
  rewrite (bind_Return _ _ _ _ _ Hgate). cbn [fst snd addCalls calls pairingRequests].
  split; [done|]. split; [done|].
  eexists (n1 ++ _)%list. split; [by rewrite app_assoc|].
  unfold upserts, messagesCreated, dispatched in *.
  rewrite !omap_app, Hups, Hmsgs, Hdisp. by destruct (_ && _).
Qed.

(** C4, amended. For every direct message that gets past the first block
    under [dmPolicy = pairing].  With [dm.enabled = false] the message is
    blocked before any pairing request is made, whoever sent it: the run
    ends in the gate's [return], the pairing store is as it was, and no
    request, reply or dispatch is among its calls.  With [dm.enabled] not
    [false], from a sender who does not pass the merged (configured plus
    store) allow-list: exactly one create-or-fetch pairing request is made,
    for [("feishu", senderId)]; a pairing reply is sent only when the request
    was newly created, and at most once; a failure sending that reply is
    caught, handed to [logVerbose] (which writes the line when verbose
    logging is on and [runtime.log] exists) and changes nothing else; and
    the event is dropped in every case, never dispatched.  A second message
    of the same sender finds the request: it is dropped as well, the pairing
    store stays as it is and no further reply is sent. *)
Theorem dm_pairing_unknown_sender (core : FeishuCoreRuntime)
    (event : FeishuMessageEvent) (account : ResolvedFeishuAccount)
    (cfg : OpenClawConfig.t) (w : World) (i : Inbound) :
  (readEvent core event account w).1 = Next i →
  isGroup i = false →
  dmPolicyOf account = DmPairing →
  let r := processMessageWithPipeline core event account cfg w in
  let second := processMessageWithPipeline core event account cfg r.2 in
  let key := ("feishu", senderId i) in
  let code := newPairingCode core "feishu" (senderId i) in
  let reply :=
    buildPairingReply core "feishu" ("Your Feishu user id: " +:+ senderId i) code in
  (AccountConfig.dm (config account) ≫= DmConfig.enabled = Some false →
   r.1 = Return ExitDmDisabled ∧
   pairingRequests r.2 = pairingRequests w ∧
   ∃ new,
     calls r.2 = (calls w ++ new)%list ∧
     upserts new = [] ∧ messagesCreated new = [] ∧ dispatched new = []) ∧
  (AccountConfig.dm (config account) ≫= DmConfig.enabled ≠ Some false →
   isSenderAllowed (senderId i)
     ((String_of <$> default [] (AccountConfig.dm (config account) ≫= DmConfig.allowFrom))
        ++ default [] (readAllowFromStore core "feishu"))%list = false →
   r.1 = Return ExitDmUnauthorized ∧
   is_Some (pairingRequests r.2 !! key) ∧
   (∃ new,
      calls r.2 = (calls w ++ new)%list ∧
      upserts new = [key] ∧
      dispatched new = [] ∧
      (length (messagesCreated new) ≤ 1)%nat ∧
      (is_Some (pairingRequests w !! key) → messagesCreated new = []) ∧
      (∀ e w0,
         pairingRequests w !! key = None →
         (sendFeishuText core account ("open_id:" +:+ senderId i) reply w0).1 = Throw e →
         shouldLogVerbose core = true → runtime_log core = true →
         "[feishu] " +:+ "pairing reply failed for " +:+ senderId i +:+ ": "
           +:+ String_of_error e ∈ logged new)) ∧
   second.1 = Return ExitDmUnauthorized ∧
   pairingRequests second.2 = pairingRequests r.2 ∧
   upserts (calls second.2) = (upserts (calls r.2) ++ [key])%list ∧
   messagesCreated (calls second.2) = messagesCreated (calls r.2)).
Proof.
  intros Hnext Hi Hpolicy r second key code reply. split.
  { intros Hoff. exact (dm_disabled_run core event account cfg w i Hnext Hi Hoff). }
  intros Henabled Hunknown.
  destruct (dm_pairing_run core event account cfg w i
              Hnext Hi Hpolicy Henabled Hunknown)
    as (Hdrop & Hsome & _ & new & Hcalls & Hfirst).
  fold r in Hdrop, Hsome, Hcalls.
  assert ((readEvent core event account r.2).1 = Next i) as Hnext'.
  { by rewrite (readEvent_Next _ _ _ _ _ Hnext r.2). }
  destruct (dm_pairing_run core event account cfg r.2 i
              Hnext' Hi Hpolicy Henabled Hunknown)
    as (Hdrop' & _ & Hsame & new' & Hcalls' & Hups' & _ & _ & Hnone & _).
  fold second in Hdrop', Hsame, Hcalls'.
  split; [exact Hdrop|]. split; [exact Hsome|]. split; [by exists new|].
  split; [exact Hdrop'|]. split; [by apply Hsame|].
  rewrite Hcalls'. unfold upserts, messagesCreated in *.
  rewrite !omap_app, Hups', (Hnone Hsome). by rewrite app_nil_r.
Qed.

Lemma dm_pairing_unknown_sender_witness :
  let event := sampleEvent "p2p" "oc_dm" "ou_u1" "status" in
  let off :=
    with_dm (Some {| DmConfig.enabled := Some false;
                     DmConfig.policy := Some DmPairing;
                     DmConfig.allowFrom := None |}) sampleAccount in
  (readEvent sampleCore event sampleAccount emptyWorld).1 = Next sampleDirectInbound ∧
  (readEvent sampleCore event off emptyWorld).1 = Next sampleDirectInbound ∧
  isGroup sampleDirectInbound = false ∧
  dmPolicyOf sampleAccount = DmPairing ∧
  dmPolicyOf off = DmPairing ∧
  AccountConfig.dm (config sampleAccount) ≫= DmConfig.enabled ≠ Some false ∧
  AccountConfig.dm (config off) ≫= DmConfig.enabled = Some false ∧
  isSenderAllowed "ou_u1" [] = false ∧
  (processMessageWithPipeline sampleCore event sampleAccount sampleConfig emptyWorld).1
  = Return ExitDmUnauthorized ∧
  (processMessageWithPipeline sampleCore event off sampleConfig emptyWorld).1
  = Return ExitDmDisabled.
Proof.
  intros event off.
  assert (AccountConfig.dm (config sampleAccount) ≫= DmConfig.enabled ≠ Some false)
    as Henabled by discriminate.
  split; [reflexivity|]. split; [reflexivity|]. split; [reflexivity|].
  split; [reflexivity|]. split; [reflexivity|]. split; [exact Henabled|].
  split; [reflexivity|]. split; [reflexivity|]. split.
  - exact (proj1 (proj2 (dm_pairing_unknown_sender sampleCore event sampleAccount
                           sampleConfig emptyWorld sampleDirectInbound
                           eq_refl eq_refl eq_refl)
                    Henabled eq_refl)).
  - exact (proj1 (proj1 (dm_pairing_unknown_sender sampleCore event off
                           sampleConfig emptyWorld sampleDirectInbound
                           eq_refl eq_refl eq_refl)
                    eq_refl)).
Defined.

(** ** Webchat forwarder *)

Module WebchatFacts.
Import Webchat.

Lemma code_check_number q :
  truthy (JsNumber q) && not_zero (JsNumber q) = true ↔ ¬ (q == 0)%Q.
Proof.
  simpl. rewrite andb_diag, negb_true_iff, Z.eqb_neq.
  unfold Qeq. simpl. rewrite Z.mul_1_r. done.
Qed.

(** C8 fails as stated: the forwarder also throws when [fetch] itself
    rejects (line 63 is not inside a [try]), and then there is no response
    whose status or code could be at fault. *)
Lemma forwardWebchatFinal_fetch_rejected :
  let pf :=
    {| Date_now := 1700000000999;
       normalizeMessageChannel := fun channel => channel;
       hmacSha256Base64 := fun key data => "hmac(" +:+ key +:+ "," +:+ data +:+ ")";
       fetch := fun _ _ => inl "fetch failed" |} in
  let out := forwardWebchatFinal pf sampleNotify "done" None (Some "webchat") false in
  out = ForwardFailed "https://open.feishu.cn/hook/1"
          {| msg_type := "text"; content_text := "done";
             timestamp := Some "1700000000";
             sign := Some ("hmac(1700000000" +:+ Js.newline +:+ "s3cret,)") |}
          (Error "fetch failed") ∧
  threw out = true ∧
  ∀ url payload res, fetch pf url payload ≠ inr res.
Proof. vm_compute. by repeat split. Qed.

(** C8, amended. When a secret is configured, the forwarder sets [sign] to
    the base64 HMAC-SHA256 digest, keyed with the Unix time in seconds, a
    line feed and the secret, of the empty message; and having made the
    request it throws exactly when [fetch] rejects, or the response has a
    status that is not 2xx, or its body carries a code that is truthy and
    not [0], which for a number means non-zero. *)
Theorem forwardWebchatFinal_sign_and_failure (pf : Platform)
    (notify : option WebchatNotifyConfig) (text : string)
    (sessionKey sessionChannel : option string) (log : bool)
    (url : string) (payload : Payload) :
  let out := forwardWebchatFinal pf notify text sessionKey sessionChannel log in
  requestOf out = Some (url, payload) →
  (∀ f, notify ≫= feishu = Some f →
        Js.truthy (default "" (Js.trim <$> secret f)) = true →
        let unixSeconds := pretty (Date_now pf / 1000) in
        timestamp payload = Some unixSeconds ∧
        sign payload
          = Some (hmacSha256Base64 pf
                    (unixSeconds +:+ Js.newline +:+ default "" (Js.trim <$> secret f))
                    "")) ∧
  (threw out = true ↔
     match fetch pf url payload with
     | inl _ => True
     | inr res =>
         (status res < 200 ∨ 299 < status res) ∨
         ∃ code msg, json res = Some (BodyObject code msg) ∧
                     truthy code && not_zero code = true
     end) ∧
  (∀ res q msg,
     fetch pf url payload = inr res →
     json res = Some (BodyObject (JsNumber q) msg) →
     (threw out = true ↔ (status res < 200 ∨ 299 < status res) ∨ ¬ (q == 0)%Q)).
Proof.
  intros out Hrequest.
  assert (∀ res, ok res = false ↔ status res < 200 ∨ 299 < status res) as Hok.
  { intros res. unfold ok. rewrite andb_false_iff, !Z.leb_gt. done. }
  subst out. unfold forwardWebchatFinal in *.
  destruct (negb (bool_decide (notify ≫= notify_enabled = Some true))); [done|].
  destruct (negb (isWebchatChannel pf sessionChannel)); [done|].
  destruct (notify ≫= feishu) as [f|]; [|done].
  destruct (bool_decide (enabled f = Some false)); [done|].
  destruct (negb (Js.truthy (default "" (Js.trim <$> webhook f)))); [done|].
  destruct (negb (Js.truthy (Js.trim text))); [done|].
  set (body := if Js.truthy (default "" (keyword f)) then _ else _) in *.
  set (built := if Js.truthy (default "" (Js.trim <$> secret f)) then _ else _) in *.
  assert (url = default "" (Js.trim <$> webhook f) ∧ payload = built) as [-> ->].
  { assert (∀ e o, requestOf o = Some (url, payload) →
              o = Forwarded (default "" (Js.trim <$> webhook f)) built ∨
              o = ForwardFailed (default "" (Js.trim <$> webhook f)) built e →
              url = default "" (Js.trim <$> webhook f) ∧ payload = built) as Hsame.
    { intros e o Ho [-> | ->]; by injection Ho. }
    destruct (fetch pf _ built) as [msg|res]; [by eapply Hsame; eauto|].
    destruct (negb (ok res)); [by eapply Hsame; eauto|].
    destruct (default _ (json res)) as [code msg|];
      [|by eapply (Hsame (Error "")); eauto].
    destruct (truthy code && not_zero code); [by eapply Hsame; eauto|].
    by eapply (Hsame (Error "")); eauto. }
  split.
  { intros f' [= <-] Hsecret. subst built. by rewrite Hsecret. }
  destruct (fetch pf (default "" (Js.trim <$> webhook f)) built) as [rejected|res].
  { split; [done|]. intros res q msg Hres. discriminate Hres. }
  assert (∀ o, threw (if negb (ok res) then ForwardFailed (default "" (Js.trim <$> webhook f))
                          built (Error ("Feishu webhook HTTP " +:+ pretty (status res)))
                      else o) = true
               ↔ (status res < 200 ∨ 299 < status res) ∨ threw o = true) as Hthrew.
  { intros o. rewrite <- Hok. destruct (ok res); simpl; intuition congruence. }
  split.
  - rewrite Hthrew. apply or_iff_compat_l.
    destruct (json res) as [[code msg|]|]; simpl.
    + destruct (truthy code && not_zero code) eqn:Hcode; simpl.
      * split; [eauto|done].
      * split; [done|]. intros (? & ? & [= <- <-] & ?). congruence.
    + split; [done|]. by intros (? & ? & ? & ?).
    + split; [done|]. by intros (? & ? & ? & ?).
  - intros res' q msg [= <-] Hjson. rewrite Hthrew, Hjson. apply or_iff_compat_l.
    rewrite <- code_check_number. cbn [from_option id].
    by destruct (truthy (JsNumber q) && not_zero (JsNumber q)).
Qed.

Lemma forwardWebchatFinal_sign_and_failure_witness :
  let res := {| status := 200; json := Some (BodyObject (JsNumber (19021 # 1)) None) |} in
  let out :=
    forwardWebchatFinal (samplePlatform res) sampleNotify "done" None (Some "webchat")
      false in
  ∃ url payload,
    requestOf out = Some (url, payload) ∧
    fetch (samplePlatform res) url payload = inr res ∧
    sign payload = Some ("hmac(1700000000" +:+ Js.newline +:+ "s3cret,)") ∧
    threw out = true.
Proof.
  intros res out.
  set (payload :=
         {| msg_type := "text"; content_text := "done";
            timestamp := Some "1700000000";
            sign := Some ("hmac(1700000000" +:+ Js.newline +:+ "s3cret,)") |}).
  exists "https://open.feishu.cn/hook/1", payload.
  destruct (forwardWebchatFinal_sign_and_failure (samplePlatform res) sampleNotify
              "done" None (Some "webchat") false "https://open.feishu.cn/hook/1"
              payload eq_refl) as (Hsign & _ & Hfail).
  split; [reflexivity|]. split; [reflexivity|]. split.
  - exact (proj2 (Hsign _ eq_refl eq_refl)).
  - apply (proj2 (Hfail res (19021 # 1)%Q None eq_refl eq_refl)).
    right. discriminate.
Defined.

End WebchatFacts.

(** * Further properties of the code *)

(** ** Trimming and lower-casing *)

Lemma isWhiteSpace_lower c : Js.isWhiteSpace (Js.lowerChar c) = Js.isWhiteSpace c.
Proof. destruct c as [[] [] [] [] [] [] [] []]; reflexivity. Qed.

Lemma lowerChar_idemp c : Js.lowerChar (Js.lowerChar c) = Js.lowerChar c.
Proof. destruct c as [[] [] [] [] [] [] [] []]; reflexivity. Qed.

Lemma toLowerCase_idemp s : Js.toLowerCase (Js.toLowerCase s) = Js.toLowerCase s.
Proof. induction s as [|c s IH]; simpl; [done|]. by rewrite lowerChar_idemp, IH. Qed.

Lemma trimStart_lower s : Js.trimStart (Js.toLowerCase s) = Js.toLowerCase (Js.trimStart s).
Proof.
  induction s as [|c s IH]; simpl; [done|].
  rewrite isWhiteSpace_lower. by destruct (Js.isWhiteSpace c).
Qed.

Lemma trimEnd_lower s : Js.trimEnd (Js.toLowerCase s) = Js.toLowerCase (Js.trimEnd s).
Proof.
  induction s as [|c s IH]; simpl; [done|].
  rewrite IH, isWhiteSpace_lower.
  destruct (Js.trimEnd s); simpl; [by destruct (Js.isWhiteSpace c)|done].
Qed.

Lemma trim_lower s : Js.trim (Js.toLowerCase s) = Js.toLowerCase (Js.trim s).
Proof. unfold Js.trim. by rewrite trimStart_lower, trimEnd_lower. Qed.

Lemma trimStart_idemp s : Js.trimStart (Js.trimStart s) = Js.trimStart s.
Proof.
  induction s as [|c s IH]; simpl; [done|].
  destruct (Js.isWhiteSpace c) eqn:Hc; [done|]. simpl. by rewrite Hc.
Qed.

Lemma trimEnd_cons c s :
  Js.trimEnd (String c s)
  = match Js.trimEnd s with
    | EmptyString => if Js.isWhiteSpace c then EmptyString else String c EmptyString
    | t => String c t
    end.
Proof. reflexivity. Qed.

Lemma trimEnd_idemp s : Js.trimEnd (Js.trimEnd s) = Js.trimEnd s.
Proof.
  induction s as [|c s IH]; [done|]. rewrite trimEnd_cons.
  destruct (Js.trimEnd s) as [|d t] eqn:Ht.
  - destruct (Js.isWhiteSpace c) eqn:Hc; [done|]. rewrite trimEnd_cons. simpl.
    by rewrite Hc.
  - by rewrite trimEnd_cons, IH.
Qed.

Lemma trimStart_trimEnd s : Js.trimStart (Js.trimEnd s) = Js.trimEnd (Js.trimStart s).
Proof.
  induction s as [|c s IH]; [done|].
  rewrite trimEnd_cons. cbn [Js.trimStart]. destruct (Js.isWhiteSpace c) eqn:Hc.
  - rewrite <- IH. destruct (Js.trimEnd s); [done|]. cbn [Js.trimStart]. by rewrite Hc.
  - rewrite trimEnd_cons.
    destruct (Js.trimEnd s); cbn [Js.trimStart]; by rewrite Hc.
Qed.

Lemma trim_idemp s : Js.trim (Js.trim s) = Js.trim s.
Proof.
  unfold Js.trim. by rewrite trimStart_trimEnd, trimStart_idemp, trimEnd_idemp.
Qed.

Lemma trim_trimEnd s : Js.trim (Js.trimEnd s) = Js.trim s.
Proof. unfold Js.trim. by rewrite trimStart_trimEnd, trimEnd_idemp. Qed.

Lemma truthy_lower s : Js.truthy (Js.toLowerCase s) = Js.truthy s.
Proof. by destruct s. Qed.

Lemma truthy_false s : Js.truthy s = false ↔ s = "".
Proof. by destruct s. Qed.

Lemma or_else_trimmed a b :
  Js.trim a = a → Js.trim b = b → Js.trim (Js.or_else a b) = Js.or_else a b.
Proof. unfold Js.or_else. by destruct (Js.truthy a). Qed.

Lemma normalizeUserId_idemp s :
  normalizeUserId (Some (normalizeUserId (Some s))) = normalizeUserId (Some s).
Proof. by rewrite !normalizeUserId_Some, trim_lower, trim_idemp, toLowerCase_idemp. Qed.

(** A literal of the pattern matches a subject exactly as it matches the
    lower-cased subject. *)
Lemma dropPrefixCI_lower p s :
  Js.dropPrefixCI p (Js.toLowerCase s) = Js.toLowerCase <$> Js.dropPrefixCI p s.
Proof.
  revert s. induction p as [|a p IH]; intros [|b s]; simpl; try done.
  rewrite lowerChar_idemp. by destruct (Ascii.eqb a (Js.lowerChar b)).
Qed.

Lemma dropPrefixCI_self p rest :
  Js.dropPrefixCI (Js.toLowerCase p) (p +:+ rest) = Some rest.
Proof. induction p as [|a p IH]; simpl; [done|]. by rewrite Ascii.eqb_refl. Qed.

(** Trimming a string that starts with a character that is no white space
    and has another such character before its tail. *)
Lemma trim_framed c a d b :
  Js.isWhiteSpace c = false → Js.isWhiteSpace d = false →
  Js.trim (String c a +:+ String d b) = String c a +:+ String d (Js.trimEnd b).
Proof.
  intros Hc Hd. unfold Js.trim.
  change (String c a +:+ String d b) with (String c (a +:+ String d b)).
  rewrite trimStart_char by done.
  change (String c (a +:+ String d b)) with (String c a +:+ String d b).
  by rewrite trimEnd_app_char.
Qed.

(** ** Sender ids and allow-lists, continued *)

Lemma or_else_first o u n :
  let r := Js.or_else o (Js.or_else u (Js.or_else n "")) in
  (o ≠ "" → r = o) ∧ (o = "" → u ≠ "" → r = u) ∧
  (r = "" ↔ o = "" ∧ u = "" ∧ n = "").
Proof. unfold Js.or_else. destruct o, u, n; simpl; intuition congruence. Qed.

Lemma resolveSenderId_trim sender :
  Js.trim (resolveSenderId sender) = resolveSenderId sender.
Proof.
  unfold resolveSenderId.
  set (field := fun f : option string => default "" (Js.trim <$> f)).
  assert (∀ f, Js.trim (field f) = field f) as Htrim.
  { intros [f|]; simpl; [apply trim_idemp | done]. }
  repeat apply or_else_trimmed; first [apply Htrim | reflexivity].
Qed.

(** X1. The sender id is the first of [open_id], [user_id], [union_id] that
    is not blank, trimmed; it carries no white space at either end, and it
    is empty exactly when all three are missing or blank. *)
Theorem resolveSenderId_trimmed (sender : option FeishuEventSender) :
  let ids :=
    default {| open_id := None; user_id := None; union_id := None |}
            (sender ≫= sender_id) in
  let field (f : option string) := default "" (Js.trim <$> f) in
  Js.trim (resolveSenderId sender) = resolveSenderId sender ∧
  (field (open_id ids) ≠ "" → resolveSenderId sender = field (open_id ids)) ∧
  (field (open_id ids) = "" → field (user_id ids) ≠ "" →
     resolveSenderId sender = field (user_id ids)) ∧
  (resolveSenderId sender = "" ↔
     field (open_id ids) = "" ∧ field (user_id ids) = "" ∧ field (union_id ids) = "").
Proof.
  intros ids field. split; [apply resolveSenderId_trim|].
  unfold resolveSenderId. fold ids. fold field.
  exact (or_else_first (field (open_id ids)) (field (user_id ids))
           (field (union_id ids))).
Qed.

Lemma resolveSenderId_trimmed_witness :
  resolveSenderId
    (Some {| sender_type := None;
             sender_id := Some {| open_id := Some "  "; user_id := Some " u7 ";
                                  union_id := Some "on_9" |} |}) = "u7".
Proof.
  apply (proj1 (proj2 (proj2
           (resolveSenderId_trimmed
              (Some {| sender_type := None;
                       sender_id := Some {| open_id := Some "  "; user_id := Some " u7 ";
                                            union_id := Some "on_9" |} |})))));
    [reflexivity | discriminate].
Defined.

Lemma isSenderAllowed_true_iff senderId allowFrom :
  isSenderAllowed senderId allowFrom = true ↔
  "*" ∈ allowFrom ∨
  ∃ entry, entry ∈ allowFrom ∧
    Js.toLowerCase (Js.trim entry) ≠ "" ∧
    (Js.toLowerCase (Js.trim entry) = normalizeUserId (Some senderId) ∨
     Js.replacePrefixCI allowEntryPrefixes (Js.toLowerCase (Js.trim entry))
       = normalizeUserId (Some senderId)).
Proof.
  unfold isSenderAllowed. case_bool_decide as Hstar; [by intuition|].
  rewrite existsb_exists. split.
  - intros (entry & Hin & Hmatch). right. exists entry.
    split; [by apply list_elem_of_In|].
    destruct (Js.toLowerCase (Js.trim entry)) eqn:Hn; [done|]. split; [done|].
    simpl in Hmatch. repeat case_bool_decide; by intuition.
  - intros [Hin | (entry & Hin & Hne & Hmatch)]; [done|].
    exists entry. split; [by apply list_elem_of_In|].
    destruct (Js.toLowerCase (Js.trim entry)) eqn:Hn; [done|]. simpl.
    repeat case_bool_decide; by intuition.
Qed.

(** X2. Matching ignores the letter case and the surrounding white space of
    the sender id. *)
Theorem isSenderAllowed_normalized_sender (senderId : string) (allowFrom : list string) :
  isSenderAllowed (normalizeUserId (Some senderId)) allowFrom
  = isSenderAllowed senderId allowFrom.
Proof. unfold isSenderAllowed. by rewrite normalizeUserId_idemp. Qed.

(** X3. A sender passes a merged allow-list exactly when it passes one of
    the lists that were merged. *)
Theorem isSenderAllowed_app (senderId : string) (l1 l2 : list string) :
  isSenderAllowed senderId (l1 ++ l2)
  = isSenderAllowed senderId l1 || isSenderAllowed senderId l2.
Proof.
  apply eq_true_iff_eq.
  rewrite orb_true_iff, !isSenderAllowed_true_iff, elem_of_app.
  split.
  - intros [[H|H] | (entry & Hin & Hmatch)]; [by left; left | by right; left |].
    apply elem_of_app in Hin as [Hin|Hin]; [left | right]; right; eauto.
  - intros [[H | (entry & Hin & Hmatch)] | [H | (entry & Hin & Hmatch)]];
      [by left; left | | by left; right |];
      right; exists entry; (split; [apply elem_of_app; eauto | done]).
Qed.

(** An entry equal to the sender id allows the sender unless the id is
    blank: an event without sender id passes no plain entry. *)
Theorem isSenderAllowed_self (senderId : string) :
  isSenderAllowed senderId [senderId] = Js.truthy (Js.trim senderId).
Proof.
  unfold isSenderAllowed. rewrite normalizeUserId_Some.
  case_bool_decide as Hstar.
  - apply list_elem_of_singleton in Hstar as <-. reflexivity.
  - simpl. rewrite orb_false_r, truthy_lower.
    destruct (Js.truthy (Js.trim senderId)); simpl; [|done].
    by rewrite bool_decide_eq_true_2.
Qed.

(** X4. The list that [formatAllowFrom] shows holds only entries that are
    not empty, trimmed and lower-case, and formatting it again changes
    nothing. *)
Theorem formatAllowFrom_normal_form (allowFrom : list AllowFromEntry) :
  (∀ entry, entry ∈ formatAllowFrom allowFrom →
     entry ≠ "" ∧ Js.trim entry = entry ∧ Js.toLowerCase entry = entry) ∧
  formatAllowFrom (AllowString <$> formatAllowFrom allowFrom) = formatAllowFrom allowFrom.
Proof.
  assert (∀ entry, entry ∈ formatAllowFrom allowFrom →
            entry ≠ "" ∧ Js.trim entry = entry ∧ Js.toLowerCase entry = entry) as Hnormal.
  { intros entry. unfold formatAllowFrom.
    rewrite list_elem_of_fmap. intros (t & -> & Hin).
    apply list_elem_of_In, filter_In in Hin as [Hin Ht].
    apply list_elem_of_In, list_elem_of_fmap in Hin as (e & -> & _).
    split; [|split].
    - rewrite <- truthy_lower in Ht. by destruct (Js.toLowerCase _).
    - by rewrite trim_lower, trim_idemp.
    - apply toLowerCase_idemp. }
  split; [exact Hnormal|].
  revert Hnormal. generalize (formatAllowFrom allowFrom). intros l Hl.
  unfold formatAllowFrom. induction l as [|e l IH]; [done|].
  destruct (Hl e) as (Hne & Htrim & Hlower); [apply list_elem_of_here|].
  cbn [fmap list_fmap String_of List.filter]. rewrite Htrim.
  destruct e; [done|]. cbn [Js.truthy fmap list_fmap]. rewrite Hlower. f_equal.
  apply IH. intros entry Hin. apply Hl. by apply list_elem_of_further.
Qed.

Lemma formatAllowFrom_normal_form_witness :
  "ou_a1" ∈ formatAllowFrom [AllowString " OU_A1 "; AllowString "  "] ∧
  Js.toLowerCase "ou_a1" = "ou_a1".
Proof.
  assert ("ou_a1" ∈ formatAllowFrom [AllowString " OU_A1 "; AllowString "  "]) as Hin
    by (vm_compute; apply list_elem_of_here).
  split; [exact Hin|].
  exact (proj2 (proj2 (proj1 (formatAllowFrom_normal_form
                                [AllowString " OU_A1 "; AllowString "  "])
                         "ou_a1" Hin))).
Defined.

(** X5. Formatting an allow-list never takes access away: whoever passes the
    configured list passes the formatted one. *)
Theorem formatAllowFrom_keeps_access (senderId : string) (allowFrom : list AllowFromEntry) :
  isSenderAllowed senderId (String_of <$> allowFrom) = true →
  isSenderAllowed senderId (formatAllowFrom allowFrom) = true.
Proof.
  assert (∀ e, e ∈ allowFrom → Js.toLowerCase (Js.trim (String_of e)) ≠ "" →
            Js.toLowerCase (Js.trim (String_of e)) ∈ formatAllowFrom allowFrom) as Hin.
  { intros e He Hne. unfold formatAllowFrom.
    apply list_elem_of_fmap. exists (Js.trim (String_of e)). split; [done|].
    apply list_elem_of_In, filter_In. split.
    - apply list_elem_of_In, list_elem_of_fmap. eauto.
    - rewrite <- truthy_lower. by destruct (Js.toLowerCase _). }
  rewrite !isSenderAllowed_true_iff.
  intros [Hstar | (entry & Hentry & Hne & Hmatch)].
  - left. apply list_elem_of_fmap in Hstar as (e & Hstar & He).
    specialize (Hin e He). rewrite <- Hstar in Hin. by apply Hin.
  - right. apply list_elem_of_fmap in Hentry as (e & -> & He).
    exists (Js.toLowerCase (Js.trim (String_of e))).
    split; [by apply Hin|].
    by rewrite trim_lower, trim_idemp, toLowerCase_idemp.
Qed.

Lemma formatAllowFrom_keeps_access_witness :
  isSenderAllowed "ou_a1" (String_of <$> [AllowString " User:OU_A1 "]) = true ∧
  isSenderAllowed "ou_a1" (formatAllowFrom [AllowString " User:OU_A1 "]) = true.
Proof.
  split; [reflexivity|].
  exact (formatAllowFrom_keeps_access "ou_a1" [AllowString " User:OU_A1 "] eq_refl).
Defined.

(** ** Send targets *)

Lemma resolveReceiveTarget_kind (label : string) (kind : ReceiveIdType) (rest : string) :
  (label, kind) ∈ [("chat:", ReceiveChatId); ("open_id:", ReceiveOpenId);
                   ("open:", ReceiveOpenId); ("user:", ReceiveUserId)] →
  resolveReceiveTarget (label +:+ rest)
  = Some {| receiveIdType := kind; receiveId := Js.trim rest |}.
Proof.
  rewrite !elem_of_cons, elem_of_nil.
  intros [[= -> ->] | [[= -> ->] | [[= -> ->] | [[= -> ->] | []]]]];
    unfold resolveReceiveTarget.
  - change ("chat:" +:+ rest) with ("chat" +:+ String ":" rest).
    rewrite trim_framed by done. simpl. by rewrite trim_trimEnd.
  - change ("open_id:" +:+ rest) with ("open_id" +:+ String ":" rest).
    rewrite trim_framed by done. simpl. by rewrite trim_trimEnd.
  - change ("open:" +:+ rest) with ("open" +:+ String ":" rest).
    rewrite trim_framed by done. simpl. by rewrite trim_trimEnd.
  - change ("user:" +:+ rest) with ("user" +:+ String ":" rest).
    rewrite trim_framed by done. simpl. by rewrite trim_trimEnd.
Qed.

Lemma resolveReceiveTarget_blank (raw : string) :
  (resolveReceiveTarget raw = None ↔ Js.trim raw = "") ∧
  (∀ target, resolveReceiveTarget raw = Some target →
     Js.trim (receiveId target) = receiveId target).
Proof.
  unfold resolveReceiveTarget. rewrite <- truthy_false.
  destruct (Js.truthy (Js.trim raw)); cbn [negb]; [|done].
  destruct (Js.startsWith "chat:" _); [|destruct (Js.startsWith "open_id:" _);
    [|destruct (Js.startsWith "open:" _); [|destruct (Js.startsWith "user:" _)]]];
    (split; [done|]); intros target [= <-]; apply trim_idemp.
Qed.

(** X6. A target resolves unless it is blank, and the receive id it resolves
    to carries no white space at either end. *)
Theorem resolveReceiveTarget_trimmed (raw : string) :
  (resolveReceiveTarget raw = None ↔ Js.trim raw = "") ∧
  (∀ target, resolveReceiveTarget raw = Some target →
     Js.trim (receiveId target) = receiveId target).
Proof. exact (resolveReceiveTarget_blank raw). Qed.

Lemma resolveReceiveTarget_trimmed_witness :
  resolveReceiveTarget " Chat: oc_1 "
  = Some {| receiveIdType := ReceiveChatId; receiveId := "oc_1" |} ∧
  Js.trim "oc_1" = "oc_1".
Proof.
  split; [reflexivity|].
  exact (proj2 (resolveReceiveTarget_trimmed " Chat: oc_1 ")
           {| receiveIdType := ReceiveChatId; receiveId := "oc_1" |} eq_refl).
Defined.

(** [open:] and [open_id:] address the same receiver. *)
Theorem resolveReceiveTarget_open_synonym (rest : string) :
  resolveReceiveTarget ("open:" +:+ rest) = resolveReceiveTarget ("open_id:" +:+ rest).
Proof.
  rewrite (resolveReceiveTarget_kind "open:" ReceiveOpenId),
          (resolveReceiveTarget_kind "open_id:" ReceiveOpenId); [done | in_list | in_list].
Qed.

Lemma append_assoc (a b c : string) : (a +:+ b) +:+ c = a +:+ b +:+ c.
Proof.
  induction a as [|x a IH]; [done|].
  change (String x ((a +:+ b) +:+ c) = String x (a +:+ b +:+ c)). by rewrite IH.
Qed.

Lemma channel_prefix_letter channel :
  Js.toLowerCase channel ∈ ["feishu"; "lark"] →
  ∃ c rest, channel = String c rest ∧ Js.isWhiteSpace c = false.
Proof.
  rewrite !elem_of_cons, elem_of_nil.
  destruct channel as [|c rest]; simpl.
  - intros [H | [H | []]]; discriminate.
  - intros H. exists c, rest. split; [done|].
    apply lowerChar_not_space.
    destruct H as [H | [H | []]]; injection H as -> _; reflexivity.
Qed.

Lemma replacePrefixCI_channel channel rest :
  Js.toLowerCase channel ∈ ["feishu"; "lark"] →
  Js.replacePrefixCI ["feishu:"; "lark:"] (channel +:+ ":" +:+ rest) = rest.
Proof.
  rewrite !elem_of_cons, elem_of_nil. intros [H | [H | []]].
  - cbn [Js.replacePrefixCI].
    change "feishu:" with ("feishu" +:+ ":"). rewrite <- H.
    change (Js.toLowerCase channel +:+ ":") with
      (Js.toLowerCase channel +:+ Js.toLowerCase ":").
    rewrite <- toLowerCase_app.
    rewrite <- (append_assoc channel ":" rest).
    by rewrite dropPrefixCI_self.
  - cbn [Js.replacePrefixCI].
    assert (Js.dropPrefixCI "feishu:" (channel +:+ ":" +:+ rest) = None) as ->.
    { pose proof (dropPrefixCI_lower "feishu:" (channel +:+ ":" +:+ rest)) as Hlow.
      rewrite toLowerCase_app, H in Hlow.
      change (Js.dropPrefixCI "feishu:" ("lark" +:+ Js.toLowerCase (":" +:+ rest)))
        with (@None string) in Hlow.
      by destruct (Js.dropPrefixCI "feishu:" (channel +:+ ":" +:+ rest)). }
    change "lark:" with ("lark" +:+ ":"). rewrite <- H.
    change (Js.toLowerCase channel +:+ ":") with
      (Js.toLowerCase channel +:+ Js.toLowerCase ":").
    rewrite <- toLowerCase_app.
    rewrite <- (append_assoc channel ":" rest).
    by rewrite dropPrefixCI_self.
Qed.

(** X7. A target written with the channel name in front ([feishu:] or
    [lark:], in any letter case) addresses the receiver that the rest of it
    addresses. *)
Theorem normalizeFeishuTarget_same_receiver (channel rest : string) :
  Js.toLowerCase channel ∈ ["feishu"; "lark"] →
  resolveReceiveTarget (normalizeFeishuTarget (channel +:+ ":" +:+ rest))
  = resolveReceiveTarget rest.
Proof.
  intros Hchannel.
  destruct (channel_prefix_letter channel Hchannel) as (c & tail & -> & Hc).
  unfold normalizeFeishuTarget.
  change (String c tail +:+ ":" +:+ rest) with (String c tail +:+ String ":" rest).
  rewrite trim_framed by done.
  change (negb (Js.truthy (String c tail +:+ String ":" (Js.trimEnd rest)))) with false.
  cbv iota.
  change (String c tail +:+ String ":" (Js.trimEnd rest))
    with (String c tail +:+ ":" +:+ Js.trimEnd rest).
  rewrite (replacePrefixCI_channel _ _ Hchannel).
  unfold resolveReceiveTarget. by rewrite trim_trimEnd.
Qed.

Lemma normalizeFeishuTarget_same_receiver_witness :
  Js.toLowerCase "Lark" ∈ ["feishu"; "lark"] ∧
  resolveReceiveTarget (normalizeFeishuTarget ("Lark" +:+ ":" +:+ " user:U_7 "))
  = Some {| receiveIdType := ReceiveUserId; receiveId := "U_7" |}.
Proof.
  assert (Js.toLowerCase "Lark" ∈ ["feishu"; "lark"]) as Hchannel by in_list.
  split; [exact Hchannel|].
  exact (eq_trans (normalizeFeishuTarget_same_receiver "Lark" " user:U_7 " Hchannel)
                  eq_refl).
Defined.

Lemma trimStart_empty_trimEnd s : Js.trimStart s = "" → Js.trimEnd s = "".
Proof.
  induction s as [|c s IH]; [done|]. cbn [Js.trimStart]. rewrite trimEnd_cons.
  destruct (Js.isWhiteSpace c); [|done]. intros H. by rewrite (IH H).
Qed.

Lemma trim_empty_trimEnd s : Js.trim s = "" → Js.trimEnd s = "".
Proof.
  unfold Js.trim. rewrite <- trimStart_trimEnd. intros H.
  apply trimStart_empty_trimEnd in H. by rewrite trimEnd_idemp in H.
Qed.

(** X8. [sendFeishuText] makes at most one request and leaves the pairing
    store alone; it ends normally only after a request that the client
    accepted, to a target with a non-empty id; and a blank target makes it
    throw before any request. *)
Theorem sendFeishuText_one_request (core : FeishuCoreRuntime)
    (account : ResolvedFeishuAccount) (to text : string) (w : World) :
  let r := sendFeishuText core account to text w in
  pairingRequests r.2 = pairingRequests w ∧
  (∀ x, r.1 ≠ Return x) ∧
  (calls r.2 = calls w ∨
   ∃ target tenantKey,
     resolveReceiveTarget to = Some target ∧ receiveId target ≠ "" ∧
     calls r.2 = (calls w ++ [CallMessageCreate target text tenantKey])%list ∧
     (r.1 = Next tt ↔ messageCreateError core target text = None)) ∧
  (r.1 = Next tt → calls r.2 ≠ calls w) ∧
  (Js.trim to = "" → r = (Throw (Error "Feishu target is empty"), w)).
Proof.
  intros r. subst r. unfold sendFeishuText.
  pose proof (proj1 (resolveReceiveTarget_blank to)) as Hblank.
  destruct (resolveReceiveTarget to) as [target|] eqn:Htarget; cycle 1.
  { unfold throw. simpl. repeat split; try done; auto. }
  destruct (Js.truthy (receiveId target)) eqn:Hid; cbn [negb]; cycle 1.
  { unfold throw. simpl. repeat split; try done; auto.
    intros Hto. by apply Hblank in Hto. }
  assert (∀ tenantKey,
            let r := messageCreate core target text tenantKey w in
            pairingRequests r.2 = pairingRequests w ∧ (∀ x, r.1 ≠ Return x) ∧
            calls r.2 = (calls w ++ [CallMessageCreate target text tenantKey])%list ∧
            (r.1 = Next tt ↔ messageCreateError core target text = None)) as Hcreate.
  { intros tenantKey. unfold messageCreate. run_unfold. simpl.
    destruct (messageCreateError core target text); simpl; repeat split; done. }
  assert (∀ l : list Call, ∀ c, (l ++ [c])%list ≠ l) as Hgrow.
  { intros l c Heq. apply (f_equal length) in Heq. rewrite length_app in Heq.
    simpl in Heq. lia. }
  destruct (Js.truthy _ && lark_withTenantKey core);
    edestruct Hcreate as (Hstore & Hret & Hcalls & Hok);
    (split; [exact Hstore|]); (split; [exact Hret|]); (split; [|split]).
  - right. eexists _, _. split; [done|]. split; [by destruct (receiveId target)|].
    split; [exact Hcalls | exact Hok].
  - intros _. rewrite Hcalls. apply Hgrow.
  - intros Hto. by apply Hblank in Hto.
  - right. eexists _, _. split; [done|]. split; [by destruct (receiveId target)|].
    split; [exact Hcalls | exact Hok].
  - intros _. rewrite Hcalls. apply Hgrow.
  - intros Hto. by apply Hblank in Hto.
Qed.

Lemma sendFeishuText_one_request_witness :
  Js.trim "  " = "" ∧
  sendFeishuText sampleCore sampleAccount "  " "hi" emptyWorld
  = (Throw (Error "Feishu target is empty"), emptyWorld).
Proof.
  split; [reflexivity|].
  exact (proj2 (proj2 (proj2 (proj2
           (sendFeishuText_one_request sampleCore sampleAccount "  " "hi" emptyWorld))))
           eq_refl).
Defined.

(** X9. [looksLikeId] accepts every string that starts with a target label,
    whatever follows; when nothing but white space follows, [sendFeishuText]
    refuses the same string before any request. *)
Theorem looksLikeId_accepts_bare_label (core : FeishuCoreRuntime)
    (account : ResolvedFeishuAccount) (label : string) (kind : ReceiveIdType)
    (rest text : string) (w : World) :
  (label, kind) ∈ receiveTargetLabels →
  looksLikeId (label +:+ rest) = true ∧
  (Js.trim rest = "" →
   sendFeishuText core account (label +:+ rest) text w
   = (Throw (Error "Feishu target missing receive_id"), w)).
Proof.
  intros Hlabel. split.
  - revert Hlabel. unfold receiveTargetLabels. rewrite !elem_of_cons, elem_of_nil.
    unfold looksLikeId.
    intros [[= -> ->] | [[= -> ->] | [[= -> ->] | [[= -> ->] | []]]]].
    + change ("chat:" +:+ rest) with ("chat" +:+ String ":" rest).
      by rewrite trim_framed.
    + change ("open_id:" +:+ rest) with ("open_id" +:+ String ":" rest).
      by rewrite trim_framed.
    + change ("open:" +:+ rest) with ("open" +:+ String ":" rest).
      by rewrite trim_framed.
    + change ("user:" +:+ rest) with ("user" +:+ String ":" rest).
      by rewrite trim_framed.
  - intros Hrest. unfold sendFeishuText.
    rewrite (resolveReceiveTarget_kind label kind rest Hlabel), Hrest. reflexivity.
Qed.

Lemma looksLikeId_accepts_bare_label_witness :
  ("user:", ReceiveUserId) ∈ receiveTargetLabels ∧ Js.trim " " = "" ∧
  looksLikeId ("user:" +:+ " ") = true ∧
  sendFeishuText sampleCore sampleAccount ("user:" +:+ " ") "hi" emptyWorld
  = (Throw (Error "Feishu target missing receive_id"), emptyWorld).
Proof.
  assert (("user:", ReceiveUserId) ∈ receiveTargetLabels) as Hlabel by in_list.
  destruct (looksLikeId_accepts_bare_label sampleCore sampleAccount "user:"
              ReceiveUserId " " "hi" emptyWorld Hlabel) as [Hlooks Hsend].
  split; [exact Hlabel|]. split; [reflexivity|]. split; [exact Hlooks|].
  exact (Hsend eq_refl).
Defined.

(** ** What the first block lets through *)

Lemma readEvent_fields core event account w i :
  (readEvent core event account w).1 = Next i →
  ∃ m, message event = Some m ∧ in_message i = m ∧
       chatId i = default "" (Js.trim <$> chat_id m) ∧
       Js.truthy (chatId i) = true ∧
       isGroup i = isGroupChat (chat_type m) ∧
       senderId i = resolveSenderId (sender event) ∧
       rawContent i = match content m with ContentString s => s | _ => "" end ∧
       rawBody i = Js.trim (extractMessageText (JSON_parse core) (content m)) ∧
       Js.truthy (rawBody i) = true ∧
       (AccountConfig.allowBots (config account) ≠ Some true →
        (fun s => Js.trim (Js.toLowerCase s)) <$> (sender event ≫= sender_type)
          ≠ Some "bot" ∧
        (Js.truthy (senderId i) = true →
         Some (senderId i) ≠ Js.trim <$> AccountConfig.botOpenId (config account))).
Proof.
  unfold readEvent. destruct (message event) as [m|]; [|done].
  destruct (Js.truthy (default "" (Js.trim <$> chat_id m))) eqn:Hchat; [|done].
  cbn [negb].
  set (senderType := (fun s => Js.trim (Js.toLowerCase s)) <$> _).
  set (sid := resolveSenderId (sender event)).
  set (body := Js.trim _).
  destruct (bool_decide (AccountConfig.allowBots (config account) = Some true))
    eqn:Hallow; cbn [negb].
  - when_reduce. rewrite (bind_Next _ _ w tt w) by reflexivity.
    destruct (Js.truthy body) eqn:Hbody; [|done]. cbn [negb].
    intros [= <-]. exists m. repeat split; try done.
    all: intros Hno; by apply bool_decide_eq_true_1 in Hallow.
  - destruct (bool_decide (senderType = Some "bot")) eqn:Htype.
    { when_reduce. intros Hnext. exfalso. revert Hnext.
      pose proof (runs_log_and_return (A:=unit) core
                    ("skip bot-authored message (" +:+ Js.or_else sid "unknown" +:+ ")")
                    ExitBotAuthored w) as Hruns.
      intros Hnext. erewrite bind_Return in Hnext; [done|].
      apply bind_Return. exact Hruns. }
    destruct (Js.truthy sid &&
              bool_decide (Some sid = Js.trim <$> AccountConfig.botOpenId (config account)))
      eqn:Hself.
    { when_reduce. intros Hnext. exfalso. revert Hnext.
      pose proof (runs_log_and_return (A:=unit) core
                    "skip bot-authored message (bot open_id)" ExitBotAuthored w)
        as Hruns.
      intros Hnext. erewrite bind_Return in Hnext; [done|].
      rewrite (bind_Next _ _ w tt w) by reflexivity. exact Hruns. }
    when_reduce.
    rewrite (bind_Next _ _ w tt w) by reflexivity.
    destruct (Js.truthy body) eqn:Hbody; [|done]. cbn [negb].
    intros [= <-]. exists m. repeat split; try done.
    + by apply bool_decide_eq_false_1 in Htype.
    + cbn [senderId]. intros Hsid. fold sid in Hsid. rewrite Hsid in Hself.
      by apply bool_decide_eq_false_1 in Hself.
Qed.

Lemma readEvent_facts (core : FeishuCoreRuntime) (event : FeishuMessageEvent)
    (account : ResolvedFeishuAccount) (w : World) (i : Inbound) :
  (readEvent core event account w).1 = Next i →
  chatId i ≠ "" ∧ Js.trim (chatId i) = chatId i ∧
  rawBody i ≠ "" ∧ Js.trim (rawBody i) = rawBody i ∧
  Js.trim (senderId i) = senderId i ∧
  (AccountConfig.allowBots (config account) ≠ Some true →
   (fun s => Js.trim (Js.toLowerCase s)) <$> (sender event ≫= sender_type) ≠ Some "bot" ∧
   (senderId i ≠ "" →
    Some (senderId i) ≠ Js.trim <$> AccountConfig.botOpenId (config account))).
Proof.
  intros Hnext.
  destruct (readEvent_fields _ _ _ _ _ Hnext)
    as (m & _ & _ & Hchat & Hchat' & _ & Hsid & _ & Hbody & Hbody' & Hbots).
  split; [by destruct (chatId i)|]. split.
  { rewrite Hchat. destruct (chat_id m); simpl; [apply trim_idemp | done]. }
  split; [by destruct (rawBody i)|]. split; [rewrite Hbody; apply trim_idemp|].
  split; [rewrite Hsid; apply resolveSenderId_trim|].
  intros Hallow. destruct (Hbots Hallow) as [Htype Hself]. split; [done|].
  intros Hne. apply Hself. by destruct (senderId i).
Qed.

(** X10. Every event that gets past the first block has a chat id and a body
    that are not empty and carry no white space at either end, and a trimmed
    sender id; and unless [allowBots] is set it is neither of sender type
    [bot] nor sent under the bot's own [open_id]. *)
Theorem readEvent_invariants (core : FeishuCoreRuntime) (event : FeishuMessageEvent)
    (account : ResolvedFeishuAccount) (w : World) (i : Inbound) :
  (readEvent core event account w).1 = Next i →
  chatId i ≠ "" ∧ Js.trim (chatId i) = chatId i ∧
  rawBody i ≠ "" ∧ Js.trim (rawBody i) = rawBody i ∧
  Js.trim (senderId i) = senderId i ∧
  (AccountConfig.allowBots (config account) ≠ Some true →
   (fun s => Js.trim (Js.toLowerCase s)) <$> (sender event ≫= sender_type) ≠ Some "bot" ∧
   (senderId i ≠ "" →
    Some (senderId i) ≠ Js.trim <$> AccountConfig.botOpenId (config account))).
Proof. exact (readEvent_facts core event account w i). Qed.

Lemma readEvent_invariants_witness :
  let event := sampleEvent "p2p" " oc_dm " " ou_u1" " status " in
  let i := {| in_message := sampleMessage "p2p" " oc_dm " " status ";
              chatId := "oc_dm"; isGroup := false; senderId := "ou_u1";
              rawContent := ""; rawBody := "status" |} in
  (readEvent sampleCore event sampleAccount emptyWorld).1 = Next i ∧
  chatId i ≠ "" ∧ rawBody i ≠ "".
Proof.
  intros event i. split; [reflexivity|].
  destruct (readEvent_invariants sampleCore event sampleAccount emptyWorld i eq_refl)
    as (Hchat & _ & Hbody & _).
  split; [exact Hchat | exact Hbody].
Defined.

(** ** Where replies go *)

Lemma resolveReceiveTarget_labelled label kind id :
  (label, kind) ∈ receiveTargetLabels → Js.trim id = id →
  resolveReceiveTarget (label +:+ id) = Some {| receiveIdType := kind; receiveId := id |}.
Proof.
  intros Hlabel Hid. by rewrite (resolveReceiveTarget_kind label kind id Hlabel), Hid.
Qed.

(** X11. The reply to an event that got past the first block is sent to the
    chat the event came from, with the text as the dispatcher gave it; a
    blank reply sends nothing; and the status is updated only after the
    request succeeded. *)
Theorem deliver_to_chat (core : FeishuCoreRuntime) (event : FeishuMessageEvent)
    (account : ResolvedFeishuAccount) (w0 w : World) (i : Inbound)
    (payloadText : option string) :
  (readEvent core event account w0).1 = Next i →
  let r := deliver core account (chatId i) payloadText w in
  let target := {| receiveIdType := ReceiveChatId; receiveId := chatId i |} in
  let text := default "" payloadText in
  (default "" (Js.trim <$> payloadText) = "" → r = (Next tt, w)) ∧
  (default "" (Js.trim <$> payloadText) ≠ "" →
   ∃ tenantKey,
     match messageCreateError core target text with
     | None =>
         r = (Next tt,
              addCalls w (CallMessageCreate target text tenantKey ::
                          if statusSink core then [CallStatusSink (Date_now core)]
                          else []))
     | Some msg =>
         r = (Throw (Error msg), addCalls w [CallMessageCreate target text tenantKey])
     end).
Proof.
  intros Hnext r target text. subst r.
  destruct (readEvent_facts _ _ _ _ _ Hnext) as (Hne & Htrim & _).
  unfold deliver.
  destruct (default "" (Js.trim <$> payloadText)) as [|c t] eqn:Hpayload;
    cbn [Js.truthy negb]; (split; [done|]); [done|].
  intros _. unfold sendFeishuText.
  rewrite (resolveReceiveTarget_labelled "chat:" ReceiveChatId (chatId i));
    [|in_list|done].
  cbn [receiveId]. destruct (chatId i) as [|c' t'] eqn:Hchat; [done|].
  cbn [Js.truthy negb]. fold target. fold text.
  exists (if Js.truthy (default "" (Js.trim <$> AccountConfig.tenantKey (config account)))
             && lark_withTenantKey core
          then Some (default "" (Js.trim <$> AccountConfig.tenantKey (config account)))
          else None).
  destruct (Js.truthy _ && lark_withTenantKey core);
    unfold messageCreate; run_unfold; unfold addCalls;
    destruct (messageCreateError core target text); try reflexivity;
    destruct (statusSink core); cbn [calls pairingRequests];
    by rewrite <- ?app_assoc, ?app_nil_r.
Qed.

Lemma deliver_to_chat_witness :
  let event := sampleEvent "p2p" "oc_dm" "ou_u1" "status" in
  (readEvent sampleCore event sampleAccount emptyWorld).1 = Next sampleDirectInbound ∧
  deliver sampleCore sampleAccount "oc_dm" (Some "  ") emptyWorld = (Next tt, emptyWorld).
Proof.
  intros event. split; [reflexivity|].
  exact (proj1 (deliver_to_chat sampleCore event sampleAccount emptyWorld emptyWorld
                  sampleDirectInbound (Some "  ") eq_refl) eq_refl).
Defined.

(** X12. The pairing reply is addressed to the sender by [open_id]; for an
    event that carries no sender id there is nobody to address, and sending
    throws before any request. *)
Theorem pairing_reply_target (core : FeishuCoreRuntime) (event : FeishuMessageEvent)
    (account : ResolvedFeishuAccount) (w0 w : World) (i : Inbound) (text : string) :
  (readEvent core event account w0).1 = Next i →
  (senderId i ≠ "" →
   resolveReceiveTarget ("open_id:" +:+ senderId i)
   = Some {| receiveIdType := ReceiveOpenId; receiveId := senderId i |}) ∧
  (senderId i = "" →
   sendFeishuText core account ("open_id:" +:+ senderId i) text w
   = (Throw (Error "Feishu target missing receive_id"), w)).
Proof.
  intros Hnext.
  destruct (readEvent_facts _ _ _ _ _ Hnext) as (_ & _ & _ & _ & Htrim & _).
  split.
  - intros _. apply resolveReceiveTarget_labelled; [in_list | done].
  - intros Hempty. unfold sendFeishuText.
    rewrite (resolveReceiveTarget_labelled "open_id:" ReceiveOpenId (senderId i));
      [|in_list|done].
    by rewrite Hempty.
Qed.

Lemma pairing_reply_target_witness :
  let event := sampleEvent "p2p" "oc_dm" "ou_u1" "status" in
  (readEvent sampleCore event sampleAccount emptyWorld).1 = Next sampleDirectInbound ∧
  resolveReceiveTarget ("open_id:" +:+ "ou_u1")
  = Some {| receiveIdType := ReceiveOpenId; receiveId := "ou_u1" |}.
Proof.
  intros event. split; [reflexivity|].
  apply (proj1 (pairing_reply_target sampleCore event sampleAccount emptyWorld
                  emptyWorld sampleDirectInbound "" eq_refl)).
  discriminate.
Defined.

(** ** Whole runs *)

Lemma onlyLogs_harmless new : onlyLogs new → harmless new.
Proof.
  intros [msgs ->]. unfold harmless, upserts, messagesCreated, dispatched.
  induction msgs as [|m msgs IH]; [done|]. exact IH.
Qed.

Lemma onlyLogs_nil : onlyLogs [].
Proof. by exists []. Qed.


Lemma harmless_app l1 l2 : harmless l1 → harmless l2 → harmless (l1 ++ l2).
Proof.
  unfold harmless, upserts, messagesCreated, dispatched.
  intros (H1 & H2 & H3) (H4 & H5 & H6).
  by rewrite !omap_app, H1, H2, H3, H4, H5, H6.
Qed.











Lemma resolveCommandAuth_group core account cfg sid body groupUsers :
  ∃ auth, runs (resolveCommandAuth core account cfg true sid body groupUsers)
               (Next auth) [].
Proof.
  unfold resolveCommandAuth. cbn [negb andb]. eexists.
  eapply (runs_bind _ _ _ [] _ []); apply runs_ret.
Qed.

Lemma pipeline_group core event account cfg w i :
  readEvent core event account w = (Next i, w) →
  isGroup i = true →
  let resolved :=
    resolveGroupConfig (chatId i) None (AccountConfig.groups (config account)) in
  processMessageWithPipeline core event account cfg w
  = (groupGate core account (chatId i) (senderId i) (groupPolicyOf account cfg) resolved;;
     auth ← resolveCommandAuth core account cfg true (senderId i) (rawBody i)
              (groupUsersOf (entry resolved));
     effectiveWasMentioned ←
       mentionGateBlock core account cfg i (entry resolved) (commandAuthorized auth);
     controlCommandGate core cfg i (commandAuthorized auth);;
     let '(route, storePath, ctxPayload) :=
       buildContext core event account cfg i (entry resolved) effectiveWasMentioned
         (commandAuthorized auth) in
     dispatch core route storePath ctxPayload) w.
Proof.
  intros Hread Hi resolved. unfold processMessageWithPipeline.
  rewrite (bind_Next _ _ _ _ _ Hread). cbv zeta.
  destruct i as [m chat g sid rc rb]. simpl in Hi. subst g.
  reflexivity.
Qed.





(** The DM gate in every policy: it drops the event, with at most one
    pairing request and one reply, or it lets the event through and has
    done nothing but logging. *)
Lemma dmGate_cases core account sid auth w :
  ∃ r new requests,
    dmGate core account sid auth w
      = (r, {| calls := (calls w ++ new)%list; pairingRequests := requests |}) ∧
    dispatched new = [] ∧
    (length (upserts new) ≤ 1)%nat ∧ (length (messagesCreated new) ≤ 1)%nat ∧
    ((∃ x, r = Return x) ∨
     r = Next tt ∧ new = [] ∧ requests = pairingRequests w).
Proof.
  assert (∀ msg x,
            ∃ new, (logVerbose core msg;; @return_ unit x) w
                   = (Return x, {| calls := (calls w ++ new)%list;
                                   pairingRequests := pairingRequests w |}) ∧
                   harmless new) as Hlog.
  { intros msg x. eexists. split; [apply runs_log_and_return|].
    apply onlyLogs_harmless.
    destruct (_ && _); [by exists [("[feishu] " +:+ msg)] | apply onlyLogs_nil]. }
  assert (dmGate core account sid auth w
          = (Next tt, {| calls := (calls w ++ [])%list;
                         pairingRequests := pairingRequests w |}) →
          ∃ r new requests,
            dmGate core account sid auth w
              = (r, {| calls := (calls w ++ new)%list; pairingRequests := requests |}) ∧
            dispatched new = [] ∧
            (length (upserts new) ≤ 1)%nat ∧ (length (messagesCreated new) ≤ 1)%nat ∧
            ((∃ x, r = Return x) ∨
             r = Next tt ∧ new = [] ∧ requests = pairingRequests w)) as Hpass.
  { intros Heq. exists (Next tt), [], (pairingRequests w).
    split; [exact Heq|]. simpl. repeat split; try lia. by right. }
  assert (∀ x new,
            dmGate core account sid auth w
            = (Return x, {| calls := (calls w ++ new)%list;
                            pairingRequests := pairingRequests w |}) →
            harmless new →
            ∃ r new requests,
              dmGate core account sid auth w
                = (r, {| calls := (calls w ++ new)%list; pairingRequests := requests |}) ∧
              dispatched new = [] ∧
              (length (upserts new) ≤ 1)%nat ∧ (length (messagesCreated new) ≤ 1)%nat ∧
              ((∃ x, r = Return x) ∨
               r = Next tt ∧ new = [] ∧ requests = pairingRequests w)) as Hdrop.
  { intros x new Heq (Hu & Hm & Hd). exists (Return x), new, (pairingRequests w).
    split; [exact Heq|]. rewrite Hu, Hm. simpl. repeat split; try done; try lia.
    left. eauto. }
  assert (∀ w0 : World, {| calls := (calls w0 ++ [])%list;
                           pairingRequests := pairingRequests w0 |} = w0) as Hnil.
  { intros [c p]. simpl. by rewrite app_nil_r. }
  destruct (bool_decide (dmPolicy auth = DmDisabled) ||
            bool_decide (AccountConfig.dm (config account) ≫= DmConfig.enabled
                         = Some false)) eqn:Hdisabled.
  { destruct (Hlog ("Blocked Feishu DM from " +:+ sid +:+ " (dmPolicy=disabled)")
                ExitDmDisabled) as (new & Hrun & Hnew).
    apply (Hdrop ExitDmDisabled new); [|done].
    unfold dmGate. rewrite Hdisabled. when_reduce. by apply bind_Return. }
  pose proof Hdisabled as Hgate.
  apply orb_false_iff in Hdisabled as [_ Henabled].
  apply bool_decide_eq_false_1 in Henabled.
  destruct (decide (dmPolicy auth = DmOpen)) as [Hopen|Hopen].
  { apply Hpass. rewrite Hnil. by apply dmGate_open. }
  destruct (senderAllowedForCommands auth) eqn:Hallowed.
  { apply Hpass. rewrite Hnil. unfold dmGate.
    by rewrite Hgate, Hallowed, (bool_decide_eq_false_2 _ Hopen). }
  destruct (decide (dmPolicy auth = DmPairing)) as [Hpairing|Hpairing].
  { destruct (dmGate_pairing core account sid auth w Hpairing Henabled Hallowed)
      as (new & requests & Hrun & Hups & Hdisp & Hlen & _).
    exists (Return ExitDmUnauthorized), new, requests.
    split; [exact Hrun|]. rewrite Hups. simpl. repeat split; try done; try lia.
    left. eauto. }
  destruct (Hlog ("Blocked unauthorized Feishu sender " +:+ sid +:+ " (dmPolicy="
                    +:+ DmPolicy_to_string (dmPolicy auth) +:+ ")")
              ExitDmUnauthorized) as (new & Hrun & Hnew).
  apply (Hdrop ExitDmUnauthorized new); [|done].
  unfold dmGate.
  rewrite Hgate, Hallowed, (bool_decide_eq_false_2 _ Hopen),
          (bool_decide_eq_false_2 _ Hpairing).
  when_reduce. rewrite (bind_Next _ _ w tt w) by reflexivity. exact Hrun.
Qed.






(** ** The calls a run can make *)

Section Footprint.
Context (P : Call → Prop).

Lemma footprint_ret {A} (a : A) : footprint P (mret a).
Proof. intros w. exists []. split; [by rewrite app_nil_r | constructor]. Qed.

Lemma footprint_return {A} x : footprint P (@return_ A x).
Proof. intros w. exists []. split; [by rewrite app_nil_r | constructor]. Qed.

Lemma footprint_throw {A} e : footprint P (@throw A e).
Proof. intros w. exists []. split; [by rewrite app_nil_r | constructor]. Qed.

Lemma footprint_call c : P c → footprint P (call c).
Proof. intros Hc w. exists [c]. split; [done | by repeat constructor]. Qed.

Lemma footprint_bind {A B} (m : Run A) (f : A → Run B) :
  footprint P m → (∀ a, footprint P (f a)) → footprint P (m ≫= f).
Proof.
  intros Hm Hf w. destruct (Hm w) as (n1 & Hcalls & Hn1).
  unfold mbind, Run_bind. destruct (m w) as [[a|x|e] w1]; cbn [snd] in *.
  - destruct (Hf a w1) as (n2 & Hcalls2 & Hn2). exists (n1 ++ n2)%list.
    split; [by rewrite Hcalls2, Hcalls, app_assoc | by apply Forall_app].
  - by exists n1.
  - by exists n1.
Qed.

Lemma footprint_try {A} (body : Run A) handler :
  footprint P body → (∀ e, footprint P (handler e)) →
  footprint P (try_catch body handler).
Proof.
  intros Hb Hh w. destruct (Hb w) as (n1 & Hcalls & Hn1).
  unfold try_catch. destruct (body w) as [[a|x|e] w1]; cbn [snd] in *.
  - by exists n1.
  - by exists n1.
  - destruct (Hh e w1) as (n2 & Hcalls2 & Hn2). exists (n1 ++ n2)%list.
    split; [by rewrite Hcalls2, Hcalls, app_assoc | by apply Forall_app].
Qed.

Lemma footprint_when c body : footprint P body → footprint P (when c body).
Proof. destruct c; [done | intros _; apply (footprint_ret tt)]. Qed.

Lemma footprint_store core channel id : footprint P (pairingStoreUpsert core channel id).
Proof.
  intros w. exists []. unfold pairingStoreUpsert.
  destruct (pairingRequests w !! (channel, id)); simpl;
    (split; [by rewrite app_nil_r | constructor]).
Qed.


End Footprint.

Ltac footprint_solve :=
  repeat first
    [ apply footprint_ret | apply footprint_return | apply footprint_throw
    | apply footprint_store
    | apply footprint_call; exact I
    | apply footprint_when | apply footprint_try; [|intros ?]
    | apply footprint_bind; [|intros ?]
    | match goal with
      | |- footprint _ (if ?c then _ else _) => destruct c
      | |- footprint _ (match ?x with _ => _ end) => destruct x
      end ].

Lemma dmGate_no_store_read core account sid auth :
  footprint notStoreRead (dmGate core account sid auth).
Proof.
  unfold dmGate, upsertPairingRequest, sendFeishuText, messageCreate, logVerbose.
  footprint_solve.
Qed.


Lemma notStoreRead_storeReads new : Forall notStoreRead new → storeReads new = [].
Proof.
  unfold storeReads. induction 1 as [|c new Hc _ IH]; [done|].
  by destruct c.
Qed.




Lemma resolveCommandAuth_direct_reads core account cfg sid body groupUsers :
  ∃ auth,
    runs (resolveCommandAuth core account cfg false sid body groupUsers) (Next auth)
         (if negb (bool_decide (dmPolicyOf account = DmOpen))
             || shouldComputeCommandAuthorized core body cfg
          then [CallReadAllowFromStore "feishu"] else []).
Proof.
  unfold resolveCommandAuth, readAllowFromStore_or_empty. cbn [negb andb].
  destruct (negb (bool_decide (dmPolicyOf account = DmOpen))
            || shouldComputeCommandAuthorized core body cfg); eexists.
  - eapply (runs_bind _ _ _ [_] _ []); [|apply runs_ret].
    eapply (runs_bind _ _ tt [_] _ []); [apply runs_call | apply runs_ret].
  - eapply (runs_bind _ _ _ [] _ []); apply runs_ret.
Qed.

(** X15. For a direct event that gets past the first block, the allow-from
    store is read exactly once when the DM policy is not [open] or the
    command authorization has to be computed, and not at all otherwise. *)
Theorem direct_event_store_read (core : FeishuCoreRuntime)
    (event : FeishuMessageEvent) (account : ResolvedFeishuAccount)
    (cfg : OpenClawConfig.t) (w : World) (i : Inbound) :
  (readEvent core event account w).1 = Next i →
  isGroup i = false →
  let r := processMessageWithPipeline core event account cfg w in
  ∃ new,
    calls r.2 = (calls w ++ new)%list ∧
    storeReads new
    = if negb (bool_decide (dmPolicyOf account = DmOpen))
         || shouldComputeCommandAuthorized core (rawBody i) cfg
      then ["feishu"] else [].
Proof.
  intros Hnext Hi r. subst r.
  rewrite (pipeline_direct _ _ _ _ _ i (readEvent_Next _ _ _ _ _ Hnext w) Hi).
  destruct (resolveCommandAuth_direct_reads core account cfg (senderId i) (rawBody i)
              (groupUsersOf
                 (entry (resolveGroupConfig (chatId i) None
                           (AccountConfig.groups (config account))))))
    as (auth & Hauth).
  rewrite (bind_Next _ _ _ _ _ (Hauth w)).
  set (n1 := if _ || _ then _ else _) in *.
  set (rest := _ ≫= _).
  assert (footprint notStoreRead rest) as Hrest.
  { subst rest. apply footprint_bind; [apply dmGate_no_store_read|]. intros _.
    destruct (buildContext _ _ _ _ _ _ _ _) as [[route storePath] ctx].
    unfold dispatch. footprint_solve. }
  destruct (Hrest (addCalls w n1)) as (n2 & Hcalls & Hn2).
  exists (n1 ++ n2)%list. split; [rewrite Hcalls; cbn [addCalls calls]; by rewrite <- app_assoc|].
  unfold storeReads. rewrite omap_app.
  fold (storeReads n2). rewrite (notStoreRead_storeReads _ Hn2), app_nil_r.
  subst n1. by destruct (_ || _).
Qed.

Lemma direct_event_store_read_witness :
  let event := sampleEvent "p2p" "oc_dm" "ou_u1" "status" in
  let r :=
    processMessageWithPipeline sampleCore event sampleAccount sampleConfig emptyWorld in
  (readEvent sampleCore event sampleAccount emptyWorld).1 = Next sampleDirectInbound ∧
  isGroup sampleDirectInbound = false ∧
  ∃ new, calls r.2 = new ∧ storeReads new = ["feishu"].
Proof.
  intros event r.
  destruct (direct_event_store_read sampleCore event sampleAccount sampleConfig
              emptyWorld sampleDirectInbound eq_refl eq_refl) as (new & Hcalls & Hreads).
  split; [reflexivity|]. split; [reflexivity|]. exists new. split; [exact Hcalls|].
  exact Hreads.
Defined.

(** ** Which events are admitted *)

Lemma decides_ret : decides (mret tt) true.
Proof. intros w. exists (Next tt), []. split; [|done]. by rewrite addCalls_nil. Qed.

Lemma decides_drop core msg x : decides (logVerbose core msg;; return_ x) false.
Proof.
  intros w.
  exists (Return x),
         (if shouldLogVerbose core && runtime_log core then ["[feishu] " +:+ msg] else []).
  split; [|eauto]. rewrite (runs_log_and_return core msg x w). by destruct (_ && _).
Qed.

Lemma decides_when b body c : decides body c → decides (when b body) (negb b || c).
Proof. destruct b; [done|]. intros _. apply decides_ret. Qed.

Lemma decides_seq (m1 m2 : Run unit) c1 c2 :
  decides m1 c1 → decides m2 c2 → decides (m1;; m2) (c1 && c2).
Proof.
  intros H1 H2 w. destruct (H1 w) as (r1 & l1 & Hrun1 & Hc1). destruct c1.
  - destruct Hc1 as [-> ->]. rewrite (bind_Next _ _ _ _ _ Hrun1).
    change (CallLog <$> []) with (@nil Call). rewrite addCalls_nil. exact (H2 w).
  - destruct Hc1 as [x ->]. exists (Return x), l1.
    split; [exact (bind_Return _ _ _ _ _ Hrun1) | cbn [andb]; eauto].
Qed.

Lemma decides_eq m c c' : c = c' → decides m c → decides m c'.
Proof. by intros ->. Qed.

Ltac decides_solve :=
  repeat first [ apply decides_drop | apply decides_ret
               | apply decides_when | apply decides_seq ].

Lemma groupGate_decides core account chatId senderId groupPolicy resolved :
  decides (groupGate core account chatId senderId groupPolicy resolved)
    (match groupPolicy with
     | GroupDisabled => false
     | GroupAllowlist =>
         allowlistConfigured resolved &&
         (bool_decide (is_Some (entry resolved)) ||
          bool_decide
            (is_Some (default ∅ (AccountConfig.groups (config account)) !! "*")))
     | GroupOpen => true
     end
     && negb (bool_decide (entry resolved ≫= GroupEntry.enabled = Some false))
     && negb (bool_decide (entry resolved ≫= GroupEntry.allow = Some false))
     && match String_of <$> groupUsersOf (entry resolved) with
        | [] => true
        | users => isSenderAllowed senderId users
        end).
Proof.
  eapply decides_eq; [|unfold groupGate; cbv zeta; decides_solve].
  destruct groupPolicy; cbn [negb orb andb];
    change (bool_decide (GroupAllowlist = GroupDisabled)) with false;
    change (bool_decide (GroupAllowlist = GroupAllowlist)) with true;
    change (bool_decide (GroupOpen = GroupDisabled)) with false;
    change (bool_decide (GroupOpen = GroupAllowlist)) with false;
    change (bool_decide (GroupDisabled = GroupDisabled)) with true;
    cbn [negb orb andb]; [| |done].
  - destruct (allowlistConfigured resolved), (bool_decide (is_Some (entry resolved)) || _),
      (bool_decide (entry resolved ≫= GroupEntry.enabled = Some false)),
      (bool_decide (entry resolved ≫= GroupEntry.allow = Some false)),
      (groupUsersOf (entry resolved)) as [|u us]; cbn [negb orb andb fmap list_fmap length Nat.ltb Nat.leb];
      try done; by destruct (isSenderAllowed _ _).
  - destruct (bool_decide (entry resolved ≫= GroupEntry.enabled = Some false)),
      (bool_decide (entry resolved ≫= GroupEntry.allow = Some false)),
      (groupUsersOf (entry resolved)) as [|u us]; cbn [negb orb andb fmap list_fmap length Nat.ltb Nat.leb];
      try done; by destruct (isSenderAllowed _ _).
Qed.

Lemma getProperty_wildcard entries : getProperty entries "*" = entries !! "*".
Proof.
  unfold getProperty. destruct (entries !! "*"); [done|].
  rewrite bool_decide_eq_false_2; [done|].
  unfold Object_prototype. rewrite !elem_of_cons, elem_of_nil. intuition discriminate.
Qed.

Lemma resolveGroupConfig_entry groupId groupName groups :
  let entries := default ∅ groups in
  let look (key : string) := if Js.truthy key then getProperty entries key else None in
  entry (resolveGroupConfig groupId groupName groups)
  = if bool_decide (size entries = 0%nat) then None
    else
      orElse (look groupId)
        (orElse (look (default "" groupName))
           (orElse (look (default "" ((fun n => Js.toLowerCase (Js.trim n)) <$> groupName)))
              (entries !! "*"))).
Proof.
  intros entries look. unfold resolveGroupConfig. fold entries. rewrite length_fmap.
  rewrite length_map_to_list.
  case_bool_decide as Hlen; [done|].
  cbn [entry]. rewrite getProperty_wildcard. subst look. cbv beta.
  set (name := default "" groupName).
  set (normalizedName := default "" (_ <$> groupName)).
  unfold List.filter.
  destruct (Js.truthy groupId), (Js.truthy name), (Js.truthy normalizedName);
    cbn [omap list_omap head orElse];
    repeat (destruct (getProperty entries _); cbn [omap list_omap head orElse]); done.
Qed.

(** X16. The group map is indexed as a plain object: a key finds the entry
    that the map has under it, and otherwise, when it names a member of
    [Object.prototype], that member, which reads as an entry with nothing
    set. The entry of a chat is looked up that way under the chat id, then
    under the group name as given, then under the trimmed and lower-cased
    group name, an empty key never being looked up, and is the entry of
    ["*"] when none of them finds anything; a map without entries resolves
    to no entry at all, and the map counts as a configured allow-list
    exactly when it has an entry of its own. *)
Theorem resolveGroupConfig_precedence (groupId : string) (groupName : option string)
    (groups : option (gmap string GroupEntry.t)) :
  let entries := default ∅ groups in
  let look (key : string) := if Js.truthy key then getProperty entries key else None in
  let resolved := resolveGroupConfig groupId groupName groups in
  entry resolved
  = (if bool_decide (size entries = 0%nat) then None
     else
       orElse (look groupId)
         (orElse (look (default "" groupName))
            (orElse
               (look (default "" ((fun n => Js.toLowerCase (Js.trim n)) <$> groupName)))
               (entries !! "*")))) ∧
  (allowlistConfigured resolved = true ↔ ∃ key e, entries !! key = Some e) ∧
  (allowlistConfigured resolved = true → fallback resolved = entries !! "*") ∧
  (∀ key, getProperty entries key
          = orElse (entries !! key)
              (if bool_decide (key ∈ Object_prototype) then Some inheritedMember
               else None)).
Proof.
  intros entries look resolved. split; [apply resolveGroupConfig_entry|].
  pose proof (resolveGroupConfig_unconfigured groupId groupName groups) as Hnone.
  fold entries resolved in Hnone. split; [|split].
  - split.
    + intros Hsome. destruct (decide (entries = ∅)) as [Hempty|Hne].
      * apply Hnone in Hempty. congruence.
      * destruct (map_choose entries Hne) as (key & e & He). eauto.
    + intros (key & e & He). destruct (allowlistConfigured resolved) eqn:Hc; [done|].
      apply (resolveGroupConfig_unconfigured groupId groupName groups) in Hc.
      fold entries in Hc. by rewrite Hc, lookup_empty in He.
  - subst resolved. unfold resolveGroupConfig. fold entries.
    case_bool_decide; [done|]. intros _. apply getProperty_wildcard.
  - intros key. unfold getProperty. by destruct (entries !! key).
Qed.

Lemma resolveGroupConfig_precedence_witness :
  let quiet := {| GroupEntry.enabled := None; GroupEntry.allow := None;
                  GroupEntry.requireMention := Some false;
                  GroupEntry.users := None; GroupEntry.systemPrompt := None |} in
  let resolved := resolveGroupConfig "toString" None (Some {[ "*" := quiet ]}) in
  allowlistConfigured resolved = true ∧
  fallback resolved = ({[ "*" := quiet ]} : gmap string GroupEntry.t) !! "*" ∧
  entry resolved = Some inheritedMember.
Proof.
  intros quiet resolved.
  assert (allowlistConfigured resolved = true) as Hconfigured
    by (vm_compute; reflexivity).
  destruct (resolveGroupConfig_precedence "toString" None (Some {[ "*" := quiet ]}))
    as (Hentry & _ & Hfallback & _).
  split; [exact Hconfigured|]. split; [exact (Hfallback Hconfigured)|].
  fold resolved in Hentry. rewrite Hentry. vm_compute. reflexivity.
Defined.

Lemma mentionGateBlock_cases core account cfg i groupEntry ca w :
  let gate :=
    resolveMentionGatingWithBypass (mentionGateParams core account cfg i groupEntry ca) in
  if shouldSkip gate
  then ∃ msgs, mentionGateBlock core account cfg i groupEntry ca w
               = (Return ExitMentionRequired, addCalls w (CallLog <$> msgs))
  else mentionGateBlock core account cfg i groupEntry ca w
       = (Next (Some (effectiveWasMentioned gate)), w).
Proof.
  intros gate. unfold mentionGateBlock. fold gate. destruct (shouldSkip gate).
  - when_reduce.
    exists (if shouldLogVerbose core && runtime_log core
            then ["[feishu] " +:+ "drop group message (mention required, chat="
                    +:+ chatId i +:+ ")"]
            else []).
    rewrite (bind_Return _ _ _ _ _ (runs_log_and_return core _ ExitMentionRequired w)).
    by destruct (_ && _).
  - reflexivity.
Qed.

Lemma controlCommandGate_decides core cfg i ca :
  decides (controlCommandGate core cfg i ca)
    (negb (isGroup i && isControlCommandMessage core (rawBody i) cfg &&
           negb (bool_decide (ca = Some true)))).
Proof.
  eapply decides_eq; [|unfold controlCommandGate; decides_solve].
  apply orb_false_r.
Qed.

Lemma dispatched_handover recorded ctx :
  dispatched [recorded] = [] → dispatched [recorded; CallDispatch ctx] = [ctx].
Proof.
  intros Hrec. unfold dispatched in *.
  change [recorded; CallDispatch ctx] with ([recorded] ++ [CallDispatch ctx])%list.
  by rewrite omap_app, Hrec.
Qed.

Lemma pipeline_group_admission core event account cfg w i groupEntry auth G :
  readEvent core event account w = (Next i, w) →
  isGroup i = true →
  entry (resolveGroupConfig (chatId i) None (AccountConfig.groups (config account)))
  = groupEntry →
  runs (resolveCommandAuth core account cfg true (senderId i) (rawBody i)
          (groupUsersOf groupEntry)) (Next auth) [] →
  decides (groupGate core account (chatId i) (senderId i) (groupPolicyOf account cfg)
             (resolveGroupConfig (chatId i) None (AccountConfig.groups (config account))))
          G →
  let gate :=
    resolveMentionGatingWithBypass
      (mentionGateParams core account cfg i groupEntry (commandAuthorized auth)) in
  let r := processMessageWithPipeline core event account cfg w in
  ∃ new,
    calls r.2 = (calls w ++ new)%list ∧
    if G && negb (shouldSkip gate)
       && negb (isControlCommandMessage core (rawBody i) cfg &&
                negb (bool_decide (commandAuthorized auth = Some true)))
    then dispatched new
         = [(buildContext core event account cfg i groupEntry
               (Some (effectiveWasMentioned gate)) (commandAuthorized auth)).2]
    else (∃ x, r.1 = Return x) ∧ onlyLogs new.
Proof.
  intros Hread Hi Hentry Hauth HG gate r. subst r.
  rewrite (pipeline_group _ _ _ _ _ i Hread Hi). cbv zeta. rewrite Hentry.
  destruct (HG w) as (r1 & l1 & Hrun1 & Hc1). destruct G; cbn [andb]; cycle 1.
  { destruct Hc1 as [x ->]. rewrite (bind_Return _ _ _ _ _ Hrun1).
    exists (CallLog <$> l1). split; [done|]. split; [eauto | by exists l1]. }
  destruct Hc1 as [-> ->]. rewrite (bind_Next _ _ _ _ _ Hrun1).
  change (CallLog <$> []) with (@nil Call). rewrite addCalls_nil.
  rewrite (bind_Next _ _ _ _ _ (Hauth w)), addCalls_nil.
  pose proof (mentionGateBlock_cases core account cfg i groupEntry
                (commandAuthorized auth) w) as Hmg.
  cbv zeta in Hmg. fold gate in Hmg. destruct (shouldSkip gate); cbn [andb negb].
  { destruct Hmg as [msgs Hmg]. rewrite (bind_Return _ _ _ _ _ Hmg).
    exists (CallLog <$> msgs). split; [done|]. split; [eauto | by exists msgs]. }
  rewrite (bind_Next _ _ _ _ _ Hmg).
  destruct (controlCommandGate_decides core cfg i (commandAuthorized auth) w)
    as (r3 & l3 & Hrun3 & Hc3).
  rewrite Hi in Hc3. cbn [andb] in Hc3.
  destruct (isControlCommandMessage core (rawBody i) cfg &&
            negb (bool_decide (commandAuthorized auth = Some true))); cbn [negb] in *.
  { destruct Hc3 as [x ->]. rewrite (bind_Return _ _ _ _ _ Hrun3).
    exists (CallLog <$> l3). split; [done|]. split; [eauto | by exists l3]. }
  destruct Hc3 as [-> ->]. rewrite (bind_Next _ _ _ _ _ Hrun3).
  change (CallLog <$> []) with (@nil Call). rewrite addCalls_nil.
  destruct (buildContext _ _ _ _ _ _ _ _) as [[route storePath] ctx].
  destruct (dispatch_runs core route storePath ctx) as (r4 & recorded & Hrun4 & _ & _ & _ & Hd).
  rewrite (Hrun4 w). exists [recorded; CallDispatch ctx]. split; [done|].
  by apply dispatched_handover.
Qed.

(** X17. A group event that gets past the first block is handed to the
    dispatcher exactly when all of this holds: the group policy is not
    [disabled]; under [allowlist] the chat resolves to an entry, which is
    the one the group map has under the chat id, a member that the map
    inherits under that name, or the entry of ["*"], and to none when the
    map has no entries; that entry is neither disabled nor disallowed; the
    sender is on the entry's list of users if that list is not empty; the
    mention gate does not skip; and a control command comes from an
    authorized sender. Otherwise the run ends in a [return] statement
    having written nothing but log lines. *)
Theorem group_event_admission (core : FeishuCoreRuntime) (event : FeishuMessageEvent)
    (account : ResolvedFeishuAccount) (cfg : OpenClawConfig.t) (w : World)
    (i : Inbound) :
  (readEvent core event account w).1 = Next i →
  isGroup i = true →
  let groups := default ∅ (AccountConfig.groups (config account)) in
  let groupEntry :=
    if bool_decide (size groups = 0%nat) then None
    else orElse (getProperty groups (chatId i)) (groups !! "*") in
  let users := String_of <$> groupUsersOf groupEntry in
  let r := processMessageWithPipeline core event account cfg w in
  ∃ auth,
    runs (resolveCommandAuth core account cfg true (senderId i) (rawBody i)
            (groupUsersOf groupEntry)) (Next auth) [] ∧
    let gate :=
      resolveMentionGatingWithBypass
        (mentionGateParams core account cfg i groupEntry (commandAuthorized auth)) in
    let admitted :=
      match groupPolicyOf account cfg with
      | GroupDisabled => false
      | GroupAllowlist => bool_decide (is_Some groupEntry)
      | GroupOpen => true
      end
      && negb (bool_decide (groupEntry ≫= GroupEntry.enabled = Some false))
      && negb (bool_decide (groupEntry ≫= GroupEntry.allow = Some false))
      && match users with [] => true | _ => isSenderAllowed (senderId i) users end
      && negb (shouldSkip gate)
      && negb (isControlCommandMessage core (rawBody i) cfg &&
               negb (bool_decide (commandAuthorized auth = Some true))) in
    ∃ new,
      calls r.2 = (calls w ++ new)%list ∧
      if admitted
      then dispatched new
           = [(buildContext core event account cfg i groupEntry
                 (Some (effectiveWasMentioned gate)) (commandAuthorized auth)).2]
      else (∃ x, r.1 = Return x) ∧ onlyLogs new.
Proof.
  intros Hnext Hi groups groupEntry users r.
  destruct (readEvent_fields _ _ _ _ _ Hnext) as (m & _ & _ & _ & Hchat & _).
  pose proof (resolveGroupConfig_entry (chatId i) None
                (AccountConfig.groups (config account))) as Hentry.
  cbv beta zeta in Hentry. rewrite Hchat in Hentry.
  change (entry (resolveGroupConfig (chatId i) None
                   (AccountConfig.groups (config account))) = groupEntry) in Hentry.
  destruct (resolveCommandAuth_group core account cfg (senderId i) (rawBody i)
              (groupUsersOf groupEntry)) as (auth & Hauth).
  exists auth. split; [exact Hauth|].
  apply (pipeline_group_admission core event account cfg w i groupEntry auth);
    [by apply readEvent_Next with w | done | done | done |].
  eapply decides_eq; [|apply groupGate_decides]. rewrite Hentry.
  f_equal; [|subst users; by destruct (String_of <$> groupUsersOf groupEntry)].
  f_equal. f_equal. destruct (groupPolicyOf account cfg); [|done..].
  pose proof (resolveGroupConfig_unconfigured (chatId i) None
                (AccountConfig.groups (config account))) as Hnone.
  fold groups in Hnone |- *.
  destruct (allowlistConfigured _) eqn:Hconfigured.
  - cbn [andb]. subst groupEntry.
    rewrite (bool_decide_eq_false_2 (size groups = 0%nat)).
    + unfold orElse.
      destruct (getProperty groups (chatId i)), (groups !! "*") eqn:Hwild; cbn [orb];
        done.
    + rewrite map_size_empty_iff. intros Hempty. apply Hnone in Hempty. congruence.
  - cbn [andb]. assert (groups = ∅) as Hempty by by apply Hnone.
    subst groupEntry. by rewrite Hempty, map_size_empty.
Qed.

Lemma group_event_admission_witness :
  let event := sampleEvent "group" "toString" "ou_u1" "hello" in
  let account := with_groups (Some {[ "oc_team" := inheritedMember ]}) sampleAccount in
  let i := {| in_message := sampleMessage "group" "toString" "hello";
              chatId := "toString"; isGroup := true; senderId := "ou_u1";
              rawContent := ""; rawBody := "hello" |} in
  (readEvent sampleCore event account emptyWorld).1 = Next i ∧
  isGroup i = true ∧
  ∃ new ctx,
    calls (processMessageWithPipeline sampleCore event account sampleConfig
             emptyWorld).2 = new ∧
    dispatched new = [ctx].
Proof.
  intros event account i.
  destruct (group_event_admission sampleCore event account sampleConfig emptyWorld
              i eq_refl eq_refl) as (auth & Hauth & new & Hcalls & Hadm).
  split; [reflexivity|]. split; [reflexivity|].
  exists new. vm_compute in Hadm. eexists. split; [exact Hcalls | exact Hadm].
Defined.

Lemma dmGate_result core account sid auth w :
  (dmGate core account sid auth w).1
  = if bool_decide (dmPolicy auth = DmDisabled) ||
       bool_decide (AccountConfig.dm (config account) ≫= DmConfig.enabled = Some false)
    then Return ExitDmDisabled
    else if bool_decide (dmPolicy auth = DmOpen) || senderAllowedForCommands auth
         then Next tt
         else Return ExitDmUnauthorized.
Proof.
  destruct (bool_decide (dmPolicy auth = DmDisabled) ||
            bool_decide (AccountConfig.dm (config account) ≫= DmConfig.enabled
                         = Some false)) eqn:Hdisabled.
  { unfold dmGate. rewrite Hdisabled. when_reduce.
    by rewrite (bind_Return _ _ _ _ _ (runs_log_and_return core _ ExitDmDisabled w)). }
  pose proof Hdisabled as Hgate.
  apply orb_false_iff in Hdisabled as [_ Henabled].
  apply bool_decide_eq_false_1 in Henabled.
  destruct (decide (dmPolicy auth = DmOpen)) as [Hopen|Hopen].
  { rewrite (bool_decide_eq_true_2 _ Hopen). cbn [orb].
    by rewrite (dmGate_open core account sid auth w Hopen Henabled). }
  rewrite (bool_decide_eq_false_2 _ Hopen). cbn [orb].
  destruct (senderAllowedForCommands auth) eqn:Hallowed.
  { unfold dmGate. by rewrite Hgate, Hallowed, (bool_decide_eq_false_2 _ Hopen). }
  destruct (decide (dmPolicy auth = DmPairing)) as [Hpairing|Hpairing].
  { destruct (dmGate_pairing core account sid auth w Hpairing Henabled Hallowed)
      as (new & requests & Hrun & _).
    by rewrite Hrun. }
  unfold dmGate.
  rewrite Hgate, Hallowed, (bool_decide_eq_false_2 _ Hopen),
          (bool_decide_eq_false_2 _ Hpairing).
  cbn [negb]. when_reduce. rewrite (bind_Next _ _ w tt w) by reflexivity.
  when_reduce.
  by rewrite (runs_log_and_return core _ ExitDmUnauthorized w).
Qed.

(** X18. A direct event that gets past the first block is handed to the
    dispatcher exactly when the DM policy is not [disabled], [dm.enabled] is
    not [false], and either the policy is [open] or the sender is on the
    configured allow-list or on the one of the pairing store. Otherwise the
    run ends in the [return] statement of the gate that dropped it and the
    dispatcher is not called. *)
Theorem direct_event_admission (core : FeishuCoreRuntime) (event : FeishuMessageEvent)
    (account : ResolvedFeishuAccount) (cfg : OpenClawConfig.t) (w : World)
    (i : Inbound) :
  (readEvent core event account w).1 = Next i →
  isGroup i = false →
  let dm := AccountConfig.dm (config account) in
  let allowFrom :=
    ((String_of <$> default [] (dm ≫= DmConfig.allowFrom))
       ++ default [] (readAllowFromStore core "feishu"))%list in
  let disabled :=
    bool_decide (dmPolicyOf account = DmDisabled) ||
    bool_decide (dm ≫= DmConfig.enabled = Some false) in
  let admitted :=
    negb disabled &&
    (bool_decide (dmPolicyOf account = DmOpen) || isSenderAllowed (senderId i) allowFrom) in
  let r := processMessageWithPipeline core event account cfg w in
  ∃ new,
    calls r.2 = (calls w ++ new)%list ∧
    if admitted
    then ∃ commandAuthorized,
           dispatched new
           = [(buildContext core event account cfg i
                 (entry (resolveGroupConfig (chatId i) None
                           (AccountConfig.groups (config account))))
                 None commandAuthorized).2]
    else dispatched new = [] ∧
         r.1 = Return (if disabled then ExitDmDisabled else ExitDmUnauthorized).
Proof.
  intros Hnext Hi dm allowFrom disabled admitted r. subst r.
  rewrite (pipeline_direct _ _ _ _ _ i (readEvent_Next _ _ _ _ _ Hnext w) Hi).
  destruct (resolveCommandAuth_direct core account cfg (senderId i) (rawBody i)
              (groupUsersOf
                 (entry (resolveGroupConfig (chatId i) None
                           (AccountConfig.groups (config account))))))
    as (auth & n1 & Hauth & Hpolicy & _ & Hd1 & _ & Hallowed).
  rewrite (bind_Next _ _ _ _ _ (Hauth w)).
  pose proof (dmGate_result core account (senderId i) auth (addCalls w n1)) as Hres.
  destruct (dmGate_cases core account (senderId i) auth (addCalls w n1))
    as (r2 & n2 & requests & Hrun & Hd2 & _ & _ & Hcase).
  rewrite Hrun in Hres. cbn [fst] in Hres. rewrite Hpolicy in Hres.
  assert (bool_decide (dmPolicyOf account = DmOpen) || senderAllowedForCommands auth
          = bool_decide (dmPolicyOf account = DmOpen)
            || isSenderAllowed (senderId i) allowFrom) as Heq.
  { destruct (decide (dmPolicyOf account = DmOpen)) as [Hopen|Hopen].
    - by rewrite (bool_decide_eq_true_2 _ Hopen).
    - rewrite (bool_decide_eq_false_2 _ Hopen). cbn [orb]. by apply Hallowed. }
  rewrite Heq in Hres. clear Heq.
  assert (dispatched (n1 ++ n2) = []) as Hd12.
  { unfold dispatched in *. by rewrite omap_app, Hd1, Hd2. }
  subst admitted disabled allowFrom dm.
  destruct (bool_decide (dmPolicyOf account = DmDisabled) || _); cbn [negb andb].
  { subst r2. rewrite (bind_Return _ _ _ _ _ Hrun). exists (n1 ++ n2)%list.
    cbn [fst snd calls addCalls]. split; [by rewrite app_assoc | done]. }
  destruct (bool_decide (dmPolicyOf account = DmOpen) || _).
  - subst r2. destruct Hcase as [[x Hx]|(_ & -> & ->)]; [done|].
    rewrite (bind_Next _ _ _ _ _ Hrun).
    replace {| calls := (calls (addCalls w n1) ++ [])%list;
               pairingRequests := pairingRequests (addCalls w n1) |}
      with (addCalls w n1) by (unfold addCalls; simpl; by rewrite app_nil_r).
    destruct (buildContext _ _ _ _ _ _ _ _) as [[route storePath] ctx] eqn:Hctx.
    destruct (dispatch_runs core route storePath ctx)
      as (r4 & recorded & Hrun4 & _ & _ & _ & Hd4).
    rewrite (Hrun4 _). exists (n1 ++ [recorded; CallDispatch ctx])%list.
    split; [cbn [fst snd calls addCalls]; by rewrite app_assoc|].
    exists (commandAuthorized auth). rewrite Hctx. cbn [snd].
    unfold dispatched. rewrite omap_app. fold (dispatched n1).
    fold (dispatched [recorded; CallDispatch ctx]).
    by rewrite Hd1, (dispatched_handover _ _ Hd4).
  - subst r2. rewrite (bind_Return _ _ _ _ _ Hrun). exists (n1 ++ n2)%list.
    cbn [fst snd calls addCalls]. split; [by rewrite app_assoc | done].
Qed.

Lemma direct_event_admission_witness :
  let event := sampleEvent "p2p" "oc_dm" "ou_u1" "status" in
  let account :=
    with_dm (Some {| DmConfig.enabled := None;
                     DmConfig.policy := Some DmAllowlist;
                     DmConfig.allowFrom := Some [AllowString "user:OU_U1"] |})
      sampleAccount in
  (readEvent sampleCore event account emptyWorld).1 = Next sampleDirectInbound ∧
  isGroup sampleDirectInbound = false ∧
  ∃ new ctx,
    calls (processMessageWithPipeline sampleCore event account sampleConfig emptyWorld).2
    = new ∧ dispatched new = [ctx].
Proof.
  intros event account.
  destruct (direct_event_admission sampleCore event account sampleConfig emptyWorld
              sampleDirectInbound eq_refl eq_refl) as (new & Hcalls & ca & Hdispatched).
  split; [reflexivity|]. split; [reflexivity|].
  exists new. eexists. split; [exact Hcalls | exact Hdispatched].
Defined.

(** ** The text and the mentions of a message *)

(** X19. The text taken from a message carries no white space at either end,
    so that trimming it again changes nothing; and a string content that is
    not blank always gives a text that is not empty, whether or not it
    parses as JSON: without a usable [text] property the trimmed content
    itself is the text. *)
Theorem extractMessageText_normal_form (JSON_parse : JsonTextParser)
    (content : MessageContent) :
  let text := extractMessageText JSON_parse content in
  Js.trim text = text ∧
  (∀ s, content = ContentString s →
        (text = "" ↔ Js.trim s = "") ∧
        (JSON_parse (Js.trim s) = None → text = Js.trim s) ∧
        (Js.startsWith "{" (Js.trim s) = false → Js.startsWith "[" (Js.trim s) = false →
         text = Js.trim s)).
Proof.
  intros text. subst text. split.
  - destruct content as [s|t|]; cbn [extractMessageText]; [| |done].
    + destruct (Js.truthy (Js.trim s)); cbn [negb]; [|done].
      destruct (Js.startsWith "{" (Js.trim s) || Js.startsWith "[" (Js.trim s));
        [|apply trim_idemp].
      destruct (JSON_parse (Js.trim s)) as [[parsed|]|]; cbn [fmap option_fmap option_map
        from_option id]; try apply trim_idemp.
      destruct (Js.truthy (Js.trim parsed)); apply trim_idemp.
    + destruct t as [t|]; cbn [fmap option_fmap option_map from_option id]; [|done].
      destruct (Js.truthy (Js.trim t)); [apply trim_idemp | done].
  - intros s ->. cbn [extractMessageText].
    destruct (Js.truthy (Js.trim s)) eqn:Htrim; cbn [negb].
    + assert (Js.trim s ≠ "") as Hne by (intros H; by rewrite H in Htrim).
      split; [|split].
      * split; [|done]. intros Hempty. destruct Hne.
        destruct (Js.startsWith "{" (Js.trim s) || Js.startsWith "[" (Js.trim s));
          [|done].
        destruct (JSON_parse (Js.trim s)) as [[parsed|]|];
          cbn [fmap option_fmap option_map from_option id] in Hempty; try done.
        destruct (Js.truthy (Js.trim parsed)) eqn:Hp; [|done].
        by rewrite Hempty in Hp.
      * intros ->. by destruct (_ || _).
      * by intros -> ->.
    + apply truthy_false in Htrim. by rewrite Htrim.
Qed.

Lemma extractMessageText_normal_form_witness :
  extractMessageText (fun _ => None) (ContentString "  {not json  ") = "{not json".
Proof.
  destruct (extractMessageText_normal_form (fun _ => None)
              (ContentString "  {not json  ")) as [_ Hstring].
  destruct (Hstring "  {not json  " eq_refl) as (_ & Hparse & _).
  exact (Hparse eq_refl).
Defined.

Lemma mention_targets_elem (botOpenId botUserId botName : option string) bot b :
  bot ∈ [botOpenId; botUserId; botName] → bot = Some b → Js.trim b ≠ "" →
  Js.trim b ∈ (list_to_set
                 (List.filter Js.truthy
                    (omap (fmap Js.trim) [botOpenId; botUserId; botName])) : gset string).
Proof.
  intros Hbot -> Hne. apply elem_of_list_to_set, list_elem_of_In, filter_In.
  split.
  - apply list_elem_of_In, list_elem_of_omap. exists (Some b). by split.
  - by destruct (Js.trim b).
Qed.

(** X20. A mention names the bot when its name, its [open_id] or its
    [user_id] is, white space at the ends apart, one of the bot's configured
    identifiers, whichever of the three, provided that identifier is not
    blank. *)
Theorem extractMentionInfo_mentioned_by_entry (mentions : list MentionEntry)
    (rawContent : string) (botOpenId botUserId botName : option string)
    (record : MentionRecord) (bot key : option string) (b k : string) :
  Some record ∈ mentions →
  bot ∈ [botOpenId; botUserId; botName] → bot = Some b → Js.trim b ≠ "" →
  key ∈ [mention_name record; mention_id record ≫= mention_open_id;
         mention_id record ≫= mention_user_id] →
  key = Some k → Js.trim k = Js.trim b →
  wasMentioned (extractMentionInfo (Some mentions) rawContent botOpenId botUserId botName)
  = true.
Proof.
  intros Hrecord Hbot Hb Hne Hkey Hk Hsame.
  pose proof (mention_targets_elem botOpenId botUserId botName bot b Hbot Hb Hne) as Hin.
  unfold extractMentionInfo. cbn [wasMentioned from_option id].
  set (targets := list_to_set _) in *.
  set (found := existsb _ mentions).
  assert (found = true) as ->; [|done].
  apply existsb_exists. exists (Some record). split; [by apply list_elem_of_In|].
  rewrite <- Hsame in Hin. subst key.
  apply elem_of_cons in Hkey as [Hkey | Hkey];
    [|apply elem_of_cons in Hkey as [Hkey | Hkey];
      [|apply list_elem_of_singleton in Hkey]];
    rewrite <- Hkey; cbn [fmap option_fmap option_map from_option id];
    rewrite (bool_decide_eq_true_2 _ Hin); by rewrite ?orb_true_r.
Qed.

Lemma extractMentionInfo_mentioned_by_entry_witness :
  wasMentioned
    (extractMentionInfo
       (Some [None; Some {| mention_name := Some "Bo";
                            mention_id :=
                              Some {| mention_open_id := Some " ou_bot ";
                                      mention_user_id := None |} |}])
       "" (Some "ou_bot  ") None None)
  = true.
Proof.
  apply (extractMentionInfo_mentioned_by_entry _ _ _ _ _
           {| mention_name := Some "Bo";
              mention_id := Some {| mention_open_id := Some " ou_bot ";
                                    mention_user_id := None |} |}
           (Some "ou_bot  ") (Some " ou_bot ") "ou_bot  " " ou_bot ").
  - in_list.
  - in_list.
  - reflexivity.
  - discriminate.
  - in_list.
  - reflexivity.
  - reflexivity.
Defined.

(** X21. Without a bot identifier in the configuration no message counts as
    mentioning the bot, whatever its mentions and its raw content are. *)
Theorem extractMentionInfo_needs_identity (mentions : option (list MentionEntry))
    (rawContent : string) (botOpenId botUserId botName : option string) :
  default "" (Js.trim <$> botOpenId) = "" →
  default "" botUserId = "" →
  default "" (Js.trim <$> botName) = "" →
  wasMentioned (extractMentionInfo mentions rawContent botOpenId botUserId botName)
  = false.
Proof.
  intros Hopen Huser Hname.
  unfold extractMentionInfo. cbn [wasMentioned]. rewrite Huser.
  change (Js.truthy "") with false. rewrite andb_false_r.
  assert (List.filter Js.truthy (omap (fmap Js.trim) [botOpenId; botUserId; botName])
          = []) as ->.
  { destruct botOpenId as [o|], botUserId as [u|], botName as [n|];
      cbn [fmap option_fmap option_map from_option id] in *; subst;
      cbn [omap list_omap fmap option_fmap option_map]; rewrite ?Hopen, ?Hname; done. }
  induction (default [] mentions) as [|entry l IH]; [done|].
  cbn [existsb]. rewrite IH, orb_false_r.
  destruct entry as [record|]; [|done].
  change (list_to_set []) with (∅ : gset string).
  by rewrite !bool_decide_eq_false_2 by set_solver.
Qed.

Lemma extractMentionInfo_needs_identity_witness :
  wasMentioned
    (extractMentionInfo
       (Some [Some {| mention_name := Some "Bo"; mention_id := None |}])
       "<at user_id=1>Bo</at>" (Some "  ") None None)
  = false.
Proof.
  apply extractMentionInfo_needs_identity; reflexivity.
Defined.

(** ** The event handler *)



(** ** The request of the webchat forwarder *)

Module WebchatRequests.
Import Webchat.

Lemma requestOf_after_fetch pf url payload :
  requestOf
    (match fetch pf url payload with
     | inl msg => ForwardFailed url payload (Error msg)
     | inr res =>
         let json := default (BodyObject JsUndefined None) (json res) in
         if negb (ok res) then
           ForwardFailed url payload
             (Error ("Feishu webhook HTTP " +:+ pretty (status res)))
         else
           match json with
           | BodyObject code msg =>
               if truthy code && not_zero code then
                 ForwardFailed url payload
                   (Error ("Feishu webhook error: " +:+ default "unknown" msg))
               else Forwarded url payload
           | BodyOther => Forwarded url payload
           end
     end)
  = Some (url, payload).
Proof.
  destruct (fetch pf url payload) as [msg|res]; [done|]. cbv zeta.
  destruct (negb (ok res)); [done|].
  destruct (default _ (json res)) as [code msg|]; [|done].
  by destruct (truthy code && not_zero code).
Qed.

(** X23. The forwarder makes a request exactly when forwarding is enabled,
    the session is a webchat session, the Feishu block is there and not
    disabled, and neither the webhook nor the text is blank. The request
    then goes to the trimmed webhook and carries the trimmed text, after the
    keyword and a space if a keyword is set; and without a secret it carries
    neither a time stamp nor a signature. *)
Theorem forwardWebchatFinal_request (pf : Platform)
    (notify : option WebchatNotifyConfig) (text : string)
    (sessionKey sessionChannel : option string) (log : bool) :
  let out := forwardWebchatFinal pf notify text sessionKey sessionChannel log in
  (is_Some (requestOf out) ↔
     notify ≫= notify_enabled = Some true ∧
     normalizeMessageChannel pf sessionChannel = Some "webchat" ∧
     ∃ f, notify ≫= feishu = Some f ∧ enabled f ≠ Some false ∧
          default "" (Js.trim <$> webhook f) ≠ "" ∧ Js.trim text ≠ "") ∧
  (∀ url payload f,
     requestOf out = Some (url, payload) → notify ≫= feishu = Some f →
     url = default "" (Js.trim <$> webhook f) ∧
     msg_type payload = "text" ∧
     content_text payload
     = (if Js.truthy (default "" (keyword f))
        then default "" (keyword f) +:+ " " +:+ Js.trim text
        else Js.trim text) ∧
     (default "" (Js.trim <$> secret f) = "" →
      timestamp payload = None ∧ sign payload = None)).
Proof.
  intros out. subst out. unfold forwardWebchatFinal, isWebchatChannel.
  destruct (decide (notify ≫= notify_enabled = Some true)) as [Hon|Hoff]; cycle 1.
  { rewrite (bool_decide_eq_false_2 _ Hoff). cbn [negb requestOf].
    split; [|done]. split; [by intros [? ?] | by intros [? _]]. }
  rewrite (bool_decide_eq_true_2 _ Hon). cbn [negb].
  destruct (decide (normalizeMessageChannel pf sessionChannel = Some "webchat"))
    as [Hweb|Hweb]; cycle 1.
  { rewrite (bool_decide_eq_false_2 _ Hweb). cbn [negb requestOf].
    split; [|done]. split; [by intros [? ?] | by intros (_ & ? & _)]. }
  rewrite (bool_decide_eq_true_2 _ Hweb). cbn [negb].
  destruct (notify ≫= feishu) as [f|]; cycle 1.
  { cbn [requestOf]. split; [|done].
    split; [by intros [? ?] | by intros (_ & _ & ? & ? & _)]. }
  destruct (decide (enabled f = Some false)) as [Hdis|Hen].
  { rewrite (bool_decide_eq_true_2 _ Hdis). cbn [requestOf]. split; [|done].
    split; [by intros [? ?] | intros (_ & _ & ? & [= <-] & ? & _); done]. }
  rewrite (bool_decide_eq_false_2 _ Hen).
  destruct (Js.truthy (default "" (Js.trim <$> webhook f))) eqn:Hhook; cbn [negb]; cycle 1.
  { apply truthy_false in Hhook. cbn [requestOf]. split; [|done].
    split; [by intros [? ?] | intros (_ & _ & ? & [= <-] & _ & ? & _); done]. }
  destruct (Js.truthy (Js.trim text)) eqn:Htext; cbn [negb]; cycle 1.
  { apply truthy_false in Htext. cbn [requestOf]. split; [|done].
    split; [by intros [? ?] | intros (_ & _ & ? & _ & _ & _ & ?); done]. }
  rewrite requestOf_after_fetch. split.
  - split; [|eauto]. intros _. split; [done|]. split; [done|]. exists f.
    split; [done|]. split; [done|]. split.
    + intros Hempty. by rewrite Hempty in Hhook.
    + intros Hempty. by rewrite Hempty in Htext.
  - intros url payload f' [= <- <-] [= <-]. split; [done|].
    destruct (Js.truthy (default "" (Js.trim <$> secret f))) eqn:Hsecret.
    + split; [done|]. split; [done|]. intros Hempty. by rewrite Hempty in Hsecret.
    + done.
Qed.

Lemma forwardWebchatFinal_request_witness :
  let res := {| status := 200; json := None |} in
  let out :=
    forwardWebchatFinal (samplePlatform res)
      (Some {| notify_enabled := Some true;
               feishu := Some {| enabled := None;
                                 webhook := Some " https://open.feishu.cn/hook/1 ";
                                 secret := Some "  ";
                                 keyword := Some "bot" |} |})
      " done " None (Some "webchat") false in
  ∃ payload,
    requestOf out = Some ("https://open.feishu.cn/hook/1", payload) ∧
    content_text payload = "bot done" ∧ sign payload = None.
Proof.
  intros res out.
  destruct (forwardWebchatFinal_request (samplePlatform res)
              (Some {| notify_enabled := Some true;
                       feishu := Some {| enabled := None;
                                         webhook := Some " https://open.feishu.cn/hook/1 ";
                                         secret := Some "  ";
                                         keyword := Some "bot" |} |})
              " done " None (Some "webchat") false) as [_ Hrequest].
  eexists. split; [reflexivity|].
  destruct (Hrequest _ _ _ eq_refl eq_refl) as (_ & _ & Htext & Hsecret).
  split; [exact Htext | exact (proj2 (Hsecret eq_refl))].
Defined.

End WebchatRequests.

(** ** Accounts *)

Module AccountFacts.
Import Accounts.

Lemma notFalse_None key : notFalse None key = true.
Proof. done. Qed.

Lemma merged_lookup cfg accountId key :
  key ≠ "accounts" → key ≠ "defaultAccount" →
  mergeFeishuAccountConfig cfg accountId !! key
  = orElse (resolveAccountConfig cfg accountId ≫= fun account => account !! key)
           (feishuOf cfg ≫= fun c => properties c !! key).
Proof.
  intros Hacc Hdef. unfold mergeFeishuAccountConfig. cbv zeta.
  rewrite lookup_union, !lookup_delete_ne by done.
  destruct (resolveAccountConfig cfg accountId) as [account|],
    (feishuOf cfg) as [c|]; cbn [fmap option_fmap option_map from_option id mbind
      option_bind orElse]; rewrite ?lookup_empty;
    repeat match goal with |- context [?m !! key] => destruct (m !! key) end; done.
Qed.

Lemma resolveFeishuAccount_merged (sdk : Sdk) (cfg : Config)
    (accountId : option string) :
  let resolved := resolveFeishuAccount sdk cfg accountId in
  let account := resolveAccountConfig cfg (normalizeAccountId sdk accountId) in
  (∀ key, key ≠ "accounts" → key ≠ "defaultAccount" →
     config resolved !! key
     = orElse (account ≫= fun account => account !! key)
              (feishuOf cfg ≫= fun c => properties c !! key)) ∧
  enabled resolved
  = notFalse (properties <$> feishuOf cfg) "enabled" && notFalse account "enabled".
Proof.
  intros resolved account. split.
  - intros key Hacc Hdef. by apply merged_lookup.
  - subst resolved. unfold resolveFeishuAccount. cbn [enabled].
    unfold notFalse at 2 3. cbn [mbind option_bind].
    rewrite merged_lookup by done. fold account.
    unfold notFalse.
    destruct account as [a|], (feishuOf cfg) as [c|];
      cbn [fmap option_fmap option_map mbind option_bind orElse];
      repeat match goal with |- context [?m !! "enabled"] => destruct (m !! "enabled") as [[[]| |]|] end;
      done.
Qed.

(** X24. The resolved configuration of an account is the Feishu block with
    the properties of the account laid over it; and the account is enabled
    exactly when neither the block nor the account itself says [enabled:
    false], so that no account can be enabled in a disabled channel. *)
Theorem resolveFeishuAccount_merge (sdk : Sdk) (cfg : Config)
    (accountId : option string) :
  let resolved := resolveFeishuAccount sdk cfg accountId in
  let account := resolveAccountConfig cfg (normalizeAccountId sdk accountId) in
  (∀ key, key ≠ "accounts" → key ≠ "defaultAccount" →
     config resolved !! key
     = orElse (account ≫= fun account => account !! key)
              (feishuOf cfg ≫= fun c => properties c !! key)) ∧
  enabled resolved
  = notFalse (properties <$> feishuOf cfg) "enabled" && notFalse account "enabled".
Proof. exact (resolveFeishuAccount_merged sdk cfg accountId). Qed.

Lemma resolveFeishuAccount_merge_witness :
  "appId" ≠ "accounts" ∧ "appId" ≠ "defaultAccount" ∧
  config (resolveFeishuAccount sampleSdk sampleConfig (Some "main")) !! "appId"
  = orElse
      (resolveAccountConfig sampleConfig (normalizeAccountId sampleSdk (Some "main"))
         ≫= fun account => account !! "appId")
      (feishuOf sampleConfig ≫= fun c => properties c !! "appId").
Proof.
  assert ("appId" ≠ "accounts") as Haccounts by discriminate.
  assert ("appId" ≠ "defaultAccount") as Hdefault by discriminate.
  split; [exact Haccounts|]. split; [exact Hdefault|].
  exact (proj1 (resolveFeishuAccount_merge sampleSdk sampleConfig (Some "main"))
           "appId" Haccounts Hdefault).
Defined.

Lemma resolveFeishuAccount_ext sdk cfg cfg' accountId :
  properties <$> feishuOf cfg' = Some (default ∅ (properties <$> feishuOf cfg)) ∨
  properties <$> feishuOf cfg' = properties <$> feishuOf cfg →
  resolveAccountConfig cfg' (normalizeAccountId sdk accountId)
  = resolveAccountConfig cfg (normalizeAccountId sdk accountId) →
  resolveFeishuAccount sdk cfg' accountId = resolveFeishuAccount sdk cfg accountId.
Proof.
  intros Hprops Haccount.
  assert (notFalse (properties <$> feishuOf cfg') "enabled"
          = notFalse (properties <$> feishuOf cfg) "enabled") as Henabled.
  { destruct Hprops as [-> | ->]; [|done].
    unfold notFalse. by destruct (feishuOf cfg). }
  assert (default ∅ (properties <$> feishuOf cfg')
          = default ∅ (properties <$> feishuOf cfg)) as Hraw.
  { by destruct Hprops as [-> | ->]. }
  unfold resolveFeishuAccount, mergeFeishuAccountConfig.
  by rewrite Henabled, Hraw, Haccount.
Qed.

(** X25. After [setAccountEnabled] the account resolves as enabled exactly
    when it was switched on and the channel is not disabled; the rest of its
    resolved configuration, every other account and the other settings are
    as before. *)
Theorem setAccountEnabled_resolved (sdk : Sdk) (cfg : Config) (accountId : string)
    (value : bool) :
  normalizeAccountId sdk (Some accountId) = accountId →
  let cfg' := setAccountEnabled cfg accountId value in
  let resolved := resolveFeishuAccount sdk cfg' (Some accountId) in
  enabled resolved = notFalse (properties <$> feishuOf cfg) "enabled" && value ∧
  (∀ key, key ≠ "enabled" →
     config resolved !! key
     = config (resolveFeishuAccount sdk cfg (Some accountId)) !! key) ∧
  (∀ other, normalizeAccountId sdk other ≠ accountId →
     resolveFeishuAccount sdk cfg' other = resolveFeishuAccount sdk cfg other) ∧
  otherSettings cfg' = otherSettings cfg ∧
  (otherChannels <$> channels cfg') = Some (default ∅ (otherChannels <$> channels cfg)).
Proof.
  intros Hid cfg' resolved.
  assert (∀ other,
            resolveAccountConfig cfg' other
            = if decide (other = accountId)
              then Some (<["enabled" := VBool value]>
                           (default ∅ (resolveAccountConfig cfg other)))
              else resolveAccountConfig cfg other) as Haccount.
  { intros other. unfold resolveAccountConfig at 1. subst cfg'.
    unfold setAccountEnabled, feishuOf at 1. cbn [channels feishu accounts mbind option_bind].
    unfold resolveAccountConfig.
    destruct (decide (other = accountId)) as [->|Hne].
    - rewrite lookup_insert_eq. by destruct (feishuOf cfg ≫= accounts).
    - rewrite lookup_insert_ne by done.
      destruct (feishuOf cfg ≫= accounts); [done | apply lookup_empty]. }
  assert (properties <$> feishuOf cfg' = Some (default ∅ (properties <$> feishuOf cfg)))
    as Hprops by done.
  split; [|split; [|split; [|done]]].
  - subst resolved. rewrite (proj2 (resolveFeishuAccount_merged sdk cfg' (Some accountId))).
    rewrite Hid, Haccount, decide_True by done. f_equal.
    + rewrite Hprops. unfold notFalse. by destruct (feishuOf cfg).
    + unfold notFalse. cbn [mbind option_bind]. rewrite lookup_insert_eq.
      by destruct value.
  - intros key Hkey. subst resolved. unfold resolveFeishuAccount. cbn [config].
    rewrite Hid. unfold mergeFeishuAccountConfig.
    rewrite Haccount, decide_True, Hprops by done.
    cbn [from_option id]. rewrite !lookup_union, lookup_insert_ne by done. done.
  - intros other Hother. apply resolveFeishuAccount_ext; [by left|].
    by rewrite Haccount, decide_False.
Qed.

Lemma setAccountEnabled_resolved_witness :
  enabled (resolveFeishuAccount sampleSdk (setAccountEnabled sampleConfig "ops" true)
             (Some "ops"))
  = true.
Proof.
  exact (proj1 (setAccountEnabled_resolved sampleSdk sampleConfig "ops" true eq_refl)).
Defined.

Lemma feishuOf_mk ch o :
  feishuOf {| channels := Some ch; otherSettings := o |} = feishu ch.
Proof. done. Qed.

Lemma deleteAccount_remaining cfg accountId :
  (0 <? size (delete accountId
                (default ∅ (accounts (default {| accounts := None; properties := ∅ |}
                                         (feishuOf cfg))))))%nat = true
  ↔ ∃ other, other ≠ accountId ∧ is_Some (resolveAccountConfig cfg other).
Proof.
  rewrite Nat.ltb_lt.
  assert (∀ n : nat, (0 < n)%nat ↔ n ≠ 0%nat) as -> by lia.
  rewrite map_size_ne_0_lookup. unfold resolveAccountConfig.
  destruct (feishuOf cfg) as [[[a|] p]|];
    cbn [from_option id accounts mbind option_bind]; rewrite ?delete_empty.
  - split.
    + intros [other [account Hother%lookup_delete_Some]]. exists other. by destruct Hother as [? ->].
    + intros (other & Hne & account & Hother). exists other.
      rewrite lookup_delete_ne by done. eauto.
  - split; [intros [other [? Hother]]; by rewrite lookup_empty in Hother|].
    by intros (other & _ & ? & ?).
  - split; [intros [other [? Hother]]; by rewrite lookup_empty in Hother|].
    by intros (other & _ & ? & ?).
Qed.

Lemma deleteAccount_last cfg accountId :
  (∀ other, other ≠ accountId → resolveAccountConfig cfg other = None) →
  (0 <? size (delete accountId
                (default ∅ (accounts (default {| accounts := None; properties := ∅ |}
                                         (feishuOf cfg))))))%nat = false.
Proof.
  intros Hnone. apply not_true_is_false. intros Hsome.
  apply deleteAccount_remaining in Hsome as (other & Hne & [account Hother]).
  by rewrite Hnone in Hother.
Qed.

(** X26. [deleteAccount] returns a configuration without the account and
    with the other settings untouched. While another account is left, the
    Feishu block keeps its properties and the other accounts; once none is
    left the whole Feishu block is gone, and with it the properties that the
    channel had of its own: every account then resolves to the empty
    configuration and is not configured. *)
Theorem deleteAccount_returns (sdk : Sdk) (cfg : Config) (accountId : string) :
  let next := (deleteAccount cfg accountId).1 in
  resolveAccountConfig next accountId = None ∧
  otherSettings next = otherSettings cfg ∧
  ((∃ other, other ≠ accountId ∧ is_Some (resolveAccountConfig cfg other)) →
   properties <$> feishuOf next = properties <$> feishuOf cfg ∧
   ∀ other, other ≠ accountId →
            resolveAccountConfig next other = resolveAccountConfig cfg other) ∧
  ((∀ other, other ≠ accountId → resolveAccountConfig cfg other = None) →
   feishuOf next = None ∧
   ∀ id, config (resolveFeishuAccount sdk next id) = ∅ ∧
         configured (resolveFeishuAccount sdk next id) = false).
Proof.
  intros next. subst next. unfold deleteAccount. cbv zeta.
  destruct (0 <? size _)%nat eqn:Hsize; cbn [fst].
  - apply deleteAccount_remaining in Hsize as Hleft.
    unfold resolveAccountConfig. rewrite !feishuOf_mk.
    cbn [feishu accounts properties mbind option_bind fmap option_fmap option_map
         otherSettings].
    split; [apply lookup_delete_eq|]. split; [done|]. split.
    + intros _.
      destruct Hleft as (other0 & _ & account & Hother).
      unfold resolveAccountConfig in Hother.
      destruct (feishuOf cfg) as [[[a|] p]|]; try done.
      cbn [fmap option_fmap option_map from_option id accounts properties mbind
           option_bind].
      split; [done|]. intros other Hne. by rewrite lookup_delete_ne.
    + intros Hnone. destruct Hleft as (other & Hne & [account Hother]).
      unfold resolveAccountConfig in Hother. by rewrite Hnone in Hother.
  - assert (∀ c : Config, feishuOf c = None →
              ∀ id, config (resolveFeishuAccount sdk c id) = ∅ ∧
                    configured (resolveFeishuAccount sdk c id) = false) as Hgone.
    { intros c Hc aid. unfold resolveFeishuAccount, mergeFeishuAccountConfig,
        resolveAccountConfig. cbn [config configured]. rewrite Hc.
      cbn [fmap option_fmap option_map from_option id mbind option_bind].
      rewrite !delete_empty. rewrite (left_id_L ∅ (∪)). split; [done|].
      unfold trimmed. by rewrite lookup_empty. }
    destruct (0 <? size (default ∅ (otherChannels <$> channels cfg)))%nat;
      (split; [done|]; split; [done|]; split;
       [intros Hleft; apply deleteAccount_remaining in Hleft; congruence
       |intros _; split; [done | by apply Hgone]]).
Qed.

Lemma deleteAccount_returns_witness :
  let bare :=
    {| otherSettings := ∅;
       channels :=
         Some {| otherChannels := ∅;
                 feishu := Some {| accounts := None;
                                   properties := {[ "appId" := VString "cli_1" ]} |} |} |} in
  (∃ other, other ≠ "ops" ∧ is_Some (resolveAccountConfig sampleConfig other)) ∧
  resolveAccountConfig (deleteAccount sampleConfig "ops").1 "main"
  = resolveAccountConfig sampleConfig "main" ∧
  (∀ other, other ≠ "main" → resolveAccountConfig bare other = None) ∧
  feishuOf (deleteAccount bare "main").1 = None.
Proof.
  intros bare.
  assert (∃ other, other ≠ "ops" ∧ is_Some (resolveAccountConfig sampleConfig other))
    as Hleft.
  { exists "main". split; [discriminate|]. vm_compute. eauto. }
  assert (∀ other, other ≠ "main" → resolveAccountConfig bare other = None) as Hlast.
  { intros other _. reflexivity. }
  split; [exact Hleft|]. split.
  { destruct (deleteAccount_returns sampleSdk sampleConfig "ops") as (_ & _ & Hkept & _).
    apply (proj2 (Hkept Hleft)). discriminate. }
  split; [exact Hlast|].
  destruct (deleteAccount_returns sampleSdk bare "main") as (_ & _ & _ & Hnone).
  exact (proj1 (Hnone Hlast)).
Defined.

(** X27. [deleteAccount] writes to its argument: while another account is
    left, the configuration that was passed in has lost the account as well,
    and is laid out as the configuration returned; only when the last
    account goes is the argument left as it was. *)
Theorem deleteAccount_argument (cfg : Config) (accountId : string) :
  let after := (deleteAccount cfg accountId).2 in
  ((∃ other, other ≠ accountId ∧ is_Some (resolveAccountConfig cfg other)) →
   resolveAccountConfig after accountId = None ∧
   after = (deleteAccount cfg accountId).1) ∧
  ((∀ other, other ≠ accountId → resolveAccountConfig cfg other = None) →
   after = cfg).
Proof.
  intros after. subst after. split.
  - intros Hleft. pose proof Hleft as Hsize.
    apply deleteAccount_remaining in Hsize.
    unfold deleteAccount. cbv zeta. rewrite Hsize. cbn [fst snd].
    destruct Hleft as (other & _ & account & Hother).
    unfold resolveAccountConfig in Hother.
    destruct (feishuOf cfg) as [c|] eqn:Hc; [|done].
    split; [|done]. unfold resolveAccountConfig, feishuOf.
    cbn [channels feishu accounts mbind option_bind]. apply lookup_delete_eq.
  - intros Hnone. unfold deleteAccount. cbv zeta.
    by rewrite (deleteAccount_last cfg accountId Hnone).
Qed.

Lemma deleteAccount_argument_witness :
  (∃ other, other ≠ "ops" ∧ is_Some (resolveAccountConfig sampleConfig other)) ∧
  resolveAccountConfig (deleteAccount sampleConfig "ops").2 "ops" = None.
Proof.
  assert (∃ other, other ≠ "ops" ∧ is_Some (resolveAccountConfig sampleConfig other))
    as Hleft.
  { exists "main". split; [discriminate|]. vm_compute. eauto. }
  split; [exact Hleft|].
  exact (proj1 (proj1 (deleteAccount_argument sampleConfig "ops") Hleft)).
Defined.

Lemma NoDup_List_filter {A} (f : A → bool) (l : list A) :
  NoDup l → NoDup (List.filter f l).
Proof.
  induction 1 as [|x l Hx Hl IH]; cbn [List.filter]; [constructor|].
  destruct (f x); [|done]. constructor; [|done].
  rewrite list_elem_of_In, filter_In, <- list_elem_of_In. tauto.
Qed.

Lemma listConfiguredAccountIds_elem sdk cfg id :
  (∀ accounts, Object_keys sdk accounts ≡ₚ (map_to_list accounts).*1) →
  id ∈ listConfiguredAccountIds sdk cfg
  ↔ id ≠ "" ∧ is_Some (resolveAccountConfig cfg id).
Proof.
  intros Hkeys. unfold listConfiguredAccountIds, resolveAccountConfig.
  destruct (feishuOf cfg ≫= accounts) as [a|].
  - rewrite list_elem_of_In, filter_In, <- list_elem_of_In, Hkeys, list_elem_of_fmap.
    split.
    + intros [[[key account] [-> Hin%elem_of_map_to_list]] Htruthy]. cbn [fst] in *.
      split; [by destruct key | eauto].
    + intros [Hne [account Hin]]. split; [|by destruct id].
      exists (id, account). split; [done | by apply elem_of_map_to_list].
  - split; [by intros ?%elem_of_nil | by intros [_ [? ?]]].
Qed.

(** X28. The list of account ids is never empty and names no id twice: it
    holds the ids of the configured accounts, the empty id apart, or, when
    there is none, the default id alone. The default account is the
    configured [defaultAccount], trimmed, when that is not blank, whether or
    not such an account exists, and otherwise an id of the list. The enabled
    accounts are the listed ids' accounts that resolve as enabled; there is
    none when the channel is disabled. *)
Theorem listFeishuAccountIds_members (sdk : Sdk) (cfg : Config) :
  (∀ accounts, Object_keys sdk accounts ≡ₚ (map_to_list accounts).*1) →
  (∀ ids, sortByLocale sdk ids ≡ₚ ids) →
  let ids := listFeishuAccountIds sdk cfg in
  let chosen := resolveDefaultFeishuAccountId sdk cfg in
  let defaultAccount :=
    default "" (feishuOf cfg ≫= fun c => trimmed (properties c) "defaultAccount") in
  NoDup ids ∧ ids ≠ [] ∧
  (∀ id, id ∈ ids ↔
         id ≠ "" ∧ is_Some (resolveAccountConfig cfg id) ∨
         id = DEFAULT_ACCOUNT_ID sdk ∧
         ∀ other, other ≠ "" → resolveAccountConfig cfg other = None) ∧
  (if Js.truthy defaultAccount then chosen = defaultAccount else chosen ∈ ids) ∧
  (∀ account, account ∈ listEnabledFeishuAccounts sdk cfg ↔
              enabled account = true ∧
              ∃ id, id ∈ ids ∧ account = resolveFeishuAccount sdk cfg (Some id)) ∧
  (notFalse (properties <$> feishuOf cfg) "enabled" = false →
   listEnabledFeishuAccounts sdk cfg = []).
Proof.
  intros Hkeys Hsort ids chosen defaultAccount.
  assert (∀ account, account ∈ listEnabledFeishuAccounts sdk cfg ↔
                     enabled account = true ∧
                     ∃ id, id ∈ ids ∧ account = resolveFeishuAccount sdk cfg (Some id))
    as Henabled.
  { intros account. unfold listEnabledFeishuAccounts. fold ids.
    rewrite list_elem_of_In, filter_In, <- list_elem_of_In, list_elem_of_fmap.
    split.
    - intros [(id & -> & Hid) Hon]. eauto.
    - intros [Hon (id & Hid & ->)]. eauto. }
  assert (NoDup (listConfiguredAccountIds sdk cfg)) as Hnodup.
  { unfold listConfiguredAccountIds. destruct (feishuOf cfg ≫= accounts) as [a|];
      [|constructor].
    apply NoDup_List_filter. rewrite Hkeys. apply NoDup_fst_map_to_list. }
  assert (ids ≠ []) as Hne.
  { subst ids. unfold listFeishuAccountIds. case_bool_decide as Hlen; [done|].
    intros Hnil. destruct Hlen.
    by rewrite <- (Hsort (listConfiguredAccountIds sdk cfg)), Hnil. }
  split; [|split; [done|split]].
  - subst ids. unfold listFeishuAccountIds. case_bool_decide.
    + apply NoDup_singleton.
    + by rewrite Hsort.
  - intros id. subst ids. unfold listFeishuAccountIds. case_bool_decide as Hlen.
    + apply nil_length_inv in Hlen. rewrite list_elem_of_singleton.
      assert (∀ other, other ≠ "" → resolveAccountConfig cfg other = None) as Hnone.
      { intros other Hother.
        destruct (resolveAccountConfig cfg other) as [account|] eqn:Haccount; [|done].
        assert (other ∈ listConfiguredAccountIds sdk cfg) as Hin
          by (apply listConfiguredAccountIds_elem; eauto).
        rewrite Hlen in Hin. by apply elem_of_nil in Hin. }
      split; [by right|]. intros [[Hid [account Haccount]] | [-> _]]; [|done].
      by rewrite Hnone in Haccount.
    + rewrite Hsort, listConfiguredAccountIds_elem by done.
      split; [by left|]. intros [Hleft | [_ Hnone]]; [done|].
      destruct (listConfiguredAccountIds sdk cfg) as [|other l] eqn:Hids; [done|].
      assert (other ∈ listConfiguredAccountIds sdk cfg) as Hin
        by (rewrite Hids; apply list_elem_of_here).
      apply listConfiguredAccountIds_elem in Hin as [Hother [account Haccount]]; [|done].
      by rewrite Hnone in Haccount.
  - split; [|split; [exact Henabled|]].
    + subst chosen. unfold resolveDefaultFeishuAccountId. fold defaultAccount.
      destruct (Js.truthy defaultAccount); [done|]. fold ids.
      case_bool_decide as Hdefault; [done|].
      destruct ids as [|first rest]; [done|]. apply list_elem_of_here.
    + intros Hoff.
      destruct (listEnabledFeishuAccounts sdk cfg) as [|account l] eqn:Hlist; [done|].
      destruct (proj1 (Henabled account) (list_elem_of_here _ _)) as [Hon (id & _ & ->)].
      by rewrite (proj2 (resolveFeishuAccount_merged sdk cfg (Some id))), Hoff in Hon.
Qed.

Lemma listFeishuAccountIds_members_witness :
  (∀ accounts, Object_keys sampleSdk accounts ≡ₚ (map_to_list accounts).*1) ∧
  (∀ ids, sortByLocale sampleSdk ids ≡ₚ ids) ∧
  listFeishuAccountIds sampleSdk sampleConfig ≠ [].
Proof.
  assert (∀ accounts, Object_keys sampleSdk accounts ≡ₚ (map_to_list accounts).*1)
    as Hkeys by (intros accounts; reflexivity).
  assert (∀ ids, sortByLocale sampleSdk ids ≡ₚ ids) as Hsort by (intros ids; reflexivity).
  split; [exact Hkeys|]. split; [exact Hsort|].
  exact (proj1 (proj2 (listFeishuAccountIds_members sampleSdk sampleConfig Hkeys Hsort))).
Defined.

End AccountFacts.

(** ** The registry of clients *)

Module MonitorFacts.
Import Accounts Monitor.

Lemma step_registryInv lark s op : registryInv s → registryInv (step lark s op).
Proof.
  intros (Hreg & Hstopped & Hnodup). destruct op as [account|aid]; cbn [step].
  - unfold startFeishuMonitor. cbv zeta. destruct (_ || _); [done|]. cbn [snd].
    split; [|split]; cbn [activeClients clients stopped]; [| |done].
    + intros a c Hc. rewrite length_app. cbn [length].
      destruct (decide (a = accountId account)) as [->|Hne].
      * rewrite lookup_insert_eq in Hc. injection Hc as <-.
        split; [lia|]. split.
        { intros Hin. apply Hstopped in Hin. lia. }
        intros b Hb. destruct (decide (b = accountId account)) as [->|Hb']; [done|].
        rewrite lookup_insert_ne in Hb by done. apply Hreg in Hb as [Hlt _]. lia.
      * rewrite lookup_insert_ne in Hc by done.
        destruct (Hreg a c Hc) as (Hlt & Hnot & Hinj).
        split; [lia|]. split; [done|].
        intros b Hb. destruct (decide (b = accountId account)) as [->|Hb'].
        { rewrite lookup_insert_eq in Hb. injection Hb as <-. lia. }
        rewrite lookup_insert_ne in Hb by done. by apply Hinj.
    + intros c Hc. apply Hstopped in Hc. rewrite length_app. lia.
  - unfold stopClient. destruct (activeClients s !! aid) as [existing|] eqn:Hexisting;
      [|done].
    destruct (Hreg aid existing Hexisting) as (Hlt & Hnot & Hinj).
    split; [|split]; cbn [activeClients clients stopped].
    + intros a c Hc. apply lookup_delete_Some in Hc as [Hne Hc].
      destruct (Hreg a c Hc) as (Hlt' & Hnot' & Hinj').
      split; [done|]. split.
      * destruct (WSClient_stop lark); [|done].
        rewrite elem_of_app, list_elem_of_singleton.
        intros [Hin | ->]; [done|]. destruct Hne. by apply Hinj'.
      * intros b Hb. apply lookup_delete_Some in Hb as [_ Hb]. by apply Hinj'.
    + intros c Hc. destruct (WSClient_stop lark); [|by apply Hstopped].
      apply elem_of_app in Hc as [Hc | Hc%list_elem_of_singleton];
        [by apply Hstopped | by subst].
    + destruct (WSClient_stop lark); [|done].
      apply NoDup_app. split; [done|]. split; [|apply NoDup_singleton].
      intros c Hc Hc'%list_elem_of_singleton. by subst.
Qed.

Lemma run_registryInv lark s ops : registryInv s → registryInv (run lark s ops).
Proof.
  revert s. induction ops as [|op ops IH]; intros s Hs; [done|].
  apply IH. by apply step_registryInv.
Qed.

Lemma initial_registryInv : registryInv initial.
Proof.
  split; [|split].
  - intros a c Hc. change ((∅ : gmap string nat) !! a = Some c) in Hc.
    by rewrite lookup_empty in Hc.
  - intros c Hc. by apply elem_of_nil in Hc.
  - constructor.
Qed.

(** X29. Whatever monitors are started and stopped, in whatever order: every
    client in the registry has been constructed and started, is there under
    one account id only and has not been stopped; and no client is stopped
    twice. *)
Theorem registry_invariant (lark : Lark) (ops : list Op) :
  let s := run lark initial ops in
  (∀ a c, activeClients s !! a = Some c →
          (c < length (clients s))%nat ∧ (c ∉ stopped s) ∧
          ∀ b, activeClients s !! b = Some c → b = a) ∧
  (∀ c, c ∈ stopped s → (c < length (clients s))%nat) ∧
  NoDup (stopped s).
Proof. exact (run_registryInv lark initial ops initial_registryInv). Qed.

Lemma registry_invariant_witness :
  let s := run sampleLark initial [Start sampleAccount; Stop "ops"] in
  activeClients s !! "main" = Some 0%nat ∧ 0%nat ∉ stopped s.
Proof.
  intros s.
  assert (activeClients s !! "main" = Some 0%nat) as Hc by (vm_compute; reflexivity).
  split; [exact Hc|].
  exact (proj1 (proj2 (proj1 (registry_invariant sampleLark
                                [Start sampleAccount; Stop "ops"])
                         "main" 0%nat Hc))).
Defined.

Lemma step_abandoned lark c s op : abandoned c s → abandoned c (step lark s op).
Proof.
  intros (Hlt & Hnot & Hreg). destruct op as [account|aid]; cbn [step].
  - unfold startFeishuMonitor. cbv zeta. destruct (_ || _); [done|]. cbn [snd].
    split; [|split]; cbn [activeClients clients stopped]; [|done|].
    + rewrite length_app. lia.
    + intros a Ha. destruct (decide (a = accountId account)) as [->|Hne].
      * rewrite lookup_insert_eq in Ha. injection Ha as <-. lia.
      * rewrite lookup_insert_ne in Ha by done. by apply (Hreg a).
  - unfold stopClient. destruct (activeClients s !! aid) as [existing|] eqn:Hexisting;
      [|done].
    split; [|split]; cbn [activeClients clients stopped]; [done| |].
    + destruct (WSClient_stop lark); [|done].
      rewrite elem_of_app, list_elem_of_singleton.
      intros [Hin | ->]; [done|]. by apply (Hreg aid).
    + intros a Ha. apply lookup_delete_Some in Ha as [_ Ha]. by apply (Hreg a).
Qed.

Lemma run_abandoned lark c s ops : abandoned c s → abandoned c (run lark s ops).
Proof.
  revert s. induction ops as [|op ops IH]; intros s Hs; [done|].
  apply IH. by apply step_abandoned.
Qed.

(** X30. A monitor started for an account that already has a client in the
    registry takes the entry over: the stop functions hold the account id,
    not the client, so that from then on they stop the new client, and the
    client that was replaced is never stopped and never registered again,
    whatever is started or stopped afterwards. *)
Theorem replaced_client_is_never_stopped (lark : Lark) (before after : list Op)
    (account : ResolvedFeishuAccount) (c : nat) :
  let s := run lark initial before in
  activeClients s !! accountId account = Some c →
  (startFeishuMonitor lark account s).1 = None →
  let s' := run lark (step lark s (Start account)) after in
  (c < length (clients s'))%nat ∧ (c ∉ stopped s') ∧
  ∀ a, activeClients s' !! a ≠ Some c.
Proof.
  intros s Hc Hstarts s'. apply run_abandoned.
  destruct (run_registryInv lark initial before initial_registryInv)
    as (Hreg & Hstopped & _).
  fold s in Hreg, Hstopped. destruct (Hreg _ _ Hc) as (Hlt & Hnot & Hinj).
  cbn [step]. unfold startFeishuMonitor in *. cbv zeta in *.
  destruct (_ || _); [done|]. cbn [snd].
  split; [|split]; cbn [activeClients clients stopped]; [|done|].
  - rewrite length_app. lia.
  - intros a Ha. destruct (decide (a = accountId account)) as [->|Hne].
    + rewrite lookup_insert_eq in Ha. injection Ha as <-. lia.
    + rewrite lookup_insert_ne in Ha by done. destruct Hne. by apply Hinj.
Qed.

Lemma replaced_client_is_never_stopped_witness :
  let s := run sampleLark initial [Start sampleAccount] in
  activeClients s !! accountId sampleAccount = Some 0%nat ∧
  (startFeishuMonitor sampleLark sampleAccount s).1 = None ∧
  0%nat ∉ stopped (run sampleLark (step sampleLark s (Start sampleAccount))
                     [Stop "main"; Stop "main"]).
Proof.
  intros s.
  assert (activeClients s !! accountId sampleAccount = Some 0%nat) as Hc
    by (vm_compute; reflexivity).
  assert ((startFeishuMonitor sampleLark sampleAccount s).1 = None) as Hstarts
    by (vm_compute; reflexivity).
  split; [exact Hc|]. split; [exact Hstarts|].
  exact (proj1 (proj2 (replaced_client_is_never_stopped sampleLark
                         [Start sampleAccount] [Stop "main"; Stop "main"]
                         sampleAccount 0%nat Hc Hstarts))).
Defined.

End MonitorFacts.

(** ** The defaults, as the pipeline applies them *)

Lemma exits_ret : exits (mret tt) None.
Proof. intros w. exists []. split; [|done]. by rewrite addCalls_nil. Qed.

Lemma exits_drop core msg x : exits (logVerbose core msg;; return_ x) (Some x).
Proof.
  intros w.
  exists (if shouldLogVerbose core && runtime_log core then ["[feishu] " +:+ msg] else []).
  split; [|done]. rewrite (runs_log_and_return core msg x w). by destruct (_ && _).
Qed.

Lemma exits_when b body o : exits body o → exits (when b body) (if b then o else None).
Proof. destruct b; [done|]. intros _. apply exits_ret. Qed.

Lemma exits_seq (m1 m2 : Run unit) o1 o2 :
  exits m1 o1 → exits m2 o2 → exits (m1;; m2) (orElse o1 o2).
Proof.
  intros H1 H2 w. destruct (H1 w) as (l1 & Hrun1 & Hl1). destruct o1 as [x|].
  - exists l1. split; [exact (bind_Return _ _ _ _ _ Hrun1) | done].
  - rewrite (bind_Next _ _ _ _ _ Hrun1), (Hl1 eq_refl).
    change (CallLog <$> []) with (@nil Call). rewrite addCalls_nil. exact (H2 w).
Qed.

Lemma exits_eq m o o' : o = o' → exits m o → exits m o'.
Proof. by intros ->. Qed.

Ltac exits_solve :=
  repeat first [ apply exits_drop | apply exits_ret
               | apply exits_when | apply exits_seq ].

(** The group gate, statement by statement. *)
Lemma groupGate_exits core account chatId senderId groupPolicy resolved :
  let rest :=
    if bool_decide (entry resolved ≫= GroupEntry.enabled = Some false) ||
       bool_decide (entry resolved ≫= GroupEntry.allow = Some false)
    then Some ExitChatDisabled
    else
      match String_of <$> groupUsersOf (entry resolved) with
      | [] => None
      | users =>
          if isSenderAllowed senderId users then None
          else Some ExitGroupSenderNotAllowed
      end in
  exits (groupGate core account chatId senderId groupPolicy resolved)
    (match groupPolicy with
     | GroupDisabled => Some ExitGroupPolicyDisabled
     | GroupAllowlist =>
         if negb (allowlistConfigured resolved) then Some ExitNoAllowlist
         else if bool_decide (is_Some (entry resolved)) ||
                 bool_decide
                   (is_Some (default ∅ (AccountConfig.groups (config account)) !! "*"))
              then rest
              else Some ExitNotAllowlisted
     | GroupOpen => rest
     end).
Proof.
  intros rest. subst rest.
  eapply exits_eq; [|unfold groupGate; cbv zeta; exits_solve].
  destruct groupPolicy;
    change (bool_decide (GroupAllowlist = GroupDisabled)) with false;
    change (bool_decide (GroupAllowlist = GroupAllowlist)) with true;
    change (bool_decide (GroupOpen = GroupDisabled)) with false;
    change (bool_decide (GroupOpen = GroupAllowlist)) with false;
    change (bool_decide (GroupDisabled = GroupDisabled)) with true;
    cbn [orElse]; [| |done].
  - destruct (allowlistConfigured resolved), (bool_decide (is_Some (entry resolved)) || _),
      (bool_decide (entry resolved ≫= GroupEntry.enabled = Some false) || _),
      (groupUsersOf (entry resolved)) as [|u us];
      cbn [negb orElse fmap list_fmap length Nat.ltb Nat.leb]; try done;
      by destruct (isSenderAllowed _ _).
  - destruct (bool_decide (entry resolved ≫= GroupEntry.enabled = Some false) || _),
      (groupUsersOf (entry resolved)) as [|u us];
      cbn [negb orElse fmap list_fmap length Nat.ltb Nat.leb]; try done;
      by destruct (isSenderAllowed _ _).
Qed.

Lemma groupGate_exits_listed core account chatId senderId groupPolicy resolved :
  ∃ o, exits (groupGate core account chatId senderId groupPolicy resolved) o ∧
       ∀ x, o = Some x → x ∈ groupGateExits.
Proof.
  eexists. split; [apply groupGate_exits|]. cbv zeta. intros x.
  destruct groupPolicy; cbn [negb];
    repeat match goal with
           | |- context [if ?c then _ else _] => destruct c
           | |- context [match ?l with [] => _ | _ => _ end] => destruct l
           end;
    intros Hx; first [discriminate Hx | injection Hx as <-; unfold groupGateExits; in_list].
Qed.

(** How the run of a group event ends, gate by gate. *)
Lemma pipeline_group_outcome core event account cfg w i auth oG :
  readEvent core event account w = (Next i, w) →
  isGroup i = true →
  let resolved :=
    resolveGroupConfig (chatId i) None (AccountConfig.groups (config account)) in
  runs (resolveCommandAuth core account cfg true (senderId i) (rawBody i)
          (groupUsersOf (entry resolved))) (Next auth) [] →
  exits (groupGate core account (chatId i) (senderId i) (groupPolicyOf account cfg)
           resolved) oG →
  let gate :=
    resolveMentionGatingWithBypass
      (mentionGateParams core account cfg i (entry resolved) (commandAuthorized auth)) in
  let r := processMessageWithPipeline core event account cfg w in
  match oG with
  | Some x => r.1 = Return x
  | None =>
      if shouldSkip gate then r.1 = Return ExitMentionRequired
      else if isControlCommandMessage core (rawBody i) cfg &&
              negb (bool_decide (commandAuthorized auth = Some true))
           then r.1 = Return ExitControlCommand
           else ∀ x, r.1 ≠ Return x
  end.
Proof.
  intros Hread Hi resolved Hauth HG gate r. subst r.
  rewrite (pipeline_group _ _ _ _ _ i Hread Hi). cbv zeta. fold resolved.
  destruct (HG w) as (l1 & Hrun1 & Hl1). destruct oG as [x|].
  { by rewrite (bind_Return _ _ _ _ _ Hrun1). }
  rewrite (bind_Next _ _ _ _ _ Hrun1), (Hl1 eq_refl).
  change (CallLog <$> []) with (@nil Call). rewrite addCalls_nil.
  rewrite (bind_Next _ _ _ _ _ (Hauth w)), addCalls_nil.
  pose proof (mentionGateBlock_cases core account cfg i (entry resolved)
                (commandAuthorized auth) w) as Hmg.
  cbv zeta in Hmg. fold gate in Hmg. destruct (shouldSkip gate).
  { destruct Hmg as [msgs Hmg]. by rewrite (bind_Return _ _ _ _ _ Hmg). }
  rewrite (bind_Next _ _ _ _ _ Hmg).
  destruct (isControlCommandMessage core (rawBody i) cfg &&
            negb (bool_decide (commandAuthorized auth = Some true))) eqn:Hctrl.
  { unfold controlCommandGate. rewrite Hi. cbn [andb]. rewrite Hctrl. when_reduce.
    by rewrite (bind_Return _ _ _ _ _
                  (runs_log_and_return core _ ExitControlCommand w)). }
  destruct (controlCommandGate_decides core cfg i (commandAuthorized auth) w)
    as (r3 & l3 & Hrun3 & Hc3).
  rewrite Hi in Hc3. cbn [andb] in Hc3. rewrite Hctrl in Hc3. cbn [negb] in Hc3.
  destruct Hc3 as [-> ->]. rewrite (bind_Next _ _ _ _ _ Hrun3).
  change (CallLog <$> []) with (@nil Call). rewrite addCalls_nil.
  destruct (buildContext _ _ _ _ _ _ _ _) as [[route storePath] ctx].
  destruct (dispatch_runs core route storePath ctx) as (r4 & recorded & Hrun4 & Hr4 & _).
  by rewrite (Hrun4 w).
Qed.

(** The run of a group event ends in a [return] statement of the group
    gate exactly when the group gate takes it. *)
Lemma pipeline_group_gate_exit core event account cfg w i oG x :
  readEvent core event account w = (Next i, w) →
  isGroup i = true →
  exits (groupGate core account (chatId i) (senderId i) (groupPolicyOf account cfg)
           (resolveGroupConfig (chatId i) None (AccountConfig.groups (config account))))
        oG →
  x ∈ groupGateExits →
  (processMessageWithPipeline core event account cfg w).1 = Return x ↔ oG = Some x.
Proof.
  intros Hread Hi HG Hx.
  destruct (resolveCommandAuth_group core account cfg (senderId i) (rawBody i)
              (groupUsersOf
                 (entry (resolveGroupConfig (chatId i) None
                           (AccountConfig.groups (config account))))))
    as (auth & Hauth).
  pose proof (pipeline_group_outcome core event account cfg w i auth oG Hread Hi
                Hauth HG) as Hout.
  cbv zeta in Hout. destruct oG as [y|].
  - rewrite Hout. split; [by intros [= ->] | by intros [= ->]].
  - split; [|done]. intros Hr. exfalso.
    assert (x ≠ ExitMentionRequired ∧ x ≠ ExitControlCommand) as [Hm Hc].
    { unfold groupGateExits in Hx. rewrite !elem_of_cons, elem_of_nil in Hx.
      split; intros ->; intuition discriminate. }
    destruct (shouldSkip _); [rewrite Hout in Hr; by injection Hr|].
    destruct (_ && _); [rewrite Hout in Hr; by injection Hr|].
    by apply (Hout x).
Qed.

Lemma resolveGroupConfig_no_entry groupId groupName groups :
  allowlistConfigured (resolveGroupConfig groupId groupName groups) = true →
  entry (resolveGroupConfig groupId groupName groups) = None →
  default ∅ groups !! "*" = None.
Proof.
  intros Hconfigured. rewrite resolveGroupConfig_entry. cbv zeta.
  rewrite bool_decide_eq_false_2.
  - unfold orElse. by repeat destruct (if Js.truthy _ then _ else _).
  - rewrite map_size_empty_iff. intros Hempty.
    apply (resolveGroupConfig_unconfigured groupId groupName groups) in Hempty.
    congruence.
Qed.

(** How the run of a direct event ends. *)
Lemma pipeline_direct_outcome core event account cfg w i :
  (readEvent core event account w).1 = Next i →
  isGroup i = false →
  let dm := AccountConfig.dm (config account) in
  let allowFrom :=
    ((String_of <$> default [] (dm ≫= DmConfig.allowFrom))
       ++ default [] (readAllowFromStore core "feishu"))%list in
  let r := processMessageWithPipeline core event account cfg w in
  if bool_decide (dmPolicyOf account = DmDisabled) ||
     bool_decide (dm ≫= DmConfig.enabled = Some false)
  then r.1 = Return ExitDmDisabled
  else if bool_decide (dmPolicyOf account = DmOpen) ||
          isSenderAllowed (senderId i) allowFrom
       then ∀ x, r.1 ≠ Return x
       else r.1 = Return ExitDmUnauthorized.
Proof.
  intros Hnext Hi dm allowFrom r. subst r.
  rewrite (pipeline_direct _ _ _ _ _ i (readEvent_Next _ _ _ _ _ Hnext w) Hi).
  destruct (resolveCommandAuth_direct core account cfg (senderId i) (rawBody i)
              (groupUsersOf
                 (entry (resolveGroupConfig (chatId i) None
                           (AccountConfig.groups (config account))))))
    as (auth & n1 & Hauth & Hpolicy & _ & _ & _ & Hallowed).
  rewrite (bind_Next _ _ _ _ _ (Hauth w)).
  pose proof (dmGate_result core account (senderId i) auth (addCalls w n1)) as Hres.
  destruct (dmGate_cases core account (senderId i) auth (addCalls w n1))
    as (r2 & n2 & requests & Hrun & _ & _ & _ & Hcase).
  rewrite Hrun in Hres. cbn [fst] in Hres. rewrite Hpolicy in Hres.
  assert (bool_decide (dmPolicyOf account = DmOpen) || senderAllowedForCommands auth
          = bool_decide (dmPolicyOf account = DmOpen)
            || isSenderAllowed (senderId i) allowFrom) as Heq.
  { destruct (decide (dmPolicyOf account = DmOpen)) as [Hopen|Hopen].
    - by rewrite (bool_decide_eq_true_2 _ Hopen).
    - rewrite (bool_decide_eq_false_2 _ Hopen). cbn [orb]. by apply Hallowed. }
  rewrite Heq in Hres. clear Heq. subst allowFrom dm.
  destruct (bool_decide (dmPolicyOf account = DmDisabled) || _).
  { subst r2. by rewrite (bind_Return _ _ _ _ _ Hrun). }
  destruct (bool_decide (dmPolicyOf account = DmOpen) || _).
  - subst r2. destruct Hcase as [[x Hx]|(_ & -> & ->)]; [done|].
    rewrite (bind_Next _ _ _ _ _ Hrun).
    destruct (buildContext _ _ _ _ _ _ _ _) as [[route storePath] ctx].
    destruct (dispatch_runs core route storePath ctx) as (r4 & recorded & Hrun4 & Hr4 & _).
    by rewrite (Hrun4 _).
  - subst r2. by rewrite (bind_Return _ _ _ _ _ Hrun).
Qed.

(** C10. When the account leaves the fields unset, the pipeline applies
    their defaults, and what it then does with an event that gets past the
    first block (another one is dropped before any of the fields is read)
    shows it.  With [groupPolicy]
    unset a group event is judged by the channel-wide default and then by
    ["allowlist"]: it is dropped as [disabled], for want of an allow-list,
    or as not allow-listed exactly when that policy says so.  With
    [dm.policy] unset a direct event is judged by ["pairing"]: it is blocked
    only by [dm.enabled = false], and an unknown sender is turned away with
    a pairing request.  With [requireMention] unset the mention gate is
    asked with [true], or with the [requireMention] of the resolved group
    entry, which also takes precedence over a value that the account has;
    and the event that got past the group gate is dropped for want of a
    mention exactly when the gate asked that way says so.  In each case
    the run is the run of the account that has the default written out. *)
Theorem pipeline_defaults (core : FeishuCoreRuntime) (event : FeishuMessageEvent)
    (account : ResolvedFeishuAccount) (cfg : OpenClawConfig.t) (w : World)
    (i : Inbound) :
  (readEvent core event account w).1 = Next i →
  let r := processMessageWithPipeline core event account cfg w in
  let resolved :=
    resolveGroupConfig (chatId i) None (AccountConfig.groups (config account)) in
  let dm := AccountConfig.dm (config account) in
  (isGroup i = true → AccountConfig.groupPolicy (config account) = None →
   let policy := default GroupAllowlist (OpenClawConfig.defaultGroupPolicy cfg) in
   (r.1 = Return ExitGroupPolicyDisabled ↔ policy = GroupDisabled) ∧
   (r.1 = Return ExitNoAllowlist ↔
      policy = GroupAllowlist ∧ allowlistConfigured resolved = false) ∧
   (r.1 = Return ExitNotAllowlisted ↔
      policy = GroupAllowlist ∧ allowlistConfigured resolved = true ∧
      entry resolved = None) ∧
   r = processMessageWithPipeline core event
         (with_groupPolicy (Some policy) account) cfg w) ∧
  (isGroup i = false → dm ≫= DmConfig.policy = None →
   let allowFrom :=
     ((String_of <$> default [] (dm ≫= DmConfig.allowFrom))
        ++ default [] (readAllowFromStore core "feishu"))%list in
   (r.1 = Return ExitDmDisabled ↔ dm ≫= DmConfig.enabled = Some false) ∧
   (r.1 = Return ExitDmUnauthorized ↔
      dm ≫= DmConfig.enabled ≠ Some false ∧
      isSenderAllowed (senderId i) allowFrom = false) ∧
   (r.1 = Return ExitDmUnauthorized →
      ∃ new, calls r.2 = (calls w ++ new)%list ∧
             upserts new = [("feishu", senderId i)]) ∧
   r = processMessageWithPipeline core event
         (with_dm (Some (dm_with_policy DmPairing dm)) account) cfg w) ∧
  (isGroup i = true →
   ∃ auth,
     runs (resolveCommandAuth core account cfg true (senderId i) (rawBody i)
             (groupUsersOf (entry resolved))) (Next auth) [] ∧
     let p :=
       mentionGateParams core account cfg i (entry resolved) (commandAuthorized auth) in
     (∀ b, entry resolved ≫= GroupEntry.requireMention = Some b →
           gate_requireMention p = b) ∧
     (entry resolved ≫= GroupEntry.requireMention = Some false →
      r.1 ≠ Return ExitMentionRequired) ∧
     (AccountConfig.requireMention (config account) = None →
      gate_requireMention p
      = default true (entry resolved ≫= GroupEntry.requireMention) ∧
      ((∀ x, x ∈ groupGateExits → r.1 ≠ Return x) →
       (r.1 = Return ExitMentionRequired
        ↔ shouldSkip (resolveMentionGatingWithBypass p) = true) ∧
       (entry resolved ≫= GroupEntry.requireMention = None →
        gate_wasMentioned p = false →
        gate_canDetectMention p = true →
        gate_hasControlCommand p && gate_commandAuthorized p
          && gate_allowTextCommands p = false →
        r.1 = Return ExitMentionRequired)) ∧
      r = processMessageWithPipeline core event
            (with_requireMention (Some true) account) cfg w)).
Proof.
  intros Hnext r resolved dm.
  pose proof (readEvent_Next _ _ _ _ _ Hnext w) as Hread.
  split; [|split].
  - intros Hi Hunset policy.
    assert (groupPolicyOf account cfg = policy) as Hpolicy.
    { unfold groupPolicyOf. by rewrite Hunset. }
    assert (r = processMessageWithPipeline core event
                  (with_groupPolicy (Some policy) account) cfg w) as Hsame.
    { subst r. by rewrite <- Hpolicy, with_groupPolicy_same. }
    pose proof (groupGate_exits core account (chatId i) (senderId i)
                  (groupPolicyOf account cfg) resolved) as HG.
    cbv zeta in HG.
    assert (∀ x, x ∈ groupGateExits →
                 r.1 = Return x
                 ↔ match groupPolicyOf account cfg with
                   | GroupDisabled => Some ExitGroupPolicyDisabled
                   | GroupAllowlist =>
                       if negb (allowlistConfigured resolved) then Some ExitNoAllowlist
                       else if bool_decide (is_Some (entry resolved)) ||
                               bool_decide
                                 (is_Some (default ∅ (AccountConfig.groups
                                                        (config account)) !! "*"))
                            then
                              if bool_decide
                                   (entry resolved ≫= GroupEntry.enabled = Some false) ||
                                 bool_decide
                                   (entry resolved ≫= GroupEntry.allow = Some false)
                              then Some ExitChatDisabled
                              else
                                match String_of <$> groupUsersOf (entry resolved) with
                                | [] => None
                                | users =>
                                    if isSenderAllowed (senderId i) users then None
                                    else Some ExitGroupSenderNotAllowed
                                end
                            else Some ExitNotAllowlisted
                   | GroupOpen =>
                       if bool_decide
                            (entry resolved ≫= GroupEntry.enabled = Some false) ||
                          bool_decide
                            (entry resolved ≫= GroupEntry.allow = Some false)
                       then Some ExitChatDisabled
                       else
                         match String_of <$> groupUsersOf (entry resolved) with
                         | [] => None
                         | users =>
                             if isSenderAllowed (senderId i) users then None
                             else Some ExitGroupSenderNotAllowed
                         end
                   end = Some x) as Hexit.
    { intros x Hx.
      exact (pipeline_group_gate_exit core event account cfg w i _ x Hread Hi HG Hx). }
    rewrite Hpolicy in Hexit. split; [|split; [|split; [|exact Hsame]]].
    + rewrite (Hexit ExitGroupPolicyDisabled) by (unfold groupGateExits; in_list).
      clearbody policy. clear Hsame Hpolicy.
      destruct policy; cbn [negb];
        repeat match goal with
               | |- context [if ?c then _ else _] => destruct c
               | |- context [match ?l with [] => _ | _ => _ end] => destruct l
               end; split; intros; congruence.
    + rewrite (Hexit ExitNoAllowlist) by (unfold groupGateExits; in_list).
      clearbody policy. clear Hsame Hpolicy.
      destruct policy, (allowlistConfigured resolved); cbn [negb];
        repeat match goal with
               | |- context [if ?c then _ else _] => destruct c
               | |- context [match ?l with [] => _ | _ => _ end] => destruct l
               end; split; intros; intuition congruence.
    + rewrite (Hexit ExitNotAllowlisted) by (unfold groupGateExits; in_list).
      clearbody policy. clear Hsame Hpolicy.
      pose proof (resolveGroupConfig_no_entry (chatId i) None
                    (AccountConfig.groups (config account))) as Hwild.
      fold resolved in Hwild.
      destruct policy, (allowlistConfigured resolved); cbn [negb];
        try (repeat match goal with
                    | |- context [if ?c then _ else _] => destruct c
                    | |- context [match ?l with [] => _ | _ => _ end] => destruct l
                    end; split; intros; intuition congruence).
      destruct (entry resolved) as [e|] eqn:Hentry.
      * rewrite (bool_decide_eq_true_2 (is_Some (Some e))) by eauto. cbn [orb].
        repeat match goal with
               | |- context [if ?c then _ else _] => destruct c
               | |- context [match ?l with [] => _ | _ => _ end] => destruct l
               end; split; intros; intuition congruence.
      * rewrite (Hwild eq_refl eq_refl).
        rewrite !bool_decide_eq_false_2 by (by intros [? ?]). cbn [orb]. done.
  - intros Hi Hunset allowFrom.
    assert (dmPolicyOf account = DmPairing) as Hpolicy.
    { unfold dmPolicyOf. fold dm. by rewrite Hunset. }
    assert (r = processMessageWithPipeline core event
                  (with_dm (Some (dm_with_policy DmPairing dm)) account) cfg w) as Hsame.
    { subst r dm. by rewrite <- Hpolicy, with_dm_policy_same. }
    pose proof (pipeline_direct_outcome core event account cfg w i Hnext Hi) as Hout.
    cbv zeta in Hout. fold dm allowFrom r in Hout. rewrite Hpolicy in Hout.
    change (bool_decide (DmPairing = DmDisabled)) with false in Hout.
    change (bool_decide (DmPairing = DmOpen)) with false in Hout.
    cbn [orb] in Hout.
    assert (r.1 = Return ExitDmUnauthorized ↔
            dm ≫= DmConfig.enabled ≠ Some false ∧
            isSenderAllowed (senderId i) allowFrom = false) as Hturned.
    { destruct (decide (dm ≫= DmConfig.enabled = Some false)) as [Hoff|Hon].
      - rewrite (bool_decide_eq_true_2 _ Hoff) in Hout. rewrite Hout.
        split; [done | by intros [? _]].
      - rewrite (bool_decide_eq_false_2 _ Hon) in Hout.
        destruct (isSenderAllowed (senderId i) allowFrom).
        + split; [intros Hr; by destruct (Hout ExitDmUnauthorized) | by intros [_ ?]].
        + by rewrite Hout. }
    split; [|split; [exact Hturned|split; [|exact Hsame]]].
    + destruct (decide (dm ≫= DmConfig.enabled = Some false)) as [Hoff|Hon].
      * rewrite (bool_decide_eq_true_2 _ Hoff) in Hout. by rewrite Hout.
      * rewrite (bool_decide_eq_false_2 _ Hon) in Hout.
        split; [|done]. intros Hr.
        destruct (isSenderAllowed (senderId i) allowFrom).
        -- by destruct (Hout ExitDmDisabled).
        -- rewrite Hout in Hr. discriminate Hr.
    + intros Hr. apply Hturned in Hr as [Hon Hunknown].
      destruct (dm_pairing_run core event account cfg w i Hnext Hi Hpolicy Hon Hunknown)
        as (_ & _ & _ & new & Hcalls & Hups & _).
      exists new. by split.
  - intros Hi.
    destruct (resolveCommandAuth_group core account cfg (senderId i) (rawBody i)
                (groupUsersOf (entry resolved))) as (auth & Hauth).
    exists auth. split; [exact Hauth|]. intros p.
    destruct (groupGate_exits_listed core account (chatId i) (senderId i)
                (groupPolicyOf account cfg) resolved) as (oG & HG & Hlisted).
    pose proof (pipeline_group_outcome core event account cfg w i auth oG Hread Hi
                  Hauth HG) as Hout.
    cbv zeta in Hout. fold resolved p r in Hout.
    assert (∀ b, entry resolved ≫= GroupEntry.requireMention = Some b →
                 gate_requireMention p = b) as Hfirst.
    { intros b Hb. subst p. unfold mentionGateParams, requireMentionOf.
      cbn [gate_requireMention]. by rewrite Hb. }
    assert (gate_requireMention p = false →
            shouldSkip (resolveMentionGatingWithBypass p) = false) as Hfree.
    { intros Hp. unfold resolveMentionGatingWithBypass. by rewrite Hp. }
    split; [exact Hfirst|]. split.
    + intros Hfalse Hr. destruct oG as [x|].
      * rewrite Hout in Hr. injection Hr as ->.
        pose proof (Hlisted _ eq_refl) as Hx. unfold groupGateExits in Hx.
        rewrite !elem_of_cons, elem_of_nil in Hx. intuition discriminate.
      * rewrite (Hfree (Hfirst false Hfalse)) in Hout.
        destruct (_ && _); [rewrite Hout in Hr; discriminate Hr|].
        by apply (Hout ExitMentionRequired).
    + intros Hunset. split; [|split].
      * subst p. unfold mentionGateParams, requireMentionOf. cbn [gate_requireMention].
        by rewrite Hunset.
      * intros Hpast.
        assert (oG = None) as ->.
        { destruct oG as [x|]; [|done]. by destruct (Hpast x (Hlisted x eq_refl)). }
        assert (r.1 = Return ExitMentionRequired
                ↔ shouldSkip (resolveMentionGatingWithBypass p) = true) as Hskip.
        { destruct (shouldSkip (resolveMentionGatingWithBypass p)); [done|].
          split; [|done]. intros Hr.
          destruct (_ && _); [rewrite Hout in Hr; discriminate Hr|].
          by destruct (Hout ExitMentionRequired). }
        split; [exact Hskip|].
        intros Hentry Hwas Hdetect Hbypass. apply Hskip.
        unfold resolveMentionGatingWithBypass.
        assert (gate_requireMention p = true) as ->.
        { subst p. unfold mentionGateParams, requireMentionOf. cbn [gate_requireMention].
          by rewrite Hunset, Hentry. }
        by rewrite Hwas, Hbypass, Hdetect.
      * subst r.
        pose proof (with_requireMention_same core event account cfg) as Hsame.
        rewrite Hunset in Hsame. cbn [default] in Hsame. by rewrite Hsame.
Qed.

Lemma pipeline_defaults_witness :
  let direct := sampleEvent "p2p" "oc_dm" "ou_u1" "status" in
  let group := sampleEvent "group" "oc_team" "ou_u1" "hello" in
  let inGroup := {| in_message := sampleMessage "group" "oc_team" "hello";
                    chatId := "oc_team"; isGroup := true; senderId := "ou_u1";
                    rawContent := ""; rawBody := "hello" |} in
  (readEvent sampleCore direct sampleAccount emptyWorld).1 = Next sampleDirectInbound ∧
  (readEvent sampleCore group sampleAccount emptyWorld).1 = Next inGroup ∧
  AccountConfig.groupPolicy (config sampleAccount) = None ∧
  AccountConfig.dm (config sampleAccount) ≫= DmConfig.policy = None ∧
  AccountConfig.requireMention (config sampleAccount) = None ∧
  (processMessageWithPipeline sampleCore group sampleAccount sampleConfig emptyWorld).1
  = Return ExitNoAllowlist ∧
  (processMessageWithPipeline sampleCore direct sampleAccount sampleConfig emptyWorld).1
  = Return ExitDmUnauthorized ∧
  ∃ auth,
    gate_requireMention
      (mentionGateParams sampleCore sampleAccount sampleConfig inGroup None auth)
    = true.
Proof.
  intros direct group inGroup.
  destruct (pipeline_defaults sampleCore group sampleAccount sampleConfig emptyWorld
              inGroup eq_refl) as (Hgroup & _ & Hmention).
  destruct (pipeline_defaults sampleCore direct sampleAccount sampleConfig emptyWorld
              sampleDirectInbound eq_refl) as (_ & Hdm & _).
  split; [reflexivity|]. split; [reflexivity|]. split; [reflexivity|].
  split; [reflexivity|]. split; [reflexivity|]. split; [|split].
  - apply (proj1 (proj2 (Hgroup eq_refl eq_refl))). by split.
  - apply (proj1 (proj2 (Hdm eq_refl eq_refl))). split; [discriminate | reflexivity].
  - destruct (Hmention eq_refl) as (auth & _ & _ & _ & Hunset).
    exists (commandAuthorized auth). exact (proj1 (Hunset eq_refl)).
Defined.
